(** * Poisson-disk subsampling of 3D point clouds

    A shallow embedding of the octree ([Octree.h], [OctreeNode.h]), of the
    radius-r neighbourhood iterator ([OctreeIterator.h]), of the two
    selection engines ([SampleSelection.h]), of the construction of the
    octree from the input samples ([FileIO.cpp]) and of the driver
    ([main.cpp]), followed by the notions the specification is stated
    with and by the properties of the specification.

    Conventions of the embedding.
    - A C++ [double] is an exact rational ([Q]); rounding is outside the
      model, and two doubles are compared with [Qeq], [Qlt], [Qle].
    - An [unsigned int] is an integer ([Z]) reduced modulo 2^32 ([u32]) at
      the places where the source does arithmetic on it.
    - A [TOctreeNode<T>*] is a value of [TOctreeNode.ptr]: [NULL], or the
      node it points to.  In-place mutation of a node below the root is
      the functional update of the path leading to it.
    - The [Sample] objects of a leaf live in the cells of its [std::list].
      A cell is named by its allocation rank (its address, a [nat]); a
      [Sample*] is such an address.  The coordinates never change after
      insertion and are read from the tree; the three flags are mutable
      and are kept in a store indexed by address during selection.
    - [m_nb_non_empty_cells] only feeds [printOctreeStat] and is left out. *)

From Stdlib Require Import ZArith QArith Qround Lia Lqa List Bool Sorted.
From stdpp Require Import gmap list.
Import ListNotations.
Local Open Scope Z_scope.

(** ** Numbers *)

(** Arithmetic on [unsigned int]. *)
Definition u32 (z : Z) : Z := z mod 2 ^ 32.

(** Strict comparison of two doubles, as a boolean. *)
Definition Qltb (a b : Q) : bool := negb (Qle_bool b a).

(** The conversion [(unsigned int) d]: truncation toward zero.  The language
    defines it for -1 < d < 2^32 only; elsewhere the model wraps around,
    and no statement below relies on that range. *)
Definition double_to_uint (d : Q) : Z :=
  u32 (if Qle_bool 0 d then Qfloor d else Qceiling d).

(** Modelled from the spec: [utilities.h] is not among the sources; its
    [pow2(n)] is the integer 2^n ("binsize = 2^D"). *)
Definition pow2 (n : Z) : Z := 2 ^ n.

(** [floor(log2(d))] for a positive [d]: the integer [e] with
    2^e <= d < 2^(e+1) (lemma [floor_log2_spec]).  For d <= 0, where the
    library gives an infinity or a NaN, the model returns 0 and no
    statement below relies on it. *)
Definition floor_log2 (d : Q) : Z :=
  if Qle_bool 1 d then Z.log2 (Qfloor d)
  else if Qltb 0 d then - Z.log2_up (Qceiling (/ d))
  else 0.

(** ** Points and samples ([Point.h], [Sample.h]) *)

Record Point := mkPoint { m_x : Q; m_y : Q; m_z : Q }.

(** [Point::Point()] *)
Definition Point_default : Point := mkPoint 0 0 0.

(** The mutable part of a [Sample]. *)
Record Flags := mkFlags {
  m_selected : bool;
  m_covered : bool;
  m_ncovered : Z
}.

(** A [Sample] is a [Point] with a normal and the three flags (the tangent
    fields are never read by the code modelled here). *)
Record Sample := mkSample {
  pos : Point;
  m_nx : Q; m_ny : Q; m_nz : Q;
  flags : Flags
}.

(** What the three constructors of [Sample] leave in the flags. *)
Definition Flags_init : Flags := mkFlags true false 0.

(** [Sample::Sample(x, y, z)] *)
Definition Sample_xyz (x y z : Q) : Sample :=
  mkSample (mkPoint x y z) 0 0 0 Flags_init.

(** [Sample::Sample(x, y, z, nx, ny, nz)] *)
Definition Sample_oriented (x y z nx ny nz : Q) : Sample :=
  mkSample (mkPoint x y z) nx ny nz Flags_init.

(** Modelled from the spec: [dist2] of [utilities.h], the squared Euclidean
    distance (q - p).(q - p). *)
Definition dist2 (q p : Point) : Q :=
  ((m_x q - m_x p) * (m_x q - m_x p)
   + (m_y q - m_y p) * (m_y q - m_y p)
   + (m_z q - m_z p) * (m_z q - m_z p))%Q.

(** Addresses of list cells, i.e. values of type [T*]. *)
Abbreviation addr := nat.

(** The indices of the loops [for (i = 0; i < 8; i++)]. *)
Definition eight : list Z := [0; 1; 2; 3; 4; 5; 6; 7].

(** ** Octree nodes ([OctreeNode.h]) *)

Module TOctreeNode.

Record fields := mk {
  m_nchild : option Z;   (* [None]: never assigned *)
  m_npts : Z;
  m_origin : Point;
  m_depth : Z;
  m_xloc : Z;
  m_yloc : Z;
  m_zloc : Z;
  m_size : Q;
  m_points : list (addr * Sample)
}.

(** A pointer to a node; the second argument of [Node] is [m_child]. *)
Inductive ptr :=
| NULL
| Node (f : fields) (m_child : Z -> ptr).

(** [TOctreeNode(origin, size, depth)] *)
Definition new (origin : Point) (size : Q) (depth : Z) : ptr :=
  Node (mk None 0 origin depth 0 0 0 size []) (fun _ => NULL).

(** [TOctreeNode()] *)
Definition new_default : ptr :=
  Node (mk None 0 Point_default 0 0 0 0 0%Q []) (fun _ => NULL).

(** Accessors.  The source never calls them on a null pointer; the model
    returns a default value there. *)
Definition getDepth (n : ptr) : Z :=
  match n with NULL => 0 | Node f _ => m_depth f end.

Definition getSize (n : ptr) : Q :=
  match n with NULL => 0%Q | Node f _ => m_size f end.

Definition getNpts (n : ptr) : Z :=
  match n with NULL => 0 | Node f _ => m_npts f end.

Definition getNChild (n : ptr) : option Z :=
  match n with NULL => None | Node f _ => m_nchild f end.

Definition getOrigin (n : ptr) : Point :=
  match n with NULL => Point_default | Node f _ => m_origin f end.

Definition getXLoc (n : ptr) : Z :=
  match n with NULL => 0 | Node f _ => m_xloc f end.

Definition getYLoc (n : ptr) : Z :=
  match n with NULL => 0 | Node f _ => m_yloc f end.

Definition getZLoc (n : ptr) : Z :=
  match n with NULL => 0 | Node f _ => m_zloc f end.

Definition points (n : ptr) : list (addr * Sample) :=
  match n with NULL => [] | Node f _ => m_points f end.

(** [getChild(index)] reads [m_child[index % 8]]. *)
Definition getChild (n : ptr) (index : Z) : ptr :=
  match n with NULL => NULL | Node _ ch => ch (index mod 8) end.

Definition setNchild (n : ptr) (a : Z) : ptr :=
  match n with
  | NULL => NULL
  | Node f ch =>
      Node (mk (Some a) (m_npts f) (m_origin f) (m_depth f) (m_xloc f)
              (m_yloc f) (m_zloc f) (m_size f) (m_points f)) ch
  end.

Definition setXLoc (n : ptr) (xloc : Z) : ptr :=
  match n with
  | NULL => NULL
  | Node f ch =>
      Node (mk (m_nchild f) (m_npts f) (m_origin f) (m_depth f) xloc
              (m_yloc f) (m_zloc f) (m_size f) (m_points f)) ch
  end.

Definition setYLoc (n : ptr) (yloc : Z) : ptr :=
  match n with
  | NULL => NULL
  | Node f ch =>
      Node (mk (m_nchild f) (m_npts f) (m_origin f) (m_depth f) (m_xloc f)
              yloc (m_zloc f) (m_size f) (m_points f)) ch
  end.

Definition setZLoc (n : ptr) (zloc : Z) : ptr :=
  match n with
  | NULL => NULL
  | Node f ch =>
      Node (mk (m_nchild f) (m_npts f) (m_origin f) (m_depth f) (m_xloc f)
              (m_yloc f) zloc (m_size f) (m_points f)) ch
  end.

Definition setDepth (n : ptr) (l : Z) : ptr :=
  match n with
  | NULL => NULL
  | Node f ch =>
      Node (mk (m_nchild f) (m_npts f) (m_origin f) l (m_xloc f)
              (m_yloc f) (m_zloc f) (m_size f) (m_points f)) ch
  end.

(** The assignment [m_child[index] = c]. *)
Definition setChild (n : ptr) (index : Z) (c : ptr) : ptr :=
  match n with
  | NULL => NULL
  | Node f ch => Node f (fun j => if j =? index then c else ch j)
  end.

(** A mutation [g] performed through the pointer [getChild(index)]. *)
Definition onChild (n : ptr) (index : Z) (g : ptr -> ptr) : ptr :=
  setChild n (index mod 8) (g (getChild n index)).

(** [isInside(p)]: half-open on the high side. *)
Definition isInside (n : ptr) (p : Point) : bool :=
  let o := getOrigin n in
  let s := getSize n in
  Qle_bool (m_x o) (m_x p) && Qltb (m_x p) (m_x o + s)
  && Qle_bool (m_y o) (m_y p) && Qltb (m_y p) (m_y o + s)
  && Qle_bool (m_z o) (m_z p) && Qltb (m_z p) (m_z o + s).

(** [addPoint(t)]: [push_back] into a fresh cell [a], [m_npts++]. *)
Definition addPoint (n : ptr) (a : addr) (t : Sample) : ptr :=
  match n with
  | NULL => NULL
  | Node f ch =>
      Node (mk (m_nchild f) (u32 (m_npts f + 1)) (m_origin f) (m_depth f)
              (m_xloc f) (m_yloc f) (m_zloc f) (m_size f)
              (m_points f ++ [(a, t)])) ch
  end.

(** [initializeChild(index, origin)]; the result is the node itself, whose
    child [index] is the node created. *)
Definition initializeChild (n : ptr) (index : Z) (origin : Point) : ptr :=
  let size := (getSize n / 2)%Q in
  let depth := u32 (getDepth n - 1) in
  setChild n index (setNchild (new origin size depth) index).

(** All the list cells below a node, children in index order. *)
Fixpoint all_samples (n : ptr) : list (addr * Sample) :=
  match n with
  | NULL => []
  | Node f ch => m_points f ++ flat_map (fun i => all_samples (ch i)) eight
  end.

(** [isInside(x, y, z)] *)
Definition isInside_xyz (n : ptr) (x y z : Q) : bool :=
  let o := getOrigin n in
  let s := getSize n in
  Qle_bool (m_x o) x && Qltb x (m_x o + s)
  && Qle_bool (m_y o) y && Qltb y (m_y o + s)
  && Qle_bool (m_z o) z && Qltb z (m_z o + s).

(** [isInside(p, d)]: the cube grown by [d] on every side. *)
Definition isInside_margin (n : ptr) (p : Point) (d : Q) : bool :=
  let o := getOrigin n in
  let offset := (getSize n + d)%Q in
  Qle_bool (m_x o - d) (m_x p) && Qltb (m_x p) (m_x o + offset)
  && Qle_bool (m_y o - d) (m_y p) && Qltb (m_y p) (m_y o + offset)
  && Qle_bool (m_z o - d) (m_z p) && Qltb (m_z p) (m_z o + offset).

End TOctreeNode.

(** ** The octree ([Octree.h]) *)

Module TOctree.
Import TOctreeNode.

Record t := mk {
  m_depth : Z;
  m_npoints : Z;
  m_origin : Point;
  m_size : Q;
  m_binsize : Z;
  m_root : ptr
}.

(** [TOctree()] *)
Definition new_default : t :=
  mk 0 0 Point_default 0%Q 0 (TOctreeNode.setDepth TOctreeNode.new_default 0).

(** [TOctree(depth)] *)
Definition new_depth (depth : Z) : t :=
  mk depth 0 Point_default 0%Q (u32 (pow2 depth)) NULL.

(** [TOctree(origin, size, depth)] *)
Definition new (origin : Point) (size : Q) (depth : Z) : t :=
  mk depth 0 origin size (u32 (pow2 depth)) NULL.

Definition getDepth (oc : t) : Z := m_depth oc.
Definition getNpoints (oc : t) : Z := m_npoints oc.
Definition getSize (oc : t) : Q := m_size oc.
Definition getBinSize (oc : t) : Z := m_binsize oc.
Definition getOrigin (oc : t) : Point := m_origin oc.
Definition getRoot (oc : t) : ptr := m_root oc.

Definition setDepth (oc : t) (depth : Z) : t :=
  mk depth (m_npoints oc) (m_origin oc) (m_size oc) (u32 (pow2 depth))
     (m_root oc).

Definition setSize (oc : t) (size : Q) : t :=
  mk (m_depth oc) (m_npoints oc) (m_origin oc) size (m_binsize oc)
     (m_root oc).

(** [initialize(origin, size)]: the root is a fresh node of depth [m_depth]
    with locational code (0, 0, 0); its [m_nchild] is not assigned. *)
Definition initialize (oc : t) (origin : Point) (size : Q) : t :=
  let root := TOctreeNode.new origin size (m_depth oc) in
  let root := setZLoc (setYLoc (setXLoc root 0) 0) 0 in
  mk (m_depth oc) (m_npoints oc) origin size (m_binsize oc) root.

(** The loop of [addPoint].  Every iteration moves one level down, so
    [fuel] = the depth of the starting node is enough (lemma
    [addPoint_loop_fuel]).  [a] is the address of the cell that will hold
    the copy of [pt]. *)
Fixpoint addPoint_loop (fuel : nat) (node : ptr) (l codx cody codz : Z)
    (a : addr) (pt : Sample) : ptr :=
  if TOctreeNode.getDepth node =? 0 then TOctreeNode.addPoint node a pt
  else
    match fuel with
    | O => node
    | S fuel' =>
        let childBranchBit := u32 (Z.shiftl 1 l) in
        let x := Z.shiftr (Z.land codx childBranchBit) l in
        let y := Z.shiftr (Z.land cody childBranchBit) l in
        let z := Z.shiftr (Z.land codz childBranchBit) l in
        let childIndex := u32 (Z.shiftl x 2 + Z.shiftl y 1 + z) in
        let node1 :=
          match getChild node childIndex with
          | NULL =>
              let childSize := (TOctreeNode.getSize node / 2)%Q in
              let childDepth := u32 (TOctreeNode.getDepth node - 1) in
              let origin := TOctreeNode.getOrigin node in
              let childOrigin :=
                mkPoint (m_x origin + inject_Z x * childSize)
                        (m_y origin + inject_Z y * childSize)
                        (m_z origin + inject_Z z * childSize) in
              let node' := initializeChild node childIndex childOrigin in
              onChild node' childIndex (fun child =>
                let child :=
                  setXLoc child (u32 (getXLoc node + u32 (Z.shiftl x childDepth))) in
                let child :=
                  setYLoc child (u32 (getYLoc node + u32 (Z.shiftl y childDepth))) in
                setZLoc child (u32 (getZLoc node + u32 (Z.shiftl z childDepth))))
          | Node _ _ => node
          end in
        onChild node1 childIndex (fun child =>
          addPoint_loop fuel' child (u32 (l - 1)) codx cody codz a pt)
    end.

(** The locational code of a coordinate [c] along an axis of origin [o], as
    [addPoint] computes it. *)
Definition addPoint_code (oc : t) (c o : Q) : Z :=
  double_to_uint ((c - o) / m_size oc * inject_Z (m_binsize oc)).

(** [addPoint(pt)] *)
Definition addPoint (oc : t) (pt : Sample) : t :=
  let codx := addPoint_code oc (m_x (pos pt)) (m_x (m_origin oc)) in
  let cody := addPoint_code oc (m_y (pos pt)) (m_y (m_origin oc)) in
  let codz := addPoint_code oc (m_z (pos pt)) (m_z (m_origin oc)) in
  let node := getRoot oc in
  let l := u32 (TOctreeNode.getDepth node - 1) in
  let a := length (all_samples node) in
  let root := addPoint_loop (Z.to_nat (TOctreeNode.getDepth node)) node l
                codx cody codz a pt in
  mk (m_depth oc) (u32 (m_npoints oc + 1)) (m_origin oc) (m_size oc)
     (m_binsize oc) root.

(** [addPoints(begin, end)] *)
Definition addPoints (oc : t) (pts : list Sample) : t :=
  fold_left addPoint pts oc.

(** [getNodes(depth, starting_node, nodes)], the vector being extended at
    its end. *)
Fixpoint getNodes (depth : Z) (starting_node : ptr) (nodes : list ptr)
    : list ptr :=
  match starting_node with
  | NULL => nodes
  | Node f ch =>
      if TOctreeNode.m_depth f =? depth then nodes ++ [starting_node]
      else
        fold_left
          (fun acc i =>
             match ch (i mod 8) with
             | NULL => acc
             | Node _ _ => getNodes depth (ch (i mod 8)) acc
             end)
          eight nodes
  end.

(** [node_collection[nchild].push_back(node)].  Reading an [m_nchild] that
    was never assigned, or indexing the vector of 8 buckets out of range,
    is undefined: [None]. *)
Definition push_bucket (node_collection : list (list ptr)) (node : ptr)
    : option (list (list ptr)) :=
  match getNChild node with
  | Some nchild =>
      match node_collection !! Z.to_nat nchild with
      | Some bucket =>
          if (0 <=? nchild) && (nchild <? 8)
          then Some (<[Z.to_nat nchild := bucket ++ [node]]> node_collection)
          else None
      | None => None
      end
  | None => None
  end.

(** The loop [while (!nodes.empty())] of the bucketed [getNodes]: the
    nodes are taken from the back of the vector. *)
Fixpoint getNodes_pop (nodes_rev : list ptr)
    (node_collection : list (list ptr)) : option (list (list ptr)) :=
  match nodes_rev with
  | [] => Some node_collection
  | node :: rest =>
      match push_bucket node_collection node with
      | Some nc => getNodes_pop rest nc
      | None => None
      end
  end.

(** [getNodes(depth, starting_node, node_collection)], the bucketed
    version. *)
Definition getNodes_collection (depth : Z) (starting_node : ptr)
    (node_collection : list (list ptr)) : option (list (list ptr)) :=
  let nodes := getNodes depth starting_node [] in
  let node_collection := node_collection ++ map (fun _ => []) eight in
  getNodes_pop (rev nodes) node_collection.

End TOctree.

(** ** The neighbourhood iterator ([OctreeIterator.h]) *)

Module TOctreeIterator.
Import TOctreeNode.

(** The pointer [m_octree] is the argument [oc] of the methods. *)
Record t := mk {
  m_activeDepth : Z;
  m_radius : Q;
  m_sqradius : Q
}.

(** [TOctreeIterator(octree)] *)
Definition new (oc : TOctree.t) : t :=
  let activeDepth := TOctree.getDepth oc in
  let radius := (TOctree.getSize oc / inject_Z (pow2 activeDepth))%Q in
  mk activeDepth radius (radius * radius)%Q.

Definition getDepth (it : t) : Z := m_activeDepth it.
Definition getR (it : t) : Q := m_radius it.
Definition getSquareR (it : t) : Q := m_sqradius it.

(** [setDepth(depth)]: the boolean returned and the iterator afterwards. *)
Definition setDepth (it : t) (oc : TOctree.t) (depth : Z) : bool * t :=
  if depth <=? TOctree.getDepth oc then
    let radius := (TOctree.getSize oc / inject_Z (pow2 depth))%Q in
    (true, mk depth radius (radius * radius)%Q)
  else (false, it).

(** [setR(radius)]: the boolean returned and the iterator afterwards. *)
Definition setR (it : t) (oc : TOctree.t) (radius : Q) : bool * t :=
  if Qltb radius (TOctree.getSize oc) then
    let activeDepth :=
      double_to_uint
        (inject_Z (TOctree.getDepth oc)
         - inject_Z (floor_log2 (TOctree.getSize oc / (2 * radius)))) in
    (true, mk activeDepth radius (radius * radius)%Q)
  else (false, it).

(** The loop of [traverseToLevel]; [l] is the signed [int] of the source. *)
Fixpoint traverseToLevel_loop (node : ptr) (l : Z)
    (xLocCode yLocCode zLocCode k : Z) : ptr :=
  match node with
  | NULL => NULL
  | Node f ch =>
      if k <? m_depth f then
        let childBranchBit := u32 (Z.shiftl 1 l) in
        let childIndex :=
          u32 (Z.shiftl (Z.shiftr (Z.land xLocCode childBranchBit) l) 2
               + Z.shiftl (Z.shiftr (Z.land yLocCode childBranchBit) l) 1
               + Z.shiftr (Z.land zLocCode childBranchBit) l) in
        match ch (childIndex mod 8) with
        | NULL => node
        | Node _ _ =>
            traverseToLevel_loop (ch (childIndex mod 8)) (l - 1)
              xLocCode yLocCode zLocCode k
        end
      else node
  end.

(** [traverseToLevel(&node, xLocCode, yLocCode, zLocCode, k)]: the value
    of [*node] on return. *)
Definition traverseToLevel (node : ptr) (xLocCode yLocCode zLocCode k : Z)
    : ptr :=
  traverseToLevel_loop node (TOctreeNode.getDepth node - 1)
    xLocCode yLocCode zLocCode k.

(** The loop over the points of a leaf in [explore]. *)
Definition explore_leaf (it : t) (query_point : Point)
    (pts : list (addr * Sample)) (neighbors : list addr) : list addr :=
  fold_left
    (fun acc (c : addr * Sample) =>
       if Qltb (dist2 query_point (pos (snd c))) (m_sqradius it)
       then acc ++ [fst c] else acc)
    pts neighbors.

(** [explore(node, query_point, neighbors)] *)
Fixpoint explore (it : t) (node : ptr) (query_point : Point)
    (neighbors : list addr) : list addr :=
  match node with
  | NULL => neighbors
  | Node f ch =>
      if negb (m_depth f =? 0) then
        fold_left
          (fun acc i =>
             match ch (i mod 8) with
             | NULL => acc
             | Node _ _ => explore it (ch (i mod 8)) query_point acc
             end)
          eight neighbors
      else if negb (m_npts f =? 0) then
        explore_leaf it query_point (m_points f) neighbors
      else neighbors
  end.

(** The loop over the points of a leaf in the [explore] with distances. *)
Definition explore_leaf_dist (it : t) (query_point : Point)
    (pts : list (addr * Sample)) (out : list addr * list Q)
    : list addr * list Q :=
  fold_left
    (fun acc (c : addr * Sample) =>
       let dist := dist2 query_point (pos (snd c)) in
       if Qltb dist (m_sqradius it)
       then (fst acc ++ [fst c], snd acc ++ [dist]) else acc)
    pts out.

(** [explore(node, query_point, neighbors, distances)] *)
Fixpoint explore_dist (it : t) (node : ptr) (query_point : Point)
    (out : list addr * list Q) : list addr * list Q :=
  match node with
  | NULL => out
  | Node f ch =>
      if negb (m_depth f =? 0) then
        fold_left
          (fun acc i =>
             match ch (i mod 8) with
             | NULL => acc
             | Node _ _ => explore_dist it (ch (i mod 8)) query_point acc
             end)
          eight out
      else if negb (m_npts f =? 0) then
        explore_leaf_dist it query_point (m_points f) out
      else out
  end.

Definition getXLeftCode (node : ptr) : Z := u32 (getXLoc node - 1).
Definition getYLeftCode (node : ptr) : Z := u32 (getYLoc node - 1).
Definition getZLeftCode (node : ptr) : Z := u32 (getZLoc node - 1).

Definition getXRightCode (node : ptr) : Z :=
  u32 (getXLoc node + u32 (pow2 (TOctreeNode.getDepth node))).
Definition getYRightCode (node : ptr) : Z :=
  u32 (getYLoc node + u32 (pow2 (TOctreeNode.getDepth node))).
Definition getZRightCode (node : ptr) : Z :=
  u32 (getZLoc node + u32 (pow2 (TOctreeNode.getDepth node))).

(** The list of candidate codes along one axis: the code of the query node,
    then its left and right neighbours when the two tests of the source
    hold.  [q] is the coordinate of the query, [no] and [oo] the origins
    of the query node and of the octree along the axis. *)
Definition axis_codes (it : t) (q no node_size oo octree_size : Q)
    (own left right : Z) : list Z :=
  [own]
  ++ (if Qltb (q - m_radius it) no && Qltb oo (q - m_radius it)
      then [left] else [])
  ++ (if Qltb (no + node_size) (q + m_radius it)
         && Qltb (q + m_radius it) (oo + octree_size)
      then [right] else []).

Definition xloc_list (it : t) (oc : TOctree.t) (query : Point)
    (query_node : ptr) : list Z :=
  axis_codes it (m_x query) (m_x (getOrigin query_node)) (getSize query_node)
    (m_x (TOctree.getOrigin oc)) (TOctree.getSize oc)
    (getXLoc query_node) (getXLeftCode query_node) (getXRightCode query_node).

Definition yloc_list (it : t) (oc : TOctree.t) (query : Point)
    (query_node : ptr) : list Z :=
  axis_codes it (m_y query) (m_y (getOrigin query_node)) (getSize query_node)
    (m_y (TOctree.getOrigin oc)) (TOctree.getSize oc)
    (getYLoc query_node) (getYLeftCode query_node) (getYRightCode query_node).

Definition zloc_list (it : t) (oc : TOctree.t) (query : Point)
    (query_node : ptr) : list Z :=
  axis_codes it (m_z query) (m_z (getOrigin query_node)) (getSize query_node)
    (m_z (TOctree.getOrigin oc)) (TOctree.getSize oc)
    (getZLoc query_node) (getZLeftCode query_node) (getZRightCode query_node).

Definition is_null (n : ptr) : bool :=
  match n with NULL => true | Node _ _ => false end.

(** The three nested loops over the candidate codes: every triple is
    followed from the root down to level [k], and the node reached is
    visited when it has depth [k]. *)
Definition look_inside {A : Type} (oc : TOctree.t) (xloc yloc zloc : list Z)
    (k : Z) (visit : ptr -> A -> A) (out : A) : A :=
  fold_left (fun out xi =>
    fold_left (fun out yi =>
      fold_left (fun out zi =>
        let node := traverseToLevel (TOctree.getRoot oc) xi yi zi k in
        if negb (is_null node) && (TOctreeNode.getDepth node =? k)
        then visit node out else out)
      zloc out)
    yloc out)
  xloc out.

(** [getNeighbors(query, query_node, neighbors)] *)
Definition getNeighbors_node (it : t) (oc : TOctree.t) (query : Point)
    (query_node : ptr) (neighbors : list addr) : list addr :=
  let xloc := xloc_list it oc query query_node in
  let yloc := yloc_list it oc query query_node in
  let zloc := zloc_list it oc query query_node in
  if TOctreeNode.getDepth query_node =? m_activeDepth it then
    look_inside oc xloc yloc zloc (m_activeDepth it)
      (fun node => explore it node query) neighbors
  else
    let s := TOctreeNode.getDepth query_node in
    look_inside oc xloc yloc zloc s
      (fun node => explore it node query) neighbors.

(** [getNeighbors(query, query_node, neighbors, distances)] *)
Definition getNeighbors_node_dist (it : t) (oc : TOctree.t) (query : Point)
    (query_node : ptr) (out : list addr * list Q) : list addr * list Q :=
  let xloc := xloc_list it oc query query_node in
  let yloc := yloc_list it oc query query_node in
  let zloc := zloc_list it oc query query_node in
  if TOctreeNode.getDepth query_node =? m_activeDepth it then
    look_inside oc xloc yloc zloc (m_activeDepth it)
      (fun node => explore_dist it node query) out
  else
    let s := TOctreeNode.getDepth query_node in
    look_inside oc xloc yloc zloc s
      (fun node => explore_dist it node query) out.

(** The nodes on which [getNeighbors(query, query_node, ...)] calls
    [explore], in the order of the calls. *)
Definition explored_nodes (it : t) (oc : TOctree.t) (query : Point)
    (query_node : ptr) : list ptr :=
  let xloc := xloc_list it oc query query_node in
  let yloc := yloc_list it oc query query_node in
  let zloc := zloc_list it oc query query_node in
  if TOctreeNode.getDepth query_node =? m_activeDepth it then
    look_inside oc xloc yloc zloc (m_activeDepth it)
      (fun node out => out ++ [node]) []
  else
    let s := TOctreeNode.getDepth query_node in
    look_inside oc xloc yloc zloc s (fun node out => out ++ [node]) [].

(** One coordinate of [computeCode]. *)
Definition computeCode1 (oc : TOctree.t) (c o : Q) : Z :=
  let multiplier :=
    (1 / TOctree.getSize oc * inject_Z (TOctree.getBinSize oc))%Q in
  double_to_uint ((c - o) * multiplier).

(** [computeCode(point, codx, cody, codz)] *)
Definition computeCode (oc : TOctree.t) (point : Point) : Z * Z * Z :=
  let octree_origin := TOctree.getOrigin oc in
  (computeCode1 oc (m_x point) (m_x octree_origin),
   computeCode1 oc (m_y point) (m_y octree_origin),
   computeCode1 oc (m_z point) (m_z octree_origin)).

(** [locatePointNode(point)] *)
Definition locatePointNode (it : t) (oc : TOctree.t) (point : Point) : ptr :=
  let '(codx, cody, codz) := computeCode oc point in
  traverseToLevel (TOctree.getRoot oc) codx cody codz (m_activeDepth it).

(** [getNeighbors(query, neighbors)] *)
Definition getNeighbors (it : t) (oc : TOctree.t) (query : Point)
    (neighbors : list addr) : list addr :=
  let node := locatePointNode it oc query in
  getNeighbors_node it oc query node neighbors.

(** [getNeighbors(query, neighbors, distances)] *)
Definition getNeighbors_dist (it : t) (oc : TOctree.t) (query : Point)
    (out : list addr * list Q) : list addr * list Q :=
  let node := locatePointNode it oc query in
  getNeighbors_node_dist it oc query node out.

(** [neighbors.insert(pair(dist, s))] on a [std::map<double, T*>], the
    increasing list of its entries: an entry whose key is equivalent to
    [dist] (neither is less than the other) blocks the insertion. *)
Fixpoint map_insert (dist : Q) (s : addr) (m : list (Q * addr))
    : list (Q * addr) :=
  match m with
  | [] => [(dist, s)]
  | (d, a) :: m' =>
      if Qltb dist d then (dist, s) :: m
      else if Qltb d dist then (d, a) :: map_insert dist s m'
      else m
  end.

(** The loop over the points of a leaf in [exploreSort]. *)
Definition exploreSort_leaf (it : t) (query_point : Point)
    (pts : list (addr * Sample)) (neighbors : list (Q * addr))
    : list (Q * addr) :=
  fold_left
    (fun acc (c : addr * Sample) =>
       let dist := dist2 query_point (pos (snd c)) in
       if Qltb dist (m_sqradius it) then map_insert dist (fst c) acc else acc)
    pts neighbors.

(** [exploreSort(node, query_point, neighbors)] *)
Fixpoint exploreSort (it : t) (node : ptr) (query_point : Point)
    (neighbors : list (Q * addr)) : list (Q * addr) :=
  match node with
  | NULL => neighbors
  | Node f ch =>
      if negb (m_depth f =? 0) then
        fold_left
          (fun acc i =>
             match ch (i mod 8) with
             | NULL => acc
             | Node _ _ => exploreSort it (ch (i mod 8)) query_point acc
             end)
          eight neighbors
      else if negb (m_npts f =? 0) then
        exploreSort_leaf it query_point (m_points f) neighbors
      else neighbors
  end.

(** [getSortedNeighbors(query, query_node, neighbors)]: the map on
    return; the value returned is its size. *)
Definition getSortedNeighbors_node (it : t) (oc : TOctree.t) (query : Point)
    (query_node : ptr) (neighbors : list (Q * addr)) : list (Q * addr) :=
  let xloc := xloc_list it oc query query_node in
  let yloc := yloc_list it oc query query_node in
  let zloc := zloc_list it oc query query_node in
  if TOctreeNode.getDepth query_node =? m_activeDepth it then
    look_inside oc xloc yloc zloc (m_activeDepth it)
      (fun node => exploreSort it node query) neighbors
  else
    let s := TOctreeNode.getDepth query_node in
    look_inside oc xloc yloc zloc s
      (fun node => exploreSort it node query) neighbors.

(** [getSortedNeighbors(query, neighbors)] *)
Definition getSortedNeighbors (it : t) (oc : TOctree.t) (query : Point)
    (neighbors : list (Q * addr)) : list (Q * addr) :=
  let node := locatePointNode it oc query in
  getSortedNeighbors_node it oc query node neighbors.

(** [exceptions.find(s) != exceptions.end()] on a [std::set<T*>], the list
    of its elements. *)
Definition set_mem (s : addr) (exceptions : list addr) : bool :=
  existsb (Nat.eqb s) exceptions.

(** The loop over the points of a leaf in the [explore] with exceptions:
    it returns with [check = false] at the first sample within the radius
    that is not an exception. *)
Fixpoint explore_check_leaf (it : t) (query_point : Point)
    (exceptions : list addr) (pts : list (addr * Sample)) (check : bool)
    : bool :=
  match pts with
  | [] => check
  | c :: rest =>
      let sqdist := dist2 query_point (pos (snd c)) in
      if Qltb sqdist (m_sqradius it) && negb (set_mem (fst c) exceptions)
      then false
      else explore_check_leaf it query_point exceptions rest check
  end.

(** [explore(node, query_point, exceptions, check)]: the value of [check]
    on return. *)
Fixpoint explore_check (it : t) (node : ptr) (query_point : Point)
    (exceptions : list addr) (check : bool) : bool :=
  if negb check then check
  else
    match node with
    | NULL => check
    | Node f ch =>
        if negb (m_depth f =? 0) then
          fold_left
            (fun (check : bool) (i : Z) =>
               if check then
                 match ch (i mod 8) with
                 | NULL => check
                 | Node _ _ =>
                     explore_check it (ch (i mod 8)) query_point exceptions
                       check
                 end
               else check)
            eight check
        else if negb (m_npts f =? 0) then
          explore_check_leaf it query_point exceptions (m_points f) check
        else check
    end.

(** The three nested loops of [containsOnly]: [return false] as soon as a
    visited node leaves [ok] false. *)
Definition check_inside (oc : TOctree.t) (xloc yloc zloc : list Z) (k : Z)
    (visit : ptr -> bool -> bool) : bool :=
  forallb (fun xi =>
    forallb (fun yi =>
      forallb (fun zi =>
        let node := traverseToLevel (TOctree.getRoot oc) xi yi zi k in
        let ok := true in
        if negb (is_null node) && (TOctreeNode.getDepth node =? k)
        then visit node ok else ok)
      zloc)
    yloc)
  xloc.

(** [containsOnly(query, query_node, exceptions)] *)
Definition containsOnly_node (it : t) (oc : TOctree.t) (query : Point)
    (query_node : ptr) (exceptions : list addr) : bool :=
  let xloc := xloc_list it oc query query_node in
  let yloc := yloc_list it oc query query_node in
  let zloc := zloc_list it oc query query_node in
  if TOctreeNode.getDepth query_node =? m_activeDepth it then
    check_inside oc xloc yloc zloc (m_activeDepth it)
      (fun node ok => explore_check it node query exceptions ok)
  else
    let s := TOctreeNode.getDepth query_node in
    check_inside oc xloc yloc zloc s
      (fun node ok => explore_check it node query exceptions ok).

(** [containsOnly(query, exceptions)] *)
Definition containsOnly (it : t) (oc : TOctree.t) (query : Point)
    (exceptions : list addr) : bool :=
  let node := locatePointNode it oc query in
  containsOnly_node it oc query node exceptions.

End TOctreeIterator.

(** ** The selection engines ([SampleSelection.h]) *)

Module TSampleSelection.
Import TOctreeNode.

(** The flags of the samples, by address of their cell. *)
Abbreviation store := (gmap addr Flags).

(** The flags every cell holds when the octree has just been built: those
    of the sample copied into it. *)
Definition store_of (oc : TOctree.t) : store :=
  list_to_map
    (map (fun c : addr * Sample => (fst c, flags (snd c)))
       (all_samples (TOctree.getRoot oc))).

(** [s->isCovered()], [s->isSelected()], [s->getNCovered()] through a
    pointer. *)
Definition isCovered (st : store) (a : addr) : bool :=
  match st !! a with Some f => m_covered f | None => false end.

Definition isSelected (st : store) (a : addr) : bool :=
  match st !! a with Some f => m_selected f | None => false end.

Definition getNCovered (st : store) (a : addr) : Z :=
  match st !! a with Some f => m_ncovered f | None => 0 end.

(** [s->setCovered(b)], [s->setSelected(b)], [s->increaseNCovered()]. *)
Definition setCovered (st : store) (a : addr) (b : bool) : store :=
  alter (fun f => mkFlags (m_selected f) b (m_ncovered f)) a st.

Definition setSelected (st : store) (a : addr) (b : bool) : store :=
  alter (fun f => mkFlags b (m_covered f) (m_ncovered f)) a st.

Definition increaseNCovered (st : store) (a : addr) : store :=
  alter (fun f => mkFlags (m_selected f) (m_covered f) (u32 (m_ncovered f + 1)))
    a st.

(** The pointers [m_octree] and [m_iterator] are the octree [oc] passed to
    the methods and the field [m_iterator]; [m_sigma] is assigned only for
    a positive radius. *)
Record t := mk {
  m_radius : Q;
  m_sqradius : Q;
  m_sigma : option Q;
  m_nselected : Z;
  m_iterator : TOctreeIterator.t;
  m_selected_samples : list addr
}.

(** [TSampleSelection(radius, octree, iterator)]: [setRadius(radius)], then
    [m_iterator->setR(radius)], whose result is ignored. *)
Definition new (radius : Q) (oc : TOctree.t) (iterator : TOctreeIterator.t)
    : t :=
  mk radius (radius * radius)%Q
     (if Qltb 0 radius then Some ((1 # 2) / radius)%Q else None)
     0 (snd (TOctreeIterator.setR iterator oc radius)) [].

Definition getRadius (sel : t) : Q := m_radius sel.
Definition getNSelected (sel : t) : Z := m_nselected sel.

Definition set_nselected (sel : t) (n : Z) : t :=
  mk (m_radius sel) (m_sqradius sel) (m_sigma sel) n (m_iterator sel)
     (m_selected_samples sel).

(** The loop [while (ni != neighbors.end())] of both engines. *)
Definition cover (neighbors : list addr) (st : store) : store :=
  fold_left
    (fun st ni => increaseNCovered (setSelected (setCovered st ni true) ni false) ni)
    neighbors st.

(** The body of the loop over the samples of a leaf in
    [performSelection(cell, par)]. *)
Definition select_sample (oc : TOctree.t) (par : ptr) (s : t * store)
    (c : addr * Sample) : t * store :=
  let '(sel, st) := s in
  if negb (isCovered st (fst c)) then
    let neighbors :=
      TOctreeIterator.getNeighbors_node (m_iterator sel) oc (pos (snd c)) par
        [] in
    if (Z.of_nat (length neighbors) <? 3) then
      (sel, setSelected st (fst c) false)
    else
      let st := cover neighbors st in
      (set_nselected sel (u32 (m_nselected sel + 1)),
       setSelected st (fst c) true)
  else s.

(** [performSelection(cell, par)] *)
Fixpoint performSelection_par (oc : TOctree.t) (cell par : ptr)
    (s : t * store) : t * store :=
  match cell with
  | NULL => s
  | Node f ch =>
      if 0 <? m_depth f then
        fold_left
          (fun s i =>
             match ch (i mod 8) with
             | NULL => s
             | Node _ _ => performSelection_par oc (ch (i mod 8)) par s
             end)
          eight s
      else if 0 <? m_npts f then
        fold_left (select_sample oc par) (m_points f) s
      else s
  end.

(** [performSelection(cell)] *)
Fixpoint performSelection_cell (oc : TOctree.t) (cell : ptr)
    (s : t * store) : t * store :=
  match cell with
  | NULL => s
  | Node f ch =>
      if TOctreeIterator.getDepth (m_iterator (fst s)) <? m_depth f then
        fold_left
          (fun s i =>
             match ch (i mod 8) with
             | NULL => s
             | Node _ _ => performSelection_cell oc (ch (i mod 8)) s
             end)
          eight s
      else performSelection_par oc cell cell s
  end.

(** [performSelection()] *)
Definition performSelection (oc : TOctree.t) (s : t * store) : t * store :=
  performSelection_cell oc (TOctree.getRoot oc) s.

(** A [std::set<T*>] is the increasing list of its elements. *)
Fixpoint set_insert (a : addr) (s : list addr) : list addr :=
  match s with
  | [] => [a]
  | b :: s' =>
      if (a <? b)%nat then a :: s
      else if (a =? b)%nat then s
      else b :: set_insert a s'
  end.

Definition set_erase (a : addr) (s : list addr) : list addr :=
  List.filter (fun b => negb (b =? a)%nat) s.

(** The sample a pointer points to. *)
Definition deref (oc : TOctree.t) (a : addr) : option Sample :=
  snd <$> List.find (fun c : addr * Sample => (fst c =? a)%nat)
            (all_samples (TOctree.getRoot oc)).

(** The state of [performDartThrowingSelection(cell, ...)] in its loop;
    [draws] counts the calls of [std::rand]. *)
Record dart := mkDart {
  m_all_samples : list addr;
  nuncovered : Z;
  mem : store;
  cell_selected_samples : list addr;
  draws : nat
}.

(** The loop [while (nuncovered > 0)].  [rnd k] is the result of the k-th
    call of [std::rand]: the seed is the wall-clock time, so the sequence
    is arbitrary.  An iteration erases one element of the set at least, so
    [fuel] = cardinal + 1 is enough.  [None]: the iterator [it] has been
    advanced past [end()] and dereferenced. *)
Fixpoint dart_loop (fuel : nat) (rnd : nat -> Z) (iterator : TOctreeIterator.t)
    (oc : TOctree.t) (d : dart) : option dart :=
  if 0 <? nuncovered d then
    match fuel with
    | O => None
    | S fuel' =>
        let idx := u32 (rnd (draws d)) mod nuncovered d in
        match nth_error (m_all_samples d) (Z.to_nat idx) with
        | Some s =>
            let all := set_erase s (m_all_samples d) in
            if isCovered (mem d) s then
              dart_loop fuel' rnd iterator oc
                (mkDart all (nuncovered d) (mem d) (cell_selected_samples d)
                   (S (draws d)))
            else
              match deref oc s with
              | Some smp =>
                  let neighbors :=
                    TOctreeIterator.getNeighbors iterator oc (pos smp) [] in
                  let all := fold_left (fun all n => set_erase n all) neighbors all in
                  let st := cover neighbors (mem d) in
                  let st := setSelected st s true in
                  dart_loop fuel' rnd iterator oc
                    (mkDart all (u32 (Z.of_nat (length all))) st
                       (cell_selected_samples d ++ [s]) (S (draws d)))
              | None => None
              end
        | None => None
        end
    end
  else Some d.

(** [performDartThrowingSelection(cell, cell_selected_samples)]: the store,
    the list of the cell and the number of draws afterwards. *)
Definition performDartThrowingSelection_cell (rnd : nat -> Z) (sel : t)
    (oc : TOctree.t) (cell : ptr) (st : store) (draws0 : nat)
    : option (store * list addr * nat) :=
  let leaves := TOctree.getNodes 0 cell [] in
  let iterator := TOctreeIterator.new oc in
  let iterator := snd (TOctreeIterator.setR iterator oc (m_radius sel)) in
  let all :=
    fold_left
      (fun all leaf =>
         fold_left
           (fun all (c : addr * Sample) =>
              if negb (isCovered st (fst c)) then set_insert (fst c) all
              else all)
           (points leaf) all)
      leaves [] in
  let nuncovered := u32 (Z.of_nat (length all)) in
  match dart_loop (S (length all)) rnd iterator oc
          (mkDart all nuncovered st [] draws0) with
  | Some d => Some (mem d, cell_selected_samples d, draws d)
  | None => None
  end.

(** The cells of one bucket, one after the other (the [omp parallel for]
    is compiled only when [OMP] is defined), then the merge of their
    lists in the order of the cells. *)
Fixpoint dart_bucket (rnd : nat -> Z) (sel : t) (oc : TOctree.t)
    (bucket : list ptr) (st : store) (draws0 : nat)
    : option (store * list addr * nat) :=
  match bucket with
  | [] => Some (st, [], draws0)
  | node :: rest =>
      match performDartThrowingSelection_cell rnd sel oc node st draws0 with
      | Some (st1, l1, n1) =>
          match dart_bucket rnd sel oc rest st1 n1 with
          | Some (st2, l2, n2) => Some (st2, l1 ++ l2, n2)
          | None => None
          end
      | None => None
      end
  end.

(** The loop [for (i = 0; i < 8; ++i)] over the buckets. *)
Fixpoint dart_buckets (rnd : nat -> Z) (oc : TOctree.t)
    (node_collection : list (list ptr)) (s : t * store) (draws0 : nat)
    : option (t * store * nat) :=
  match node_collection with
  | [] => Some (s, draws0)
  | bucket :: rest =>
      let '(sel, st) := s in
      match dart_bucket rnd sel oc bucket st draws0 with
      | Some (st1, l1, n1) =>
          let selected := m_selected_samples sel ++ l1 in
          let sel1 :=
            mk (m_radius sel) (m_sqradius sel) (m_sigma sel)
               (u32 (Z.of_nat (length selected))) (m_iterator sel) selected in
          dart_buckets rnd oc rest (sel1, st1) n1
      | None => None
      end
  end.

(** The depth at which [performDartThrowingSelection()] collects the
    cells. *)
Definition dart_depth (sel : t) (oc : TOctree.t) : Z :=
  let d := ((21 # 10) * m_radius sel)%Q in
  double_to_uint
    (inject_Z (TOctree.getDepth oc)
     - inject_Z (floor_log2 (TOctree.getSize oc / ((3 # 2) * d)))).

(** [performDartThrowingSelection()].  [None]: the run met one of the
    undefined behaviours above. *)
Definition performDartThrowingSelection (rnd : nat -> Z) (oc : TOctree.t)
    (s : t * store) : option (t * store) :=
  let root := TOctree.getRoot oc in
  let depth := dart_depth (fst s) oc in
  match TOctree.getNodes_collection depth root [] with
  | Some node_collection =>
      match dart_buckets rnd oc (firstn 8 node_collection) s 0%nat with
      | Some (s', _) => Some s'
      | None => None
      end
  | None => None
  end.

End TSampleSelection.

(** ** Reading the samples ([FileIO.cpp]) and the driver ([main.cpp]) *)

(** [ceil(log2(d))] for a positive [d]: the least integer [e] with
    d <= 2^e.  For d <= 0, where the source converts an infinity or a NaN
    to [unsigned int], the model returns 0. *)
Definition ceil_log2 (d : Q) : Z :=
  if Qltb 1 d then Z.log2_up (Qceiling d)
  else if Qltb 0 d then - Z.log2 (Qfloor (/ d))
  else 0.

Module FileIO.

(** The corners ([xmin], [ymin], [zmin]) and ([xmax], [ymax], [zmax]) of
    the bounding box of the samples read, the first one apart. *)
Definition bounding_box (first : Sample) (rest : list Sample)
    : Point * Point :=
  fold_left
    (fun (box : Point * Point) (s : Sample) =>
       let '(lo, hi) := box in
       let p := pos s in
       (mkPoint (if Qltb (m_x p) (m_x lo) then m_x p else m_x lo)
                (if Qltb (m_y p) (m_y lo) then m_y p else m_y lo)
                (if Qltb (m_z p) (m_z lo) then m_z p else m_z lo),
        mkPoint (if Qltb (m_x hi) (m_x p) then m_x p else m_x hi)
                (if Qltb (m_y hi) (m_y p) then m_y p else m_y hi)
                (if Qltb (m_z hi) (m_z p) then m_z p else m_z hi)))
    rest (pos first, pos first).

(** [readAndSortPoints(filename, octree, min_radius)] and
    [readAndSortOrientedPoints], once the lines of the file have been
    parsed into the samples [first :: rest]. *)
Definition readAndSortPoints (first : Sample) (rest : list Sample)
    (octree : TOctree.t) (min_radius : Q) : TOctree.t :=
  let '(lo, hi) := bounding_box first rest in
  let lx := (m_x hi - m_x lo)%Q in
  let ly := (m_y hi - m_y lo)%Q in
  let lz := (m_z hi - m_z lo)%Q in
  let size := if Qltb ly lx then lx else ly in
  let size := if Qltb lz size then size else lz in
  let size := ((11 # 10) * size)%Q in
  let '(margin, size, octree) :=
    if Qltb 0 min_radius then
      let depth := double_to_uint (inject_Z (ceil_log2 (size / min_radius))) in
      let adapted_size := (inject_Z (pow2 depth) * min_radius)%Q in
      (((1 # 2) * (adapted_size - size))%Q, adapted_size,
       TOctree.setDepth octree depth)
    else (((5 # 100) * size)%Q, size, octree) in
  let origin :=
    mkPoint (m_x lo - margin) (m_y lo - margin) (m_z lo - margin) in
  TOctree.addPoints (TOctree.initialize octree origin size) (first :: rest).

(** The loop over the points of a leaf in [saveContent].  A line of the
    file prints the six numbers of a sample with 8 decimals; the model
    keeps the sample printed.  [ncover] is increased for every sample,
    selected or not. *)
Definition saveContent_leaf (st : TSampleSelection.store)
    (pts : list (addr * Sample)) (out : list Sample * Z) : list Sample * Z :=
  fold_left
    (fun (acc : list Sample * Z) (c : addr * Sample) =>
       ((if TSampleSelection.isSelected st (fst c) then fst acc ++ [snd c]
         else fst acc),
        u32 (snd acc + TSampleSelection.getNCovered st (fst c))))
    pts out.

(** [saveContent(node, f, ncover)]: the lines written to [f] and the value
    of [ncover] on return. *)
Fixpoint saveContent (st : TSampleSelection.store) (node : TOctreeNode.ptr)
    (out : list Sample * Z) : list Sample * Z :=
  match node with
  | TOctreeNode.NULL => out
  | TOctreeNode.Node f ch =>
      if negb (TOctreeNode.m_depth f =? 0) then
        fold_left
          (fun acc i =>
             match ch (i mod 8) with
             | TOctreeNode.NULL => acc
             | TOctreeNode.Node _ _ => saveContent st (ch (i mod 8)) acc
             end)
          eight out
      else if negb (TOctreeNode.m_npts f =? 0) then
        saveContent_leaf st (TOctreeNode.m_points f) out
      else out
  end.

(** [savePoints(filename, octree)] when the file can be opened: the lines
    written and the total [ncovered] of the cover rate. *)
Definition savePoints (octree : TOctree.t) (st : TSampleSelection.store)
    : list Sample * Z :=
  saveContent st (TOctree.getRoot octree) ([], 0).

(** [savePointsOFF(filename, octree, nselected)] when the file can be
    opened: the number of vertices of the header line, then the lines
    written and the total [ncovered]. *)
Definition savePointsOFF (octree : TOctree.t) (st : TSampleSelection.store)
    (nselected : Z) : Z * (list Sample * Z) :=
  (nselected, saveContent st (TOctree.getRoot octree) ([], 0)).

End FileIO.

(** What [main] does with the samples of the input file and the radius of
    the option [-r]: the octree, then the dart-throwing selection. *)
Definition main_selection (rnd : nat -> Z) (radius : Q) (first : Sample)
    (rest : list Sample)
    : TOctree.t * option (TSampleSelection.t * TSampleSelection.store) :=
  let octree :=
    FileIO.readAndSortPoints first rest TOctree.new_default radius in
  let iterator := TOctreeIterator.new octree in
  let iterator :=
    if Qltb 0 radius then snd (TOctreeIterator.setR iterator octree radius)
    else iterator in
  let selection := TSampleSelection.new radius octree iterator in
  (octree,
   TSampleSelection.performDartThrowingSelection rnd octree
     (selection, TSampleSelection.store_of octree)).

(** * Specification *)

(** The notions the properties are stated with: the geometry of the
    cells, the invariants of the octree and of the selection engines. *)

Import TOctreeNode.

(** ** The geometry of the cells *)

(** The child created by [addPoint] below a node of fields [f], for the
    branch bits [x], [y], [z]. *)
Definition fresh_child (f : fields) (x y z : Z) : ptr :=
  let childDepth := u32 (m_depth f - 1) in
  let childSize := (m_size f / 2)%Q in
  Node (mk (Some (u32 (Z.shiftl x 2 + Z.shiftl y 1 + z))) 0
          (mkPoint (m_x (m_origin f) + inject_Z x * childSize)
                   (m_y (m_origin f) + inject_Z y * childSize)
                   (m_z (m_origin f) + inject_Z z * childSize))
          childDepth
          (u32 (m_xloc f + u32 (Z.shiftl x childDepth)))
          (u32 (m_yloc f + u32 (Z.shiftl y childDepth)))
          (u32 (m_zloc f + u32 (Z.shiftl z childDepth)))
          childSize [])
    (fun _ => NULL).

(** The code, at depth [k], of the cell that contains the leaf of code [c]. *)
Definition cell_of (c k : Z) : Z := c / 2 ^ k * 2 ^ k.

Section Geometry.

Variable D : Z.
Variable origin : Point.
Variable size : Q.

(** The side of a leaf, and of a cell of depth [k]. *)
Definition leaf_size : Q := size / inject_Z (2 ^ D).
Definition cell_size (k : Z) : Q := inject_Z (2 ^ k) * leaf_size.

(** The locational code of a coordinate [c] along an axis of origin [o]. *)
Definition code (c o : Q) : Z := Qfloor ((c - o) / size * inject_Z (2 ^ D)).

(** A point of the bounding cube, half-open on the high side. *)
Definition inside (p : Point) : Prop :=
  (m_x origin <= m_x p /\ m_x p < m_x origin + size)%Q
  /\ (m_y origin <= m_y p /\ m_y p < m_y origin + size)%Q
  /\ (m_z origin <= m_z p /\ m_z p < m_z origin + size)%Q.

(** A cell of depth [k] and code [X] along one axis. *)
Definition cell_ok (k X : Z) : Prop :=
  0 <= k <= D /\ 0 <= X /\ X + 2 ^ k <= 2 ^ D /\ X mod 2 ^ k = 0.

(** The sample [p] falls in the leaf of code (X, Y, Z). *)
Definition in_leaf (X Y Z : Z) (p : Point) : Prop :=
  inside p
  /\ code (m_x p) (m_x origin) = X
  /\ code (m_y p) (m_y origin) = Y
  /\ code (m_z p) (m_z origin) = Z.

(** The invariant of the subtree below a pointer [n], expected to be a
    cell of depth [k] and code (X, Y, Z). *)
Fixpoint wf (k X Y Z : Z) (n : ptr) : Prop :=
  match n with
  | NULL => True
  | Node f ch =>
      (m_depth f = k /\ m_xloc f = X /\ m_yloc f = Y /\ m_zloc f = Z)
      /\ (cell_ok k X /\ cell_ok k Y /\ cell_ok k Z)
      /\ (m_size f == cell_size k)%Q
      /\ ((m_x (m_origin f) == m_x origin + inject_Z X * leaf_size)%Q
          /\ (m_y (m_origin f) == m_y origin + inject_Z Y * leaf_size)%Q
          /\ (m_z (m_origin f) == m_z origin + inject_Z Z * leaf_size)%Q)
      /\ m_npts f = Z.of_nat (length (m_points f))
      /\ (0 < k -> m_points f = [])
      /\ (forall c, In c (m_points f) -> in_leaf X Y Z (pos (snd c)))
      /\ (k = 0 -> forall i, ch i = NULL)
      /\ (forall i, 0 <= i < 8 ->
          (ch i <> NULL -> getNChild (ch i) = Some i)
          /\ wf (k - 1)
               (X + (i / 4) mod 2 * 2 ^ (k - 1))
               (Y + (i / 2) mod 2 * 2 ^ (k - 1))
               (Z + i mod 2 * 2 ^ (k - 1))
               (ch i))
  end.

(** The point [p] lies in the cell of depth [k] that contains the leaf of
    code ([tx], [ty], [tz]). *)
Definition in_cell (k tx ty tz : Z) (p : Point) : Prop :=
  cell_of (code (m_x p) (m_x origin)) k = cell_of tx k
  /\ cell_of (code (m_y p) (m_y origin)) k = cell_of ty k
  /\ cell_of (code (m_z p) (m_z origin)) k = cell_of tz k.

End Geometry.

(** ** Well-formed and built octrees *)

(** The bounding cube of an octree. *)
Definition in_cube (oc : TOctree.t) (p : Point) : Prop :=
  inside (TOctree.m_origin oc) (TOctree.m_size oc) p.

(** The invariant of the subtrees with the parameters of an octree. *)
Abbreviation wf_in oc :=
  (wf (TOctree.m_depth oc) (TOctree.m_origin oc) (TOctree.m_size oc)).

(** An octree is well formed when its root is a cell of depth D and code
    (0, 0, 0) that satisfies the invariant of the subtrees, and when the
    cells of its samples have pairwise distinct addresses. *)
Record octree_ok (oc : TOctree.t) : Prop := {
  ok_depth : 0 <= TOctree.m_depth oc <= 31;
  ok_size : (0 < TOctree.m_size oc)%Q;
  ok_binsize : TOctree.m_binsize oc = 2 ^ TOctree.m_depth oc;
  ok_root : TOctree.m_root oc <> NULL;
  ok_wf : wf_in oc (TOctree.m_depth oc) 0 0 0 (TOctree.m_root oc);
  ok_addr :
    Permutation (map fst (all_samples (TOctree.m_root oc)))
      (seq 0 (length (all_samples (TOctree.m_root oc))))
}.

(** The cells of the samples a batch inserts: the k-th sample of the batch
    goes to the cell of address [n + k], where [n] cells existed before. *)
Definition cells_from (n : nat) (pts : list Sample) : list (addr * Sample) :=
  combine (seq n (length pts)) pts.

(** The octree of depth [D] built over the cube of origin [origin] and
    side [size] from the samples [pts]. *)
Definition built (D : Z) (origin : Point) (size : Q) (pts : list Sample)
    : TOctree.t :=
  TOctree.addPoints (TOctree.initialize (TOctree.new_depth D) origin size) pts.

(** The hypotheses under which an octree is built: a depth that fits the
    32-bit codes, a cube that contains the samples, fewer than 2^32
    samples. *)
Record build_ok (D : Z) (origin : Point) (size : Q) (pts : list Sample)
    : Prop := {
  bo_depth : 0 <= D <= 31;
  bo_size : (0 < size)%Q;
  bo_inside : Forall (fun pt => inside origin size (pos pt)) pts;
  bo_count : Z.of_nat (length pts) < 2 ^ 32
}.

(** ** Neighbour queries *)

(** The test of [explore] on a cell of a leaf. *)
Definition near (it : TOctreeIterator.t) (q : Point) (c : addr * Sample)
    : bool :=
  Qltb (dist2 q (pos (snd c))) (TOctreeIterator.m_sqradius it).

(** The nodes the three nested loops visit, in order. *)
Definition candidates (oc : TOctree.t) (xloc yloc zloc : list Z) (k : Z)
    : list ptr :=
  flat_map (fun xi =>
    flat_map (fun yi =>
      flat_map (fun zi =>
        let node :=
          TOctreeIterator.traverseToLevel (TOctree.getRoot oc) xi yi zi k in
        if negb (TOctreeIterator.is_null node) && (getDepth node =? k)
        then [node] else [])
      zloc)
    yloc)
  xloc.

(** The query node [qn] is the cell of depth [sq] that contains the query
    point [q]. *)
Definition cell_of_query (oc : TOctree.t) (q : Point) (qn : ptr) : Prop :=
  qn <> NULL
  /\ wf_in oc (getDepth qn)
       (cell_of (code (TOctree.m_depth oc) (TOctree.m_size oc) (m_x q)
                   (m_x (TOctree.m_origin oc))) (getDepth qn))
       (cell_of (code (TOctree.m_depth oc) (TOctree.m_size oc) (m_y q)
                   (m_y (TOctree.m_origin oc))) (getDepth qn))
       (cell_of (code (TOctree.m_depth oc) (TOctree.m_size oc) (m_z q)
                   (m_z (TOctree.m_origin oc))) (getDepth qn))
       qn.

(** The sample of address [a] has a squared distance to [q] strictly below
    the squared radius of the iterator. *)
Definition strictly_within (pts : list Sample) (it : TOctreeIterator.t)
    (q : Point) (a : addr) : Prop :=
  exists u, nth_error pts a = Some u
            /\ (dist2 q (pos u) < TOctreeIterator.m_sqradius it)%Q.

(** ** Nodes, levels and buckets *)

(** The nodes below a pointer, the node it points to first. *)
Fixpoint nodes (n : ptr) : list ptr :=
  match n with
  | NULL => []
  | Node f ch => n :: flat_map (fun i => nodes (ch i)) eight
  end.


(** The locational code of a node. *)
Definition loc3 (n : ptr) : Z * Z * Z := (getXLoc n, getYLoc n, getZLoc n).

(** Bit [k] of a code. *)
Definition bit (k c : Z) : Z := (c / 2 ^ k) mod 2.

(** The child index the codes of a cell of depth [k] designate. *)
Definition parity_index (k : Z) (n : ptr) : Z :=
  4 * bit k (getXLoc n) + 2 * bit k (getYLoc n) + bit k (getZLoc n).

(** What the invariant says of a node of depth [k] found below a cell of
    depth [j] and code (X, Y, Zc). *)
Definition level_node (k j X Y Zc : Z) (m : ptr) : Prop :=
  getDepth m = k
  /\ (getXLoc m mod 2 ^ k = 0 /\ getYLoc m mod 2 ^ k = 0
      /\ getZLoc m mod 2 ^ k = 0)
  /\ (cell_of (getXLoc m) j = X /\ cell_of (getYLoc m) j = Y
      /\ cell_of (getZLoc m) j = Zc)
  /\ (k < j -> getNChild m = Some (parity_index k m)).

(** The node goes to bucket [b]. *)
Definition has_nchild (b : nat) (n : ptr) : bool :=
  match getNChild n with
  | Some c => c =? Z.of_nat b
  | None => false
  end.

(** The node one iteration of the innermost loop visits, if any. *)
Definition candidate (oc : TOctree.t) (k xi yi zi : Z) : list ptr :=
  let node := TOctreeIterator.traverseToLevel (TOctree.getRoot oc) xi yi zi k in
  if negb (TOctreeIterator.is_null node) && (getDepth node =? k)
  then [node] else [].

(** The list of stored addresses a query designates: each address once,
    and exactly those of the stored samples that pass the test. *)
Definition neighbors_exact (oc : TOctree.t) (it : TOctreeIterator.t)
    (q : Point) (l : list addr) : Prop :=
  List.NoDup l
  /\ forall a, In a l <->
       exists s, In (a, s) (all_samples (TOctree.m_root oc))
                 /\ near it q (a, s) = true.

(** ** The selection engines *)

(** What the loop over the neighbours does to the flags of one of them. *)
Definition covered_flags (f : Flags) : Flags :=
  mkFlags false true (u32 (m_ncovered f + 1)).

(** The test of [explore] between two samples, for a squared radius. *)
Definition close (sq : Q) (s1 s2 : Sample) : bool :=
  Qltb (dist2 (pos s1) (pos s2)) sq.

(** A sample an engine has selected: it is covered as well, for it is one
    of its own neighbours. *)
Definition center (st : TSampleSelection.store) (a : addr) : Prop :=
  TSampleSelection.isSelected st a = true
  /\ TSampleSelection.isCovered st a = true.

(** The same, as a test on a stored cell. *)
Definition is_center (st : TSampleSelection.store) (c : addr * Sample)
    : bool :=
  TSampleSelection.isSelected st (fst c)
  && TSampleSelection.isCovered st (fst c).

(** The number of stored samples an engine has selected. *)
Definition centers_count (stored : list (addr * Sample))
    (st : TSampleSelection.store) : Z :=
  Z.of_nat (length (List.filter (is_center st) stored)).

(** The selected samples are pairwise at least a radius apart, the
    samples within the radius of one of them are covered, and a covered
    sample has been covered once at least and at most once per selected
    sample. *)
Record sel_inv (stored : list (addr * Sample)) (sq : Q)
    (st : TSampleSelection.store) : Prop := {
  inv_dom : forall a s, In (a, s) stored -> is_Some (st !! a);
  inv_far : forall a b sa sb,
      In (a, sa) stored -> In (b, sb) stored -> a <> b ->
      center st a -> center st b -> close sq sa sb = false;
  inv_cov : forall b sb a sa,
      In (b, sb) stored -> In (a, sa) stored ->
      center st b -> close sq sb sa = true ->
      TSampleSelection.isCovered st a = true;
  inv_ncov : forall a,
      TSampleSelection.isCovered st a = true ->
      1 <= TSampleSelection.getNCovered st a;
  inv_bound : forall a,
      0 <= TSampleSelection.getNCovered st a <= centers_count stored st
}.

(** The list of neighbours of the sample [s]: each address once, and
    exactly those of the stored samples that pass the test. *)
Definition nb_ok (stored : list (addr * Sample)) (sq : Q) (s : Sample)
    (nb : list addr) : Prop :=
  List.NoDup nb
  /\ forall x, In x nb <-> exists sx, In (x, sx) stored /\ close sq s sx = true.

(** The flags once the sample [a] has been selected with the neighbours
    [nb]: the loop over the neighbours, then [s.setSelected(true)]. *)
Definition select_store (nb : list addr) (st : TSampleSelection.store)
    (a : addr) : TSampleSelection.store :=
  TSampleSelection.setSelected (TSampleSelection.cover nb st) a true.

(** The state of the greedy engine once the samples [vis] have been
    visited: a visited sample that is selected is covered. *)
Definition greedy_inv (oc : TOctree.t) (it : TOctreeIterator.t)
    (vis : list (addr * Sample))
    (s : TSampleSelection.t * TSampleSelection.store) : Prop :=
  TSampleSelection.m_iterator (fst s) = it
  /\ sel_inv (all_samples (TOctree.m_root oc)) (TOctreeIterator.m_sqradius it)
       (snd s)
  /\ forall c, In c vis ->
       TSampleSelection.isSelected (snd s) (fst c) = true ->
       TSampleSelection.isCovered (snd s) (fst c) = true.

(** What the engines need of the iterator: a positive radius, its square,
    and cells of the active depth wider than the radius. *)
Definition iterator_ok (oc : TOctree.t) (it : TOctreeIterator.t) : Prop :=
  (0 < TOctreeIterator.m_radius it)%Q
  /\ (TOctreeIterator.m_sqradius it
      == TOctreeIterator.m_radius it * TOctreeIterator.m_radius it)%Q
  /\ 0 <= TOctreeIterator.m_activeDepth it
  /\ forall k,
       Z.min (TOctreeIterator.m_activeDepth it) (TOctree.m_depth oc) <= k
       <= TOctree.m_depth oc ->
       (TOctreeIterator.m_radius it
        < cell_size (TOctree.m_depth oc) (TOctree.m_size oc) k)%Q.

(** A cell the engine can process: it satisfies the invariant, and its
    samples are stored samples with pairwise distinct addresses. *)
Definition good_cell (oc : TOctree.t) (n : ptr) : Prop :=
  (exists k X Y Zc, wf_in oc k X Y Zc n)
  /\ incl (all_samples n) (all_samples (TOctree.m_root oc))
  /\ List.NoDup (map fst (all_samples n)).

(** The state of the greedy engine on an octree of fewer than three
    samples: no sample is covered, and the visited ones are not
    selected. *)
Definition sparse_inv (oc : TOctree.t) (it : TOctreeIterator.t)
    (vis : list (addr * Sample))
    (s : TSampleSelection.t * TSampleSelection.store) : Prop :=
  TSampleSelection.m_iterator (fst s) = it
  /\ (forall c, In c (all_samples (TOctree.m_root oc)) ->
        exists b, snd s !! fst c = Some (mkFlags b false 0))
  /\ (forall c, In c vis ->
        snd s !! fst c = Some (mkFlags false false 0)).

(** ** The other queries of the iterator *)

(** The cells of the stored samples that pass the test of a query, in the
    order in which the query meets them. *)
Definition visited_neighbors (it : TOctreeIterator.t) (oc : TOctree.t)
    (q : Point) (qn : ptr) : list (addr * Sample) :=
  flat_map (fun n => List.filter (near it q) (all_samples n))
    (TOctreeIterator.explored_nodes it oc q qn).

(** The keys of a map increase strictly. *)
Definition keys_increasing (m : list (Q * addr)) : Prop :=
  StronglySorted (fun e1 e2 : Q * addr => (fst e1 < fst e2)%Q) m.

(** The test of the queries on a sample: its squared distance to [q] is
    strictly below [sq]. *)
Definition within (q : Point) (sq : Q) (s : Sample) : bool :=
  Qltb (dist2 q (pos s)) sq.

(** * Properties *)

(** ** Arithmetic of the embedding *)

Lemma u32_small (z : Z) : 0 <= z < 2 ^ 32 -> u32 z = z.
Proof. intros H. unfold u32. now apply Z.mod_small. Qed.

Lemma pow2_pos (n : Z) : 0 <= n -> 0 < 2 ^ n.
Proof. intros H. apply Z.pow_pos_nonneg; lia. Qed.

Lemma pow2_le_mono (a b : Z) : 0 <= a <= b -> 2 ^ a <= 2 ^ b.
Proof. intros H. apply Z.pow_le_mono_r; lia. Qed.

Lemma pow2_lt_32 (n : Z) : 0 <= n <= 31 -> 0 < 2 ^ n < 2 ^ 32.
Proof.
  intros H. split; [apply pow2_pos; lia|].
  apply Z.pow_lt_mono_r; lia.
Qed.

Lemma pow2_split (k : Z) : 0 < k -> 2 ^ k = 2 * 2 ^ (k - 1).
Proof.
  intros H. replace k with (Z.succ (k - 1)) at 1 by lia.
  rewrite Z.pow_succ_r by lia. reflexivity.
Qed.

(** The expression [(c & (1 << l)) >> l] of the source is bit [l] of [c]. *)
Lemma branch_bit (c l : Z) :
  0 <= l <= 31 ->
  Z.shiftr (Z.land c (u32 (Z.shiftl 1 l))) l = (c / 2 ^ l) mod 2.
Proof.
  intros Hl.
  rewrite Z.shiftl_1_l, u32_small by (pose proof (pow2_lt_32 l); lia).
  rewrite <- Z.testbit_spec' by lia.
  apply Z.bits_inj'. intros n Hn.
  rewrite Z.shiftr_spec, Z.land_spec by lia.
  destruct (Z.eq_dec n 0) as [->|Hn0].
  - rewrite Z.add_0_l, Z.pow2_bits_true, andb_true_r, Z.b2z_bit0 by lia.
    reflexivity.
  - rewrite Z.pow2_bits_false, andb_false_r by lia.
    destruct (Z.testbit c l); simpl; [|now rewrite Z.testbit_0_l].
    symmetry. apply (Z.pow2_bits_false 0 n). lia.
Qed.

Lemma bit_range (c l : Z) : 0 <= (c / 2 ^ l) mod 2 < 2.
Proof. apply Z.mod_pos_bound. lia. Qed.

(** The child index [(x << 2) + (y << 1) + z] built from three bits. *)
Lemma child_index (x y z : Z) :
  0 <= x < 2 -> 0 <= y < 2 -> 0 <= z < 2 ->
  u32 (Z.shiftl x 2 + Z.shiftl y 1 + z) = 4 * x + 2 * y + z.
Proof.
  intros Hx Hy Hz. rewrite !Z.shiftl_mul_pow2 by lia.
  rewrite u32_small; change (2 ^ 2) with 4; change (2 ^ 1) with 2;
    change (2 ^ 32) with 4294967296; lia.
Qed.

Lemma in_eight (i : Z) : In i eight <-> 0 <= i < 8.
Proof.
  unfold eight. simpl. split; [intuition lia|].
  intros H.
  assert (i = 0 \/ i = 1 \/ i = 2 \/ i = 3 \/ i = 4 \/ i = 5 \/ i = 6 \/ i = 7)
    by lia.
  intuition auto.
Qed.

Lemma Qltb_lt (a b : Q) : Qltb a b = true <-> (a < b)%Q.
Proof.
  unfold Qltb. rewrite negb_true_iff.
  split; intros H.
  - apply Qnot_le_lt. intros Hle. apply Qle_bool_iff in Hle. congruence.
  - destruct (Qle_bool b a) eqn:E; [|reflexivity].
    apply Qle_bool_iff in E. apply Qle_not_lt in E. contradiction.
Qed.

Lemma Qltb_ge (a b : Q) : Qltb a b = false <-> (b <= a)%Q.
Proof.
  unfold Qltb. rewrite negb_false_iff. apply Qle_bool_iff.
Qed.

(** On its domain the conversion to [unsigned int] is the floor. *)
Lemma double_to_uint_floor (d : Q) (c : Z) :
  0 <= c < 2 ^ 32 -> (inject_Z c <= d)%Q -> (d < inject_Z (c + 1))%Q ->
  double_to_uint d = c.
Proof.
  intros Hc Hlo Hhi. unfold double_to_uint.
  assert (Hd : Qle_bool 0 d = true).
  { apply Qle_bool_iff. apply Qle_trans with (inject_Z c); [|exact Hlo].
    change 0%Q with (inject_Z 0). rewrite <- Zle_Qle. lia. }
  rewrite Hd.
  assert (Qfloor d = c).
  { pose proof (Qfloor_le d) as H1. pose proof (Qlt_floor d) as H2.
    assert (inject_Z c < inject_Z (Qfloor d + 1))%Q
      by (eapply Qle_lt_trans; eauto).
    assert (inject_Z (Qfloor d) < inject_Z (c + 1))%Q
      by (eapply Qle_lt_trans; eauto).
    rewrite <- Zlt_Qlt in *. lia. }
  subst c. now apply u32_small.
Qed.

(** ** The invariant of the subtrees *)


(** *** One step of the insertion loop *)


Lemma addPoint_loop_leaf fuel f ch l cx cy cz a pt :
  m_depth f = 0 ->
  TOctree.addPoint_loop fuel (Node f ch) l cx cy cz a pt
  = TOctreeNode.addPoint (Node f ch) a pt.
Proof.
  intros H. destruct fuel; simpl; rewrite H; reflexivity.
Qed.

Lemma addPoint_loop_step fuel f ch l cx cy cz a pt :
  m_depth f <> 0 ->
  let bit := u32 (Z.shiftl 1 l) in
  let x := Z.shiftr (Z.land cx bit) l in
  let y := Z.shiftr (Z.land cy bit) l in
  let z := Z.shiftr (Z.land cz bit) l in
  let ci := u32 (Z.shiftl x 2 + Z.shiftl y 1 + z) in
  0 <= ci < 8 ->
  exists ch',
    TOctree.addPoint_loop (S fuel) (Node f ch) l cx cy cz a pt = Node f ch'
    /\ (forall j, j <> ci -> ch' j = ch j)
    /\ ch' ci =
       TOctree.addPoint_loop fuel
         (match ch ci with NULL => fresh_child f x y z | Node _ _ => ch ci end)
         (u32 (l - 1)) cx cy cz a pt.
Proof.
  intros Hd bit x y z ci Hci.
  assert (Hm : ci mod 8 = ci) by (apply Z.mod_small; lia).
  simpl. destruct (Z.eqb_spec (m_depth f) 0) as [|_]; [contradiction|].
  fold bit. fold x. fold y. fold z. fold ci. rewrite Hm.
  destruct (ch ci) eqn:E.
  - eexists. split; [reflexivity|]. cbv beta. split.
    + intros j Hj. rewrite Hm.
      destruct (Z.eqb_spec j ci); [contradiction|]. reflexivity.
    + rewrite Hm, !Z.eqb_refl. cbn [getChild]. rewrite Hm, !Z.eqb_refl.
      reflexivity.
  - eexists. split; [unfold onChild; simpl; rewrite Hm; reflexivity|].
    cbv beta. split.
    + intros j Hj. destruct (Z.eqb_spec j ci); [contradiction|]. reflexivity.
    + rewrite Z.eqb_refl, E. reflexivity.
Qed.

Lemma NoDup_eight : List.NoDup eight.
Proof.
  unfold eight. repeat constructor; simpl; intuition lia.
Qed.

Lemma flat_map_update {A : Type} (g g' : Z -> list A) (ci : Z) (extra : list A) :
  (forall j, j <> ci -> g' j = g j) ->
  Permutation (g' ci) (g ci ++ extra) ->
  forall l, List.NoDup l -> In ci l ->
  Permutation (flat_map g' l) (flat_map g l ++ extra).
Proof.
  intros Hother Hci. induction l as [|j l IH]; intros Hnd Hin; [destruct Hin|].
  inversion Hnd as [|? ? Hnotin Hnd']; subst. simpl.
  destruct (Z.eq_dec j ci) as [->|Hne].
  - assert (Hsame : flat_map g' l = flat_map g l).
    { clear IH Hin Hnd Hnd'. induction l as [|i l IH]; [reflexivity|].
      simpl. rewrite Hother, IH; [reflexivity| |]; simpl in Hnotin; tauto. }
    rewrite Hsame, Hci, <- !app_assoc.
    apply Permutation_app_head, Permutation_app_comm.
  - destruct Hin as [|Hin]; [contradiction|].
    rewrite Hother by exact Hne. rewrite <- app_assoc.
    apply Permutation_app_head, IH; assumption.
Qed.


Lemma cell_of_0 (c : Z) : cell_of c 0 = c.
Proof. unfold cell_of. rewrite Z.pow_0_r, Z.div_1_r. lia. Qed.


Lemma cell_of_child (c k : Z) :
  0 < k ->
  cell_of c (k - 1) = cell_of c k + (c / 2 ^ (k - 1)) mod 2 * 2 ^ (k - 1).
Proof.
  intros Hk. unfold cell_of.
  pose proof (pow2_pos (k - 1) ltac:(lia)) as Hp.
  rewrite (pow2_split k Hk), (Z.mul_comm 2), <- Z.div_div by lia.
  pose proof (Z.div_mod (c / 2 ^ (k - 1)) 2 ltac:(lia)). nia.
Qed.


Lemma child_index_bits (x y z : Z) :
  0 <= x < 2 -> 0 <= y < 2 -> 0 <= z < 2 ->
  let ci := 4 * x + 2 * y + z in
  0 <= ci < 8 /\ (ci / 4) mod 2 = x /\ (ci / 2) mod 2 = y /\ ci mod 2 = z.
Proof.
  intros Hx Hy Hz.
  assert (Ex : x = 0 \/ x = 1) by lia.
  assert (Ey : y = 0 \/ y = 1) by lia.
  assert (Ez : z = 0 \/ z = 1) by lia.
  destruct Ex as [-> | ->], Ey as [-> | ->], Ez as [-> | ->];
    cbv; intuition congruence.
Qed.


Lemma all_samples_child_length f ch i :
  0 <= i < 8 ->
  (length (all_samples (ch i)) <= length (all_samples (Node f ch)))%nat.
Proof.
  intros Hi.
  change (all_samples (Node f ch))
    with (m_points f ++ flat_map (fun i => all_samples (ch i)) eight).
  rewrite length_app. apply in_eight in Hi.
  assert (forall l : list Z, In i l ->
            (length (all_samples (ch i))
             <= length (flat_map (fun i => all_samples (ch i)) l))%nat).
  { induction l as [|j l IH]; simpl; [tauto|].
    intros [->|Hin]; rewrite length_app; [lia|]. specialize (IH Hin). lia. }
  specialize (H _ Hi). lia.
Qed.


Lemma addPoint_loop_not_null fuel n l cx cy cz a pt :
  n <> NULL -> TOctree.addPoint_loop fuel n l cx cy cz a pt <> NULL.
Proof.
  destruct n as [|f ch]; [congruence|]. intros _.
  destruct fuel; simpl; destruct (m_depth f =? 0); simpl; try congruence.
  destruct (ch _); simpl; congruence.
Qed.


Lemma addPoint_loop_nchild fuel n l cx cy cz a pt :
  getNChild (TOctree.addPoint_loop fuel n l cx cy cz a pt) = getNChild n.
Proof.
  destruct n as [|f ch].
  - destruct fuel; reflexivity.
  - destruct fuel; simpl; destruct (m_depth f =? 0); simpl; try reflexivity.
    destruct (ch _); simpl; reflexivity.
Qed.


Lemma points_length_le f ch :
  (length (m_points f) <= length (all_samples (Node f ch)))%nat.
Proof. simpl. rewrite length_app. lia. Qed.


Section GeometryFacts.

Variable D : Z.
Variable origin : Point.
Variable size : Q.

Local Abbreviation leaf_size := (leaf_size D size).
Local Abbreviation cell_size := (cell_size D size).
Local Abbreviation code := (code D size).
Local Abbreviation inside := (inside origin size).
Local Abbreviation cell_ok := (cell_ok D).
Local Abbreviation in_leaf := (in_leaf D origin size).
Local Abbreviation wf := (wf D origin size).

Hypothesis D_range : 0 <= D <= 31.
Hypothesis size_pos : (0 < size)%Q.

Lemma pow2D_pos : (0 < inject_Z (2 ^ D))%Q.
Proof.
  change 0%Q with (inject_Z 0). rewrite <- Zlt_Qlt. apply pow2_pos. lia.
Qed.

Lemma leaf_size_pos : (0 < leaf_size)%Q.
Proof.
  unfold leaf_size. apply Qlt_shift_div_l; [apply pow2D_pos|lra].
Qed.

Lemma cell_size_half (k : Z) :
  0 < k -> (cell_size k / 2 == cell_size (k - 1))%Q.
Proof.
  intros Hk. unfold cell_size. rewrite (pow2_split k Hk), inject_Z_mult.
  field.
Qed.

Lemma cell_size_root : (cell_size D == size)%Q.
Proof.
  unfold cell_size, leaf_size. field.
  pose proof pow2D_pos. lra.
Qed.

(** The code of a coordinate of the cube is the index of its leaf. *)
Lemma code_bounds (c o : Q) :
  (o <= c)%Q -> (c < o + size)%Q ->
  0 <= code c o < 2 ^ D
  /\ (o + inject_Z (code c o) * leaf_size <= c)%Q
  /\ (c < o + inject_Z (code c o + 1) * leaf_size)%Q.
Proof.
  intros Hlo Hhi. unfold code.
  set (t := ((c - o) / size * inject_Z (2 ^ D))%Q).
  pose proof pow2D_pos as HD. pose proof leaf_size_pos as HL.
  assert (Ht : (c - o == t * leaf_size)%Q).
  { unfold t, leaf_size. field. split; lra. }
  pose proof (Qfloor_le t) as H1. pose proof (Qlt_floor t) as H2.
  assert (Ht0 : (0 <= t)%Q).
  { unfold t. apply Qmult_le_0_compat; [|lra].
    apply Qle_shift_div_l; lra. }
  assert (Ht1 : (t < inject_Z (2 ^ D))%Q).
  { assert ((c - o) / size * inject_Z (2 ^ D) < 1 * inject_Z (2 ^ D))%Q.
    { apply Qmult_lt_compat_r; [exact HD|]. apply Qlt_shift_div_r; lra. }
    unfold t. lra. }
  split; [|split].
  - split.
    + change 0 with (Qfloor 0). now apply Qfloor_resp_le.
    + rewrite Zlt_Qlt. eapply Qle_lt_trans; eauto.
  - assert (inject_Z (Qfloor t) * leaf_size <= t * leaf_size)%Q
      by (apply Qmult_le_compat_r; lra).
    lra.
  - assert (t * leaf_size < inject_Z (Qfloor t + 1) * leaf_size)%Q
      by (apply Qmult_lt_compat_r; lra).
    lra.
Qed.


Lemma cell_of_ok (c k : Z) :
  0 <= c < 2 ^ D -> 0 <= k <= D -> cell_ok k (cell_of c k).
Proof.
  intros Hc Hk. unfold cell_ok, cell_of.
  pose proof (pow2_pos k ltac:(lia)) as Hp.
  assert (HD : 2 ^ D = 2 ^ (D - k) * 2 ^ k)
    by (rewrite <- Z.pow_add_r by lia; f_equal; lia).
  assert (0 <= c / 2 ^ k) by (apply Z.div_pos; lia).
  assert (c / 2 ^ k < 2 ^ (D - k))
    by (apply Z.div_lt_upper_bound; lia).
  repeat split; try lia; try nia.
  apply Z.mod_mul. lia.
Qed.

Lemma wf_leaf_addPoint X Y Z f ch a pt :
  wf 0 X Y Z (Node f ch) ->
  in_leaf X Y Z (pos pt) ->
  Z.of_nat (length (m_points f)) < 2 ^ 32 - 1 ->
  wf 0 X Y Z (TOctreeNode.addPoint (Node f ch) a pt).
Proof.
  intros (Hf & Hok & Hsz & Ho & Hnp & Hpts & Hleaf & Hch0 & Hch) Hpt Hlen.
  simpl. split; [exact Hf|]. split; [exact Hok|]. split; [exact Hsz|].
  split; [exact Ho|].
  split. { rewrite length_app, Hnp. simpl. rewrite u32_small; lia. }
  split. { lia. }
  split.
  { intros c Hc. apply in_app_or in Hc.
    destruct Hc as [Hc|[<-|[]]]; [now apply Hleaf|exact Hpt]. }
  split; [exact Hch0|exact Hch].
Qed.

(** The child created below a cell of depth [k] on the path of the leaf
    of code ([cx], [cy], [cz]) is the cell of depth [k - 1] on that path. *)
Lemma wf_fresh_child f ch k cx cy cz :
  0 <= cx < 2 ^ D -> 0 <= cy < 2 ^ D -> 0 <= cz < 2 ^ D ->
  0 < k ->
  wf k (cell_of cx k) (cell_of cy k) (cell_of cz k) (Node f ch) ->
  wf (k - 1) (cell_of cx (k - 1)) (cell_of cy (k - 1)) (cell_of cz (k - 1))
    (fresh_child f ((cx / 2 ^ (k - 1)) mod 2) ((cy / 2 ^ (k - 1)) mod 2)
       ((cz / 2 ^ (k - 1)) mod 2)).
Proof.
  intros Bx By Bz Hk0
    ((Hd & HX & HY & HZ) & Hok & Hsz & Ho & Hnp & Hpts & Hleaf & Hch0 & Hch).
  assert (Hk : 0 < k <= D) by (destruct Hok as ((? & _) & _); lia).
  pose proof (bit_range cx (k - 1)) as Rx.
  pose proof (bit_range cy (k - 1)) as Ry.
  pose proof (bit_range cz (k - 1)) as Rz.
  pose proof (cell_of_ok cx (k - 1) Bx ltac:(lia)) as Okx.
  pose proof (cell_of_ok cy (k - 1) By ltac:(lia)) as Oky.
  pose proof (cell_of_ok cz (k - 1) Bz ltac:(lia)) as Okz.
  pose proof (pow2_lt_32 D D_range) as HD32.
  pose proof (pow2_pos (k - 1) ltac:(lia)) as Hp.
  assert (Hsh : forall b, 0 <= b < 2 ->
            u32 (Z.shiftl b (u32 (m_depth f - 1))) = b * 2 ^ (k - 1)).
  { intros b Hb. rewrite Hd, (u32_small (k - 1)) by lia.
    rewrite Z.shiftl_mul_pow2 by lia.
    apply u32_small.
    pose proof (pow2_le_mono (k - 1) D ltac:(lia)). nia. }
  unfold fresh_child. cbn [wf m_depth m_xloc m_yloc m_zloc m_size m_origin
                           m_npts m_points m_x m_y m_z].
  rewrite !Hsh by assumption.
  rewrite HX, HY, HZ, <- !cell_of_child by lia.
  assert (Hb : forall c, 0 <= c < 2 ^ D -> 0 <= cell_of c (k - 1) < 2 ^ 32).
  { intros c Hc. destruct (cell_of_ok c (k - 1) Hc ltac:(lia)) as (_ & ? & ? & _).
    lia. }
  rewrite !(u32_small (cell_of _ _)) by (apply Hb; assumption).
  rewrite Hd, u32_small by lia.
  split; [repeat split|].
  split; [tauto|].
  split; [rewrite Hsz; now apply cell_size_half|].
  split.
  { destruct Ho as (Hox & Hoy & Hoz).
    rewrite Hox, Hoy, Hoz, Hsz.
    rewrite (cell_of_child cx k), (cell_of_child cy k), (cell_of_child cz k)
      by lia.
    rewrite !inject_Z_plus, !inject_Z_mult.
    rewrite (cell_size_half k) by lia. unfold cell_size.
    repeat split; ring. }
  split; [reflexivity|].
  split; [reflexivity|].
  split; [intros c []|].
  split; [reflexivity|].
  intros i Hi. split; [congruence|exact I].
Qed.

(** The insertion loop maintains the invariant of the subtree it
    descends. *)
Lemma addPoint_loop_wf (a : addr) (pt : Sample) (cx cy cz : Z) :
  inside (pos pt) ->
  cx = code (m_x (pos pt)) (m_x origin) ->
  cy = code (m_y (pos pt)) (m_y origin) ->
  cz = code (m_z (pos pt)) (m_z origin) ->
  forall fuel n k l,
    n <> NULL ->
    wf k (cell_of cx k) (cell_of cy k) (cell_of cz k) n ->
    (Z.to_nat k <= fuel)%nat ->
    (0 < k -> l = k - 1) ->
    Z.of_nat (length (all_samples n)) < 2 ^ 32 - 1 ->
    wf k (cell_of cx k) (cell_of cy k) (cell_of cz k)
      (TOctree.addPoint_loop fuel n l cx cy cz a pt).
Proof.
  intros Hin Hcx Hcy Hcz.
  assert (Bx : 0 <= cx < 2 ^ D)
    by (subst cx; apply code_bounds; apply Hin).
  assert (By : 0 <= cy < 2 ^ D)
    by (subst cy; apply code_bounds; apply Hin).
  assert (Bz : 0 <= cz < 2 ^ D)
    by (subst cz; apply code_bounds; apply Hin).
  assert (Hleaf0 : forall f ch,
            wf 0 (cell_of cx 0) (cell_of cy 0) (cell_of cz 0) (Node f ch) ->
            Z.of_nat (length (all_samples (Node f ch))) < 2 ^ 32 - 1 ->
            wf 0 (cell_of cx 0) (cell_of cy 0) (cell_of cz 0)
              (TOctreeNode.addPoint (Node f ch) a pt)).
  { intros f ch Hwf Hlen. apply wf_leaf_addPoint; [exact Hwf| |].
    - rewrite !cell_of_0. repeat split; try apply Hin; congruence.
    - pose proof (points_length_le f ch). lia. }
  induction fuel as [|fuel IH]; intros n k l Hn Hwf Hfuel Hl Hlen;
    destruct n as [|f ch]; try congruence.
  - (* no fuel: the node is a leaf *)
    assert (Hk : k = 0).
    { destruct Hwf as (_ & (((? & _) & _) & _) & _). lia. }
    subst k. rewrite addPoint_loop_leaf by apply Hwf. now apply Hleaf0.
  - destruct (Z.eq_dec k 0) as [->|Hk0].
    { rewrite addPoint_loop_leaf by apply Hwf. now apply Hleaf0. }
    pose proof Hwf as Hwf0.
    destruct Hwf as ((Hd & HX & HY & HZ) & Hok & Hsz & Ho & Hnp & Hpts & Hleaf
                     & Hch0 & Hch).
    assert (Hk : 0 < k <= D) by (destruct Hok as ((? & _) & _); lia).
    specialize (Hl ltac:(lia)). subst l.
    pose proof (addPoint_loop_step fuel f ch (k - 1) cx cy cz a pt
                  ltac:(lia)) as Hstep.
    cbv zeta in Hstep.
    rewrite !branch_bit in Hstep by lia.
    pose proof (bit_range cx (k - 1)) as Rx.
    pose proof (bit_range cy (k - 1)) as Ry.
    pose proof (bit_range cz (k - 1)) as Rz.
    rewrite child_index in Hstep by assumption.
    destruct (child_index_bits _ _ _ Rx Ry Rz) as (Hci & Ex & Ey & Ez).
    cbv zeta in Hci, Ex, Ey, Ez.
    set (ci := 4 * ((cx / 2 ^ (k - 1)) mod 2)
               + 2 * ((cy / 2 ^ (k - 1)) mod 2)
               + (cz / 2 ^ (k - 1)) mod 2) in *.
    destruct (Hstep Hci) as (ch' & -> & Hother & Hci').
    cbn [wf].
    split; [tauto|]. split; [exact Hok|]. split; [exact Hsz|].
    split; [exact Ho|]. split; [exact Hnp|]. split; [exact Hpts|].
    split; [exact Hleaf|]. split; [intros; lia|].
    intros i Hi.
    destruct (Z.eq_dec i ci) as [->|Hne];
      [|rewrite Hother by exact Hne; now apply Hch].
    rewrite Hci'. split.
    + intros _. rewrite addPoint_loop_nchild.
      destruct (ch ci) eqn:E.
      * simpl. rewrite child_index by assumption. reflexivity.
      * rewrite <- E. apply Hch; [exact Hci|congruence].
    + rewrite Ex, Ey, Ez, <- !cell_of_child by lia.
      apply IH.
      * destruct (ch ci); unfold fresh_child; congruence.
      * destruct (ch ci) eqn:E.
        -- now apply wf_fresh_child with (ch := ch).
        -- rewrite <- E.
           rewrite !cell_of_child, <- Ex, <- Ey, <- Ez by lia.
           apply Hch. exact Hci.
      * lia.
      * intros ?. rewrite u32_small; lia.
      * destruct (ch ci) eqn:E; [simpl; lia|].
        rewrite <- E.
        pose proof (all_samples_child_length f ch ci Hci). lia.
Qed.

(** The insertion adds exactly the new cell to those below the node. *)
Lemma addPoint_loop_samples (a : addr) (pt : Sample) (cx cy cz : Z) :
  0 <= cx < 2 ^ D -> 0 <= cy < 2 ^ D -> 0 <= cz < 2 ^ D ->
  forall fuel n k l,
    n <> NULL ->
    wf k (cell_of cx k) (cell_of cy k) (cell_of cz k) n ->
    (Z.to_nat k <= fuel)%nat ->
    (0 < k -> l = k - 1) ->
    Permutation (all_samples (TOctree.addPoint_loop fuel n l cx cy cz a pt))
      (all_samples n ++ [(a, pt)]).
Proof.
  intros Bx By Bz.
  assert (Hleaf0 : forall f ch,
            Permutation (all_samples (TOctreeNode.addPoint (Node f ch) a pt))
              (all_samples (Node f ch) ++ [(a, pt)])).
  { intros f ch. cbn [TOctreeNode.addPoint all_samples m_points].
    rewrite <- !app_assoc.
    apply Permutation_app_head, Permutation_app_comm. }
  induction fuel as [|fuel IH]; intros n k l Hn Hwf Hfuel Hl;
    destruct n as [|f ch]; try congruence.
  - assert (Hk : k = 0).
    { destruct Hwf as (_ & (((? & _) & _) & _) & _). lia. }
    subst k. rewrite addPoint_loop_leaf by apply Hwf. apply Hleaf0.
  - destruct (Z.eq_dec k 0) as [->|Hk0].
    { rewrite addPoint_loop_leaf by apply Hwf. apply Hleaf0. }
    pose proof Hwf as Hwf0.
    destruct Hwf as ((Hd & HX & HY & HZ) & Hok & Hsz & Ho & Hnp & Hpts & Hleaf
                     & Hch0 & Hch).
    assert (Hk : 0 < k <= D) by (destruct Hok as ((? & _) & _); lia).
    specialize (Hl ltac:(lia)). subst l.
    pose proof (addPoint_loop_step fuel f ch (k - 1) cx cy cz a pt
                  ltac:(lia)) as Hstep.
    cbv zeta in Hstep.
    rewrite !branch_bit in Hstep by lia.
    pose proof (bit_range cx (k - 1)) as Rx.
    pose proof (bit_range cy (k - 1)) as Ry.
    pose proof (bit_range cz (k - 1)) as Rz.
    rewrite child_index in Hstep by assumption.
    destruct (child_index_bits _ _ _ Rx Ry Rz) as (Hci & Ex & Ey & Ez).
    cbv zeta in Hci, Ex, Ey, Ez.
    set (ci := 4 * ((cx / 2 ^ (k - 1)) mod 2)
               + 2 * ((cy / 2 ^ (k - 1)) mod 2)
               + (cz / 2 ^ (k - 1)) mod 2) in *.
    destruct (Hstep Hci) as (ch' & -> & Hother & Hci').
    cbn [all_samples]. rewrite <- app_assoc. apply Permutation_app_head.
    apply flat_map_update with (ci := ci);
      [intros j Hj; now rewrite Hother| |apply NoDup_eight|now apply in_eight].
    rewrite Hci'.
    assert (Hl' : 0 < k - 1 -> u32 (k - 1 - 1) = k - 1 - 1)
      by (intros ?; rewrite u32_small; lia).
    destruct (ch ci) eqn:E.
    + (* a fresh child *)
      rewrite (IH _ (k - 1)); [reflexivity|unfold fresh_child; congruence|
                              |lia|exact Hl'].
      now apply wf_fresh_child with (ch := ch).
    + rewrite <- E. apply (IH _ (k - 1)); [congruence| |lia|exact Hl'].
      rewrite !cell_of_child, <- Ex, <- Ey, <- Ez by lia.
      apply Hch. exact Hci.
Qed.

End GeometryFacts.

(** ** The invariant of an octree *)


Lemma cell_of_root (D c : Z) : 0 <= c < 2 ^ D -> cell_of c D = 0.
Proof.
  intros H. unfold cell_of. rewrite Z.div_small by exact H. reflexivity.
Qed.

Lemma wf_depth D o s k X Y Z n :
  wf D o s k X Y Z n -> n <> NULL -> getDepth n = k.
Proof. destruct n; [congruence|]. intros H _. apply H. Qed.

(** In the cube, the code [addPoint] computes is the index of the leaf. *)
Lemma addPoint_code_eq (oc : TOctree.t) (c o : Q) :
  octree_ok oc ->
  (o <= c)%Q -> (c < o + TOctree.m_size oc)%Q ->
  TOctree.addPoint_code oc c o
  = code (TOctree.m_depth oc) (TOctree.m_size oc) c o.
Proof.
  intros Hok Hlo Hhi. unfold TOctree.addPoint_code.
  rewrite (ok_binsize _ Hok).
  destruct (code_bounds _ _ (ok_depth _ Hok) (ok_size _ Hok) c o Hlo Hhi)
    as (Hc & _).
  pose proof (pow2_lt_32 _ (ok_depth _ Hok)).
  apply double_to_uint_floor; [lia| |]; unfold code in *.
  - apply Qfloor_le.
  - apply Qlt_floor.
Qed.

Lemma double_to_uint_comp (x y : Q) :
  (x == y)%Q -> double_to_uint x = double_to_uint y.
Proof.
  intros E. unfold double_to_uint.
  rewrite (Qfloor_comp _ _ E), (Qceiling_comp _ _ E).
  destruct (Qle_bool 0 x) eqn:Hx, (Qle_bool 0 y) eqn:Hy; try reflexivity.
  - apply Qle_bool_iff in Hx. rewrite E in Hx. apply Qle_bool_iff in Hx.
    congruence.
  - apply Qle_bool_iff in Hy. rewrite <- E in Hy. apply Qle_bool_iff in Hy.
    congruence.
Qed.

(** [computeCode] agrees with [addPoint] on the points of the cube. *)
Lemma computeCode1_eq (oc : TOctree.t) (c o : Q) :
  octree_ok oc ->
  (o <= c)%Q -> (c < o + TOctree.m_size oc)%Q ->
  TOctreeIterator.computeCode1 oc c o
  = code (TOctree.m_depth oc) (TOctree.m_size oc) c o.
Proof.
  intros Hok Hlo Hhi. rewrite <- addPoint_code_eq by assumption.
  unfold TOctreeIterator.computeCode1, TOctree.addPoint_code,
    TOctree.getSize, TOctree.getBinSize.
  pose proof (ok_size _ Hok) as Hs.
  apply double_to_uint_comp. field. lra.
Qed.

Lemma initialize_ok (oc : TOctree.t) (origin : Point) (size : Q) :
  0 <= TOctree.m_depth oc <= 31 ->
  TOctree.m_binsize oc = 2 ^ TOctree.m_depth oc ->
  (0 < size)%Q ->
  octree_ok (TOctree.initialize oc origin size).
Proof.
  intros HD Hb Hs.
  pose proof (pow2_pos (TOctree.m_depth oc) ltac:(lia)) as Hp.
  constructor; simpl; try assumption; try congruence; [|reflexivity].
  assert (Hc : cell_ok (TOctree.m_depth oc) (TOctree.m_depth oc) 0).
  { unfold cell_ok. repeat split; lia. }
  split; [tauto|]. split; [tauto|].
  split; [symmetry; now apply cell_size_root|].
  split; [repeat split; ring|].
  split; [reflexivity|]. split; [reflexivity|].
  split; [intros c []|]. split; [reflexivity|].
  intros i Hi. split; [congruence|exact I].
Qed.

Lemma new_depth_initialize_ok (D : Z) (origin : Point) (size : Q) :
  0 <= D <= 31 -> (0 < size)%Q ->
  octree_ok (TOctree.initialize (TOctree.new_depth D) origin size).
Proof.
  intros HD Hs. apply initialize_ok; simpl; try assumption.
  apply u32_small. unfold pow2. pose proof (pow2_lt_32 D HD). lia.
Qed.

Lemma seq_snoc (n : nat) : seq 0 (S n) = seq 0 n ++ [n].
Proof. now rewrite seq_S. Qed.

Lemma addPoint_ok (oc : TOctree.t) (pt : Sample) :
  octree_ok oc ->
  in_cube oc (pos pt) ->
  Z.of_nat (length (all_samples (TOctree.m_root oc))) < 2 ^ 32 - 1 ->
  octree_ok (TOctree.addPoint oc pt)
  /\ Permutation (all_samples (TOctree.m_root (TOctree.addPoint oc pt)))
       (all_samples (TOctree.m_root oc)
        ++ [(length (all_samples (TOctree.m_root oc)), pt)]).
Proof.
  intros Hok Hin Hlen.
  pose proof (ok_depth _ Hok) as HD. pose proof (ok_size _ Hok) as Hs.
  pose proof (ok_wf _ Hok) as Hwf. pose proof (ok_root _ Hok) as Hroot.
  destruct Hin as ((Hx1 & Hx2) & (Hy1 & Hy2) & (Hz1 & Hz2)).
  assert (Hin : in_cube oc (pos pt)) by (repeat split; assumption).
  unfold TOctree.addPoint, TOctree.getRoot.
  rewrite !addPoint_code_eq by assumption.
  set (cx := code _ _ (m_x (pos pt)) _).
  set (cy := code _ _ (m_y (pos pt)) _).
  set (cz := code _ _ (m_z (pos pt)) _).
  destruct (code_bounds _ _ HD Hs _ _ Hx1 Hx2) as (Bx & _).
  destruct (code_bounds _ _ HD Hs _ _ Hy1 Hy2) as (By & _).
  destruct (code_bounds _ _ HD Hs _ _ Hz1 Hz2) as (Bz & _).
  fold cx in Bx. fold cy in By. fold cz in Bz.
  rewrite (wf_depth _ _ _ _ _ _ _ _ Hwf Hroot).
  assert (Hwf' : wf_in oc (TOctree.m_depth oc)
                   (cell_of cx (TOctree.m_depth oc))
                   (cell_of cy (TOctree.m_depth oc))
                   (cell_of cz (TOctree.m_depth oc)) (TOctree.m_root oc)).
  { rewrite !cell_of_root by assumption. exact Hwf. }
  assert (Hl : 0 < TOctree.m_depth oc ->
               u32 (TOctree.m_depth oc - 1) = TOctree.m_depth oc - 1)
    by (intros ?; apply u32_small; lia).
  assert (Hperm :
    Permutation
      (all_samples
         (TOctree.addPoint_loop (Z.to_nat (TOctree.m_depth oc))
            (TOctree.m_root oc) (u32 (TOctree.m_depth oc - 1)) cx cy cz
            (length (all_samples (TOctree.m_root oc))) pt))
      (all_samples (TOctree.m_root oc)
       ++ [(length (all_samples (TOctree.m_root oc)), pt)])).
  { apply addPoint_loop_samples
      with (D := TOctree.m_depth oc) (origin := TOctree.m_origin oc)
           (size := TOctree.m_size oc) (k := TOctree.m_depth oc);
      auto; lia. }
  split; [|exact Hperm].
  constructor; simpl; try assumption; try apply Hok.
  - now apply addPoint_loop_not_null.
  - pose proof (addPoint_loop_wf (TOctree.m_depth oc) (TOctree.m_origin oc)
                  (TOctree.m_size oc) HD Hs
                  (length (all_samples (TOctree.m_root oc))) pt cx cy cz Hin
                  eq_refl eq_refl eq_refl (Z.to_nat (TOctree.m_depth oc))
                  (TOctree.m_root oc) (TOctree.m_depth oc)
                  (u32 (TOctree.m_depth oc - 1)) Hroot Hwf'
                  ltac:(lia) Hl Hlen) as H.
    rewrite !cell_of_root in H by assumption. exact H.
  - rewrite Hperm, map_app, length_app. simpl.
    rewrite Nat.add_1_r, seq_snoc.
    apply Permutation_app_tail. apply Hok.
Qed.

Lemma addPoint_params (oc : TOctree.t) (pt : Sample) :
  TOctree.m_depth (TOctree.addPoint oc pt) = TOctree.m_depth oc
  /\ TOctree.m_origin (TOctree.addPoint oc pt) = TOctree.m_origin oc
  /\ TOctree.m_size (TOctree.addPoint oc pt) = TOctree.m_size oc.
Proof. repeat split. Qed.

Lemma addPoints_params (pts : list Sample) (oc : TOctree.t) :
  TOctree.m_depth (TOctree.addPoints oc pts) = TOctree.m_depth oc
  /\ TOctree.m_origin (TOctree.addPoints oc pts) = TOctree.m_origin oc
  /\ TOctree.m_size (TOctree.addPoints oc pts) = TOctree.m_size oc.
Proof.
  revert oc. induction pts as [|pt pts IH]; intros oc; [repeat split|].
  simpl. destruct (IH (TOctree.addPoint oc pt)) as (-> & -> & ->).
  apply addPoint_params.
Qed.


Lemma addPoints_ok (pts : list Sample) (oc : TOctree.t) :
  octree_ok oc ->
  Forall (fun pt => in_cube oc (pos pt)) pts ->
  Z.of_nat (length (all_samples (TOctree.m_root oc)) + length pts) < 2 ^ 32 ->
  octree_ok (TOctree.addPoints oc pts)
  /\ Permutation (all_samples (TOctree.m_root (TOctree.addPoints oc pts)))
       (all_samples (TOctree.m_root oc)
        ++ cells_from (length (all_samples (TOctree.m_root oc))) pts).
Proof.
  revert oc. induction pts as [|pt pts IH]; intros oc Hok Hin Hlen.
  - simpl. split; [exact Hok|]. unfold cells_from. simpl.
    now rewrite app_nil_r.
  - inversion Hin as [|? ? Hpt Hpts]; subst.
    simpl in Hlen.
    destruct (addPoint_ok oc pt Hok Hpt ltac:(lia)) as (Hok1 & Hperm1).
    assert (Hlen1 : length (all_samples (TOctree.m_root (TOctree.addPoint oc pt)))
                    = S (length (all_samples (TOctree.m_root oc)))).
    { rewrite (Permutation_length Hperm1), length_app. simpl. lia. }
    destruct (IH (TOctree.addPoint oc pt) Hok1) as (Hok2 & Hperm2).
    + exact Hpts.
    + rewrite Hlen1. lia.
    + simpl. split; [exact Hok2|].
      rewrite Hlen1 in Hperm2. rewrite Hperm2.
      unfold cells_from. simpl. rewrite (Permutation_app_tail _ Hperm1), <- app_assoc. reflexivity.
Qed.


Lemma built_params D origin size pts :
  TOctree.m_depth (built D origin size pts) = D
  /\ TOctree.m_origin (built D origin size pts) = origin
  /\ TOctree.m_size (built D origin size pts) = size.
Proof.
  unfold built.
  destruct (addPoints_params pts
              (TOctree.initialize (TOctree.new_depth D) origin size))
    as (-> & -> & ->).
  repeat split.
Qed.

Lemma built_ok D origin size pts :
  build_ok D origin size pts ->
  octree_ok (built D origin size pts)
  /\ Permutation (all_samples (TOctree.m_root (built D origin size pts)))
       (cells_from 0 pts).
Proof.
  intros [HD Hs Hin Hn]. unfold built.
  pose proof (new_depth_initialize_ok D origin size HD Hs) as Hok0.
  destruct (addPoints_ok pts _ Hok0) as (Hok & Hperm).
  - exact Hin.
  - simpl. lia.
  - split; [exact Hok|]. exact Hperm.
Qed.

(** ** Cells and the samples below them *)

Lemma cell_of_range (c k : Z) :
  0 <= k -> cell_of c k <= c < cell_of c k + 2 ^ k.
Proof.
  intros Hk. unfold cell_of. pose proof (pow2_pos k Hk) as Hp.
  pose proof (Z.div_mod c (2 ^ k) ltac:(lia)).
  pose proof (Z.mod_pos_bound c (2 ^ k) Hp). lia.
Qed.

Lemma cell_of_mult (c k : Z) : 0 <= k -> cell_of c k mod 2 ^ k = 0.
Proof.
  intros Hk. unfold cell_of. apply Z.mod_mul.
  pose proof (pow2_pos k Hk). lia.
Qed.

Lemma cell_of_fix (X k : Z) : 0 <= k -> X mod 2 ^ k = 0 -> cell_of X k = X.
Proof.
  intros Hk HX. unfold cell_of. pose proof (pow2_pos k Hk) as Hp.
  pose proof (Z.div_mod X (2 ^ k) ltac:(lia)). lia.
Qed.

(** The cell of depth [k] that contains the leaf [c] is determined by any
    finer cell that contains it. *)
Lemma cell_of_unique (c k X : Z) :
  0 <= k -> X mod 2 ^ k = 0 -> X <= c < X + 2 ^ k -> cell_of c k = X.
Proof.
  intros Hk HX Hc. unfold cell_of. pose proof (pow2_pos k Hk) as Hp.
  apply Z.mod_divide in HX; [|lia]. destruct HX as [q ->].
  replace (c / 2 ^ k) with q; [reflexivity|].
  apply Z.div_unique with (r := c - q * 2 ^ k); lia.
Qed.

Lemma cell_of_coarser (a b k k' : Z) :
  0 <= k <= k' -> cell_of a k = cell_of b k -> cell_of a k' = cell_of b k'.
Proof.
  intros Hk E.
  pose proof (cell_of_range a k ltac:(lia)) as Ra.
  pose proof (cell_of_range b k ltac:(lia)) as Rb.
  pose proof (cell_of_range b k' ltac:(lia)) as Rb'.
  pose proof (cell_of_mult b k' ltac:(lia)) as Mb'.
  pose proof (cell_of_mult b k ltac:(lia)) as Mb.
  apply cell_of_unique; [lia|exact Mb'|].
  (* both cell_of b k and cell_of b k' are multiples of 2^k *)
  assert (Hp : 0 < 2 ^ k) by (apply pow2_pos; lia).
  assert (Hsplit : 2 ^ k' = 2 ^ (k' - k) * 2 ^ k)
    by (rewrite <- Z.pow_add_r by lia; f_equal; lia).
  assert (Hp' : 0 < 2 ^ (k' - k)) by (apply pow2_pos; lia).
  apply Z.mod_divide in Mb; [|lia]. destruct Mb as [q Hq].
  apply Z.mod_divide in Mb'; [|lia]. destruct Mb' as [q' Hq'].
  rewrite E, Hq in Ra. rewrite Hq in Rb. rewrite Hq', Hsplit in Rb'.
  rewrite Hq', Hsplit.
  assert (q' * 2 ^ (k' - k) <= q) by nia.
  assert (q + 1 <= (q' + 1) * 2 ^ (k' - k)) by nia.
  nia.
Qed.

Lemma cell_of_parent (c k X b : Z) :
  0 < k -> X mod 2 ^ k = 0 -> 0 <= b < 2 ->
  cell_of c (k - 1) = X + b * 2 ^ (k - 1) ->
  cell_of c k = X.
Proof.
  intros Hk HX Hb E.
  pose proof (pow2_pos (k - 1) ltac:(lia)) as Hp.
  pose proof (cell_of_range c (k - 1) ltac:(lia)) as R.
  apply cell_of_unique; [lia|exact HX|].
  rewrite (pow2_split k Hk). nia.
Qed.

Lemma index_of_bits (i : Z) :
  0 <= i < 8 -> i = 4 * ((i / 4) mod 2) + 2 * ((i / 2) mod 2) + i mod 2.
Proof.
  intros Hi.
  assert (H : i = 0 \/ i = 1 \/ i = 2 \/ i = 3 \/ i = 4 \/ i = 5 \/ i = 6
              \/ i = 7) by lia.
  repeat (destruct H as [->|H]; [reflexivity|]). now subst.
Qed.

Section Cells.

Variable D : Z.
Variable origin : Point.
Variable size : Q.

Abbreviation codex p := (code D size (m_x p) (m_x origin)).
Abbreviation codey p := (code D size (m_y p) (m_y origin)).
Abbreviation codez p := (code D size (m_z p) (m_z origin)).
Local Abbreviation in_cell := (in_cell D origin size).


Lemma in_flat_map_eight (ch : Z -> ptr) (c : addr * Sample) :
  In c (flat_map (fun i => all_samples (ch i)) eight) <->
  exists i, 0 <= i < 8 /\ In c (all_samples (ch i)).
Proof.
  rewrite in_flat_map. split; intros (i & Hi & Hc); exists i;
    (split; [now apply in_eight|exact Hc]).
Qed.

(** Every sample below a cell lies in the cube and in that cell. *)
Lemma wf_samples (n : ptr) :
  forall k X Y Z c,
    wf D origin size k X Y Z n ->
    In c (all_samples n) ->
    inside origin size (pos (snd c))
    /\ cell_of (codex (pos (snd c))) k = X
    /\ cell_of (codey (pos (snd c))) k = Y
    /\ cell_of (codez (pos (snd c))) k = Z.
Proof.
  induction n as [|f ch IH]; intros k X Y Z c Hwf Hc; [destruct Hc|].
  destruct Hwf as ((Hd & HX & HY & HZ) & (Okx & Oky & Okz) & Hsz & Ho & Hnp
                   & Hpts & Hleaf & Hch0 & Hch).
  cbn [all_samples] in Hc. apply in_app_or in Hc. destruct Hc as [Hc|Hc].
  - assert (Hk0 : k = 0).
    { destruct Okx as ((? & _) & _).
      destruct (Z.eq_dec k 0); [assumption|].
      rewrite Hpts in Hc by lia. destruct Hc. }
    destruct (Hleaf c Hc) as (Hin & Ex & Ey & Ez).
    rewrite Hk0, !cell_of_0. tauto.
  - apply in_flat_map_eight in Hc. destruct Hc as (i & Hi & Hc).
    assert (Hk : 0 < k).
    { destruct Okx as ((? & _) & _).
      destruct (Z.eq_dec k 0) as [->|]; [|lia].
      rewrite Hch0 in Hc by reflexivity. destruct Hc. }
    destruct (Hch i Hi) as (_ & Hwfi).
    destruct (IH i _ _ _ _ c Hwfi Hc) as (Hin & Ex & Ey & Ez).
    split; [exact Hin|].
    repeat split.
    + eapply cell_of_parent; [exact Hk|apply Okx| |exact Ex].
      apply Z.mod_pos_bound; lia.
    + eapply cell_of_parent; [exact Hk|apply Oky| |exact Ey].
      apply Z.mod_pos_bound; lia.
    + eapply cell_of_parent; [exact Hk|apply Okz| |exact Ez].
      apply Z.mod_pos_bound; lia.
Qed.

(** Below a cell of depth [j] > 0, a sample is below the child its code
    designates. *)
Lemma wf_sample_child f ch j X Y Z c tx ty tz :
  wf D origin size j X Y Z (Node f ch) ->
  0 < j ->
  In c (all_samples (Node f ch)) ->
  in_cell (j - 1) tx ty tz (pos (snd c)) ->
  In c (all_samples
          (ch (4 * ((tx / 2 ^ (j - 1)) mod 2)
               + 2 * ((ty / 2 ^ (j - 1)) mod 2)
               + (tz / 2 ^ (j - 1)) mod 2))).
Proof.
  intros Hwf Hj Hc (Ex & Ey & Ez).
  pose proof Hwf as Hwf0.
  destruct Hwf as ((Hd & HX & HY & HZ) & (Okx & Oky & Okz) & Hsz & Ho & Hnp
                   & Hpts & Hleaf & Hch0 & Hch).
  cbn [all_samples] in Hc. rewrite Hpts in Hc by exact Hj. simpl in Hc.
  apply in_flat_map_eight in Hc. destruct Hc as (i & Hi & Hc).
  destruct (Hch i Hi) as (_ & Hwfi).
  destruct (wf_samples _ _ _ _ _ c Hwfi Hc) as (_ & Ex' & Ey' & Ez').
  destruct (wf_samples _ _ _ _ _ c Hwf0) as (_ & Px & Py & Pz).
  { cbn [all_samples]. apply in_or_app. right.
    apply in_flat_map_eight. eauto. }
  pose proof (pow2_pos (j - 1) ltac:(lia)) as Hp.
  assert (Hbit : forall a b X', 
            cell_of a j = X' -> cell_of b j = X' ->
            cell_of a (j - 1) = cell_of b (j - 1) ->
            (a / 2 ^ (j - 1)) mod 2 = (b / 2 ^ (j - 1)) mod 2).
  { intros a b X' Ea Eb E.
    rewrite (cell_of_child a j), (cell_of_child b j), Ea, Eb in E by lia.
    nia. }
  assert (Bx : (i / 4) mod 2 = (tx / 2 ^ (j - 1)) mod 2).
  { pose proof (cell_of_child (codex (pos (snd c))) j Hj) as E1.
    rewrite Ex', Px in E1.
    pose proof (cell_of_child tx j Hj) as E2.
    rewrite <- Ex, Ex' in E2.
    assert (cell_of tx j = X).
    { rewrite <- Px. symmetry. apply cell_of_coarser with (k := j - 1); [lia|].
      exact Ex. }
    nia. }
  assert (By : (i / 2) mod 2 = (ty / 2 ^ (j - 1)) mod 2).
  { pose proof (cell_of_child ty j Hj) as E2.
    rewrite <- Ey, Ey' in E2.
    assert (cell_of ty j = Y).
    { rewrite <- Py. symmetry. apply cell_of_coarser with (k := j - 1); [lia|].
      exact Ey. }
    nia. }
  assert (Bz : i mod 2 = (tz / 2 ^ (j - 1)) mod 2).
  { pose proof (cell_of_child tz j Hj) as E2.
    rewrite <- Ez, Ez' in E2.
    assert (cell_of tz j = Z).
    { rewrite <- Pz. symmetry. apply cell_of_coarser with (k := j - 1); [lia|].
      exact Ez. }
    nia. }
  rewrite <- Bx, <- By, <- Bz, <- index_of_bits by exact Hi.
  exact Hc.
Qed.

(** [traverseToLevel] follows the path of the leaf of code ([tx], [ty],
    [tz]) and stops at level [k], or above it on a missing child.  In
    the first case the node reached holds every sample of the subtree that
    lies in the cell of depth [k] of that leaf; in the second case the
    subtree has no such sample. *)
Lemma traverse_spec (tx ty tz k : Z) (n : ptr) :
  D <= 31 ->
  0 <= k ->
  forall j,
    n <> NULL ->
    wf D origin size j (cell_of tx j) (cell_of ty j) (cell_of tz j) n ->
    let m := TOctreeIterator.traverseToLevel_loop n (j - 1) tx ty tz k in
    m <> NULL
    /\ getDepth m <= j
    /\ (k <= j -> k <= getDepth m)
    /\ wf D origin size (getDepth m) (cell_of tx (getDepth m))
         (cell_of ty (getDepth m)) (cell_of tz (getDepth m)) m
    /\ incl (all_samples m) (all_samples n)
    /\ (forall c, k <= j -> In c (all_samples n) ->
         in_cell k tx ty tz (pos (snd c)) ->
         getDepth m = k /\ In c (all_samples m))
    /\ (j <= k -> m = n).
Proof.
  intros HD31 Hk0.
  induction n as [|f ch IH]; intros j Hn Hwf; [congruence|].
  pose proof Hwf as Hwf0.
  destruct Hwf as ((Hd & HX & HY & HZ) & (Okx & Oky & Okz) & Hsz & Ho & Hnp
                   & Hpts & Hleaf & Hch0 & Hch).
  assert (Hj : 0 <= j <= D) by apply Okx.
  cbn [TOctreeIterator.traverseToLevel_loop]. rewrite Hd.
  destruct (Z.ltb_spec k j) as [Hkj|Hkj].
  2:{ (* the node is at level k already, or below it *)
    cbv zeta. cbn [getDepth]. rewrite Hd.
    split; [congruence|]. split; [lia|]. split; [lia|].
    split; [exact Hwf0|]. split; [apply incl_refl|].
    split; [|reflexivity].
    intros c Hle Hc Hcell. split; [lia|exact Hc]. }
  destruct (Z.lt_ge_cases j 1) as [Hj0|Hj1].
  { (* j = 0 and k < 0: the loop runs, every child is null *)
    rewrite Hch0 by lia. cbv zeta. cbn [getDepth]. rewrite Hd.
    split; [congruence|]. split; [lia|]. split; [lia|].
    split; [exact Hwf0|]. split; [apply incl_refl|].
    split; [|lia].
    intros c Hle. lia. }
  rewrite !branch_bit by lia.
  pose proof (bit_range tx (j - 1)) as Rx.
  pose proof (bit_range ty (j - 1)) as Ry.
  pose proof (bit_range tz (j - 1)) as Rz.
  rewrite child_index by assumption.
  destruct (child_index_bits _ _ _ Rx Ry Rz) as (Hci & Ex & Ey & Ez).
  cbv zeta in Hci, Ex, Ey, Ez.
  set (ci := 4 * ((tx / 2 ^ (j - 1)) mod 2)
             + 2 * ((ty / 2 ^ (j - 1)) mod 2)
             + (tz / 2 ^ (j - 1)) mod 2) in *.
  rewrite (Z.mod_small ci 8) by lia.
  assert (Hsub : forall c, In c (all_samples (Node f ch)) ->
                   in_cell k tx ty tz (pos (snd c)) ->
                   In c (all_samples (ch ci))).
  { intros c Hc (Cx & Cy & Cz).
    apply wf_sample_child with (j := j) (X := cell_of tx j)
      (Y := cell_of ty j) (Z := cell_of tz j) (f := f); try assumption; try lia.
    repeat split; eapply cell_of_coarser; try eassumption; lia. }
  destruct (ch ci) eqn:E.
  - (* the child is missing: the traversal stops above level k *)
    cbv zeta. cbn [getDepth]. rewrite Hd.
    split; [congruence|]. split; [lia|]. split; [lia|].
    split; [exact Hwf0|]. split; [apply incl_refl|].
    split; [|lia].
    intros c Hle Hc Hcell. destruct (Hsub c Hc Hcell).
  - rewrite <- E.
    destruct (Hch ci Hci) as (_ & Hwfc).
    rewrite Ex, Ey, Ez, <- !cell_of_child in Hwfc by lia.
    destruct (IH ci (j - 1) ltac:(congruence) Hwfc)
      as (Hm & Hdm & Hkm & Hwfm & Hincl & Hcomp & _).
    cbv zeta in *.
    split; [exact Hm|]. split; [lia|]. split; [intros; apply Hkm; lia|].
    split; [exact Hwfm|]. split; [|split; [|lia]].
    + intros c Hc. apply Hincl in Hc.
      cbn [all_samples]. apply in_or_app. right.
      apply in_flat_map_eight. eauto.
    + intros c Hle Hc Hcell. apply Hcomp; [lia| |exact Hcell].
      rewrite E. now apply Hsub.
Qed.

End Cells.

(** ** [explore] *)


Lemma fold_left_append {A B : Type} (h : list B -> A -> list B)
    (g : A -> list B) (l : list A) :
  (forall x acc, In x l -> h acc x = acc ++ g x) ->
  forall acc, fold_left h l acc = acc ++ flat_map g l.
Proof.
  induction l as [|x l IH]; intros Hh acc; simpl.
  - now rewrite app_nil_r.
  - rewrite Hh by now left. rewrite IH, app_assoc; [reflexivity|].
    intros y acc' Hy. apply Hh. now right.
Qed.

Lemma explore_leaf_eq it q pts acc :
  TOctreeIterator.explore_leaf it q pts acc
  = acc ++ map fst (List.filter (near it q) pts).
Proof.
  unfold TOctreeIterator.explore_leaf.
  rewrite fold_left_append
    with (g := fun c => if near it q c then [fst c] else []).
  - f_equal. induction pts as [|c pts IH]; [reflexivity|].
    simpl. destruct (near it q c); simpl; now rewrite IH.
  - intros c acc' _. unfold near. destruct (Qltb _ _); [reflexivity|].
    now rewrite app_nil_r.
Qed.

(** What [explore] appends does not depend on the list it extends. *)
Lemma explore_app it q (n : ptr) :
  forall acc,
    TOctreeIterator.explore it n q acc
    = acc ++ TOctreeIterator.explore it n q [].
Proof.
  induction n as [|f ch IH]; intros acc; [simpl; now rewrite app_nil_r|].
  cbn [TOctreeIterator.explore].
  destruct (negb (m_depth f =? 0)).
  - set (g := fun i : Z => TOctreeIterator.explore it (ch (i mod 8)) q []).
    rewrite !(fold_left_append _ g); [reflexivity| |];
      intros i acc' _; unfold g; rewrite (IH (i mod 8) acc');
      destruct (ch (i mod 8)); simpl; now rewrite ?app_nil_r.
  - destruct (negb (m_npts f =? 0)); [|now rewrite app_nil_r].
    now rewrite !explore_leaf_eq.
Qed.

(** Soundness of [explore], on any tree: an address it returns is that of
    a cell below the node whose sample passes the test. *)
Lemma explore_sound it q (n : ptr) :
  forall a,
    In a (TOctreeIterator.explore it n q []) ->
    exists s, In (a, s) (all_samples n) /\ near it q (a, s) = true.
Proof.
  induction n as [|f ch IH]; intros a Ha; [destruct Ha|].
  cbn [TOctreeIterator.explore] in Ha.
  destruct (negb (m_depth f =? 0)).
  - set (g := fun i : Z => TOctreeIterator.explore it (ch (i mod 8)) q []).
    rewrite (fold_left_append _ g) in Ha.
    + cbn [app] in Ha. apply in_flat_map in Ha. destruct Ha as (i & Hi & Ha).
      apply in_eight in Hi. unfold g in Ha.
      rewrite Z.mod_small in Ha by exact Hi.
      destruct (IH i a Ha) as (s & Hs & Hnear).
      exists s. split; [|exact Hnear].
      cbn [all_samples]. apply in_or_app. right.
      apply in_flat_map. exists i. split; [now apply in_eight|exact Hs].
    + intros i acc' _. unfold g. rewrite (explore_app it q (ch (i mod 8)) acc').
      destruct (ch (i mod 8)); simpl; now rewrite ?app_nil_r.
  - destruct (negb (m_npts f =? 0)); [|destruct Ha].
    rewrite explore_leaf_eq in Ha. simpl in Ha.
    apply in_map_iff in Ha. destruct Ha as ((a' & s) & <- & Hin).
    apply filter_In in Hin. destruct Hin as (Hin & Hnear).
    exists s. split; [|exact Hnear].
    cbn [all_samples]. apply in_or_app. now left.
Qed.

(** On a subtree that satisfies the invariant, [explore] returns the
    addresses of the cells below the node that pass the test, in the order
    of the traversal. *)
Lemma explore_eq D origin size it q (n : ptr) :
  forall k X Y Zc,
    wf D origin size k X Y Zc n ->
    TOctreeIterator.explore it n q []
    = map fst (List.filter (near it q) (all_samples n)).
Proof.
  induction n as [|f ch IH]; intros k X Y Zc Hwf; [reflexivity|].
  destruct Hwf as ((Hd & HX & HY & HZ) & (Okx & Oky & Okz) & Hsz & Ho & Hnp
                   & Hpts & Hleaf & Hch0 & Hch).
  assert (Hk : 0 <= k) by apply Okx.
  cbn [TOctreeIterator.explore all_samples]. rewrite Hd.
  destruct (Z.eqb_spec k 0) as [Hk0|Hk0]; cbn [negb].
  - (* a leaf *)
    assert (Hnil : flat_map (fun i => all_samples (ch i)) eight = []).
    { unfold eight. simpl. rewrite !Hch0 by exact Hk0. reflexivity. }
    rewrite Hnil, app_nil_r.
    destruct (Z.eqb_spec (m_npts f) 0) as [Hn0|Hn0]; cbn [negb].
    + destruct (m_points f); [reflexivity|]. simpl in Hnp. lia.
    + now rewrite explore_leaf_eq.
  - rewrite Hpts by lia. cbn [app].
    set (g := fun i : Z =>
                map fst (List.filter (near it q) (all_samples (ch i)))).
    rewrite (fold_left_append _ g).
    + cbn [app]. unfold g. clear.
      induction eight as [|i l IHl]; [reflexivity|].
      simpl. now rewrite List.filter_app, map_app, IHl.
    + intros i acc' Hi. apply in_eight in Hi. unfold g.
      rewrite Z.mod_small by exact Hi.
      rewrite explore_app.
      destruct (Hch i Hi) as (_ & Hwfi).
      rewrite (IH i _ _ _ _ Hwfi).
      destruct (ch i); simpl; now rewrite ?app_nil_r.
Qed.

(** ** The candidate cells of [getNeighbors] *)


Lemma flat_map_comp {A B C : Type} (g : B -> list C) (h : A -> list B)
    (l : list A) :
  flat_map (fun x => flat_map g (h x)) l = flat_map g (flat_map h l).
Proof.
  induction l as [|x l IH]; [reflexivity|].
  cbn [flat_map]. now rewrite flat_map_app, IH.
Qed.

Lemma flat_map_unit {A : Type} (l : list A) : flat_map (fun x => [x]) l = l.
Proof. induction l as [|x l IH]; [reflexivity|]. simpl. now rewrite IH. Qed.

Lemma look_inside_eq {B : Type} (oc : TOctree.t) (xloc yloc zloc : list Z)
    (k : Z) (visit : ptr -> list B -> list B) (g : ptr -> list B) :
  (forall n out, visit n out = out ++ g n) ->
  forall out,
    TOctreeIterator.look_inside oc xloc yloc zloc k visit out
    = out ++ flat_map g (candidates oc xloc yloc zloc k).
Proof.
  intros Hv out. unfold TOctreeIterator.look_inside, candidates.
  rewrite fold_left_append with
    (g := fun xi => flat_map g
       (flat_map (fun yi =>
          flat_map (fun zi =>
            let node :=
              TOctreeIterator.traverseToLevel (TOctree.getRoot oc) xi yi zi k in
            if negb (TOctreeIterator.is_null node) && (getDepth node =? k)
            then [node] else []) zloc) yloc)).
  - f_equal. apply flat_map_comp.
  - intros xi out1 _.
    rewrite fold_left_append with
      (g := fun yi => flat_map g
         (flat_map (fun zi =>
            let node :=
              TOctreeIterator.traverseToLevel (TOctree.getRoot oc) xi yi zi k in
            if negb (TOctreeIterator.is_null node) && (getDepth node =? k)
            then [node] else []) zloc)).
    + f_equal. apply flat_map_comp.
    + intros yi out2 _.
      rewrite fold_left_append with
        (g := fun zi => flat_map g
           (let node :=
              TOctreeIterator.traverseToLevel (TOctree.getRoot oc) xi yi zi k in
            if negb (TOctreeIterator.is_null node) && (getDepth node =? k)
            then [node] else [])).
      * f_equal. apply flat_map_comp.
      * intros zi out3 _. cbv zeta.
        destruct (negb _ && _); simpl; now rewrite ?Hv, ?app_nil_r.
Qed.

Lemma in_candidates (oc : TOctree.t) (xloc yloc zloc : list Z) (k : Z)
    (n : ptr) :
  In n (candidates oc xloc yloc zloc k) <->
  exists xi yi zi,
    In xi xloc /\ In yi yloc /\ In zi zloc
    /\ n = TOctreeIterator.traverseToLevel (TOctree.getRoot oc) xi yi zi k
    /\ n <> NULL /\ getDepth n = k.
Proof.
  unfold candidates. rewrite in_flat_map. split.
  - intros (xi & Hx & H). apply in_flat_map in H. destruct H as (yi & Hy & H).
    apply in_flat_map in H. destruct H as (zi & Hz & H). cbv zeta in H.
    exists xi, yi, zi.
    destruct (TOctreeIterator.traverseToLevel _ xi yi zi k) eqn:E;
      simpl in H; [destruct H|].
    destruct (Z.eqb_spec (m_depth f) k); simpl in H; [|destruct H].
    destruct H as [<-|[]]. repeat split; try assumption. congruence.
  - intros (xi & yi & zi & Hx & Hy & Hz & -> & Hn & Hd).
    exists xi. split; [exact Hx|]. apply in_flat_map.
    exists yi. split; [exact Hy|]. apply in_flat_map.
    exists zi. split; [exact Hz|]. cbv zeta.
    destruct (TOctreeIterator.traverseToLevel _ xi yi zi k); [congruence|].
    simpl in *. rewrite Hd, Z.eqb_refl. now left.
Qed.

(** Both branches of [getNeighbors] search at the depth of the query
    node. *)
Lemma explored_nodes_eq it oc q qn :
  TOctreeIterator.explored_nodes it oc q qn
  = candidates oc (TOctreeIterator.xloc_list it oc q qn)
      (TOctreeIterator.yloc_list it oc q qn)
      (TOctreeIterator.zloc_list it oc q qn) (getDepth qn).
Proof.
  unfold TOctreeIterator.explored_nodes.
  destruct (Z.eqb_spec (getDepth qn) (TOctreeIterator.m_activeDepth it))
    as [->|_];
    now rewrite look_inside_eq with (g := fun n => [n]), flat_map_unit.
Qed.

(** [getNeighbors] appends what [explore] finds in the explored nodes. *)
Lemma getNeighbors_node_eq it oc q qn out :
  TOctreeIterator.getNeighbors_node it oc q qn out
  = out ++ flat_map (fun n => TOctreeIterator.explore it n q [])
             (TOctreeIterator.explored_nodes it oc q qn).
Proof.
  rewrite explored_nodes_eq. unfold TOctreeIterator.getNeighbors_node.
  destruct (Z.eqb_spec (getDepth qn) (TOctreeIterator.m_activeDepth it))
    as [->|_];
    apply look_inside_eq; intros n out'; apply explore_app.
Qed.

(** ** The geometry of the candidate cells *)

Lemma scale_le (L : Q) (a b : Z) :
  (0 < L)%Q -> a <= b -> (inject_Z a * L <= inject_Z b * L)%Q.
Proof.
  intros HL Hab. apply Qmult_le_compat_r; [|lra]. now rewrite <- Zle_Qle.
Qed.

Lemma scale_lt (L : Q) (a b : Z) :
  (0 < L)%Q -> a < b -> (inject_Z a * L < inject_Z b * L)%Q.
Proof.
  intros HL Hab. apply Qmult_lt_compat_r; [lra|]. now rewrite <- Zlt_Qlt.
Qed.

Lemma leaf_size_total (D : Z) (size : Q) :
  0 <= D -> (inject_Z (2 ^ D) * leaf_size D size == size)%Q.
Proof.
  intros HD. unfold leaf_size. field.
  assert (0 < inject_Z (2 ^ D))%Q; [|lra].
  change 0%Q with (inject_Z 0). rewrite <- Zlt_Qlt. now apply pow2_pos.
Qed.

(** [lra] on a goal whose local definitions are made opaque. *)
Ltac lra_opaque :=
  repeat match goal with x := _ |- _ => clearbody x end; lra.

Lemma multiples_step (P a b : Z) :
  0 < P -> a mod P = 0 -> b mod P = 0 -> a < b -> a + P <= b.
Proof.
  intros HP Ha Hb Hab.
  apply Z.mod_divide in Ha; [|lia]. destruct Ha as [x ->].
  apply Z.mod_divide in Hb; [|lia]. destruct Hb as [y ->].
  assert (x < y) by (apply (Z.mul_lt_mono_pos_r P); assumption).
  nia.
Qed.

Ltac nia_opaque :=
  repeat match goal with x := _ |- _ => clearbody x end; nia.

(** The injection of a sum or of a difference of integers, in a
    hypothesis. *)
Ltac push_inject H :=
  unfold Z.sub in H;
  repeat first [rewrite inject_Z_plus in H | rewrite inject_Z_opp in H];
  change (inject_Z 1) with 1%Q in H.

(** Along one axis: a coordinate [u] of the cube within [r] of the query
    coordinate [q] lies in the cell of the query node or in the cell on
    its left or on its right, and in the last two cases the tests of
    [getNeighbors] put the code of that cell in the list.  [r] only needs
    to be smaller than the side of the cell. *)
Lemma axis_candidate (D : Z) (size : Q) (it : TOctreeIterator.t)
    (o q u no nsize : Q) (sq : Z) :
  0 <= D <= 31 -> (0 < size)%Q ->
  (o <= q)%Q -> (q < o + size)%Q ->
  (o <= u)%Q -> (u < o + size)%Q ->
  0 <= sq <= D ->
  let X := cell_of (code D size q o) sq in
  (no == o + inject_Z X * leaf_size D size)%Q ->
  (nsize == cell_size D size sq)%Q ->
  (0 < TOctreeIterator.m_radius it)%Q ->
  (TOctreeIterator.m_radius it < cell_size D size sq)%Q ->
  (q - TOctreeIterator.m_radius it < u)%Q ->
  (u < q + TOctreeIterator.m_radius it)%Q ->
  exists t,
    In t (TOctreeIterator.axis_codes it q no nsize o size X (u32 (X - 1))
            (u32 (X + u32 (pow2 sq))))
    /\ 0 <= t < 2 ^ D
    /\ cell_of t sq = cell_of (code D size u o) sq.
Proof.
  intros HD Hs Hq1 Hq2 Hu1 Hu2 Hsq X Hno Hns Hr0 Hr1 Hl Hh.
  set (r := TOctreeIterator.m_radius it) in *.
  set (L := leaf_size D size) in *.
  set (cq := code D size q o) in *.
  set (cu := code D size u o).
  set (U := cell_of cu sq).
  set (P := 2 ^ sq).
  assert (HL : (0 < L)%Q) by now apply leaf_size_pos.
  assert (HP : 0 < P) by (apply pow2_pos; lia).
  pose proof (pow2_lt_32 D HD) as HD32.
  pose proof (pow2_le_mono sq D ltac:(lia)) as HPD. fold P in HPD.
  destruct (code_bounds D size HD Hs q o Hq1 Hq2) as (Bq & Gq1 & Gq2).
  destruct (code_bounds D size HD Hs u o Hu1 Hu2) as (Bu & Gu1 & Gu2).
  fold cq in Bq, Gq1, Gq2. fold cu in Bu, Gu1, Gu2. fold L in Gq1, Gq2, Gu1, Gu2.
  push_inject Gq2. push_inject Gu2.
  pose proof (cell_of_range cq sq ltac:(lia)) as RX. fold X P in RX.
  pose proof (cell_of_range cu sq ltac:(lia)) as RU. fold U P in RU.
  destruct (cell_of_ok D HD cq sq Bq Hsq) as (_ & X0 & X1 & XM).
  destruct (cell_of_ok D HD cu sq Bu Hsq) as (_ & U0 & U1 & UM).
  fold X P in X0, X1, XM. fold U P in U0, U1, UM.
  (* the side of the cell and the bounds of the two cells, in Q *)
  assert (HS : (cell_size D size sq == inject_Z P * L)%Q) by reflexivity.
  rewrite HS in Hr1, Hns.
  assert (Hsize : (inject_Z (2 ^ D) * L == size)%Q)
    by (apply leaf_size_total; lia).
  assert (Qq1 : (o + inject_Z X * L <= q)%Q).
  { pose proof (scale_le L X cq HL ltac:(lia)). lra_opaque. }
  assert (Qq2 : (q < o + inject_Z X * L + inject_Z P * L)%Q).
  { pose proof (scale_le L (cq + 1) (X + P) HL ltac:(lia)) as H.
    push_inject H. lra_opaque. }
  assert (Qu1 : (o + inject_Z U * L <= u)%Q).
  { pose proof (scale_le L U cu HL ltac:(lia)). lra_opaque. }
  assert (Qu2 : (u < o + inject_Z U * L + inject_Z P * L)%Q).
  { pose proof (scale_le L (cu + 1) (U + P) HL ltac:(lia)) as H.
    push_inject H. lra_opaque. }
  assert (PM : P mod P = 0) by (apply Z.mod_same; lia).
  unfold TOctreeIterator.axis_codes. fold r.
  destruct (Z.lt_trichotomy U X) as [Hlt|[Heq|Hgt]].
  - (* the cell on the left *)
    assert (HUX : U + P <= X) by now apply multiples_step.
    assert (HUeq : U = X - P).
    { destruct (Z.eq_dec U (X - P)) as [|Hne]; [assumption|exfalso].
      assert (U + P < X) by lia.
      assert (U + P + P <= X).
      { apply multiples_step; try assumption.
        rewrite Z.add_mod, UM, PM by lia. reflexivity. }
      pose proof (scale_le L (U + P + P) X HL ltac:(lia)) as H1.
      push_inject H1. lra_opaque. }
    exists (u32 (X - 1)).
    assert (G1 : Qltb (q - r) no = true).
    { apply Qltb_lt. rewrite Hno.
      pose proof (scale_le L (U + P) X HL ltac:(lia)) as H1.
      push_inject H1. lra_opaque. }
    assert (G2 : Qltb o (q - r) = true).
    { apply Qltb_lt.
      pose proof (scale_le L P X HL ltac:(lia)) as H1. lra_opaque. }
    rewrite G1, G2. cbn [andb].
    rewrite u32_small by lia.
    split; [apply in_or_app; right; apply in_or_app; left; now left|].
    split; [lia|].
    fold U. rewrite HUeq. apply cell_of_unique; [lia| |lia].
    fold P. rewrite Zminus_mod, XM, PM. reflexivity.
  - (* the cell of the query node *)
    exists X. split; [now left|]. split; [lia|].
    fold U. rewrite Heq. apply cell_of_fix; [lia|exact XM].
  - (* the cell on the right *)
    assert (HUX : X + P <= U) by now apply multiples_step.
    assert (HUeq : U = X + P).
    { destruct (Z.eq_dec U (X + P)) as [|Hne]; [assumption|exfalso].
      assert (X + P < U) by lia.
      assert (X + P + P <= U).
      { apply multiples_step; try assumption.
        rewrite Z.add_mod, XM, PM by lia. reflexivity. }
      pose proof (scale_le L (X + P + P) U HL ltac:(lia)) as H1.
      push_inject H1. lra_opaque. }
    exists (u32 (X + u32 (pow2 sq))).
    assert (G1 : Qltb (no + nsize) (q + r) = true).
    { apply Qltb_lt. rewrite Hno, Hns.
      pose proof (scale_le L (X + P) U HL ltac:(lia)) as H1.
      push_inject H1. lra_opaque. }
    assert (G2 : Qltb (q + r) (o + size) = true).
    { apply Qltb_lt.
      pose proof (scale_le L (X + P + P) (2 ^ D) HL ltac:(lia)) as H1.
      push_inject H1. lra_opaque. }
    rewrite G1, G2. cbn [andb].
    unfold pow2. fold P. rewrite (u32_small P), (u32_small (X + P)) by lia.
    split.
    { apply in_or_app; right; apply in_or_app; right.
      destruct (Qltb (q - r) no && Qltb o (q - r)); now left. }
    split; [lia|].
    fold U. rewrite <- HUeq. apply cell_of_fix; [lia|exact UM].
Qed.

(** A sample that passes the test of [explore] is within the radius of
    the query along every axis. *)
Lemma near_axes it q c :
  (0 < TOctreeIterator.m_radius it)%Q ->
  (TOctreeIterator.m_sqradius it
   == TOctreeIterator.m_radius it * TOctreeIterator.m_radius it)%Q ->
  near it q c = true ->
  let r := TOctreeIterator.m_radius it in
  let p := pos (snd c) in
  (m_x q - r < m_x p /\ m_x p < m_x q + r)%Q
  /\ (m_y q - r < m_y p /\ m_y p < m_y q + r)%Q
  /\ (m_z q - r < m_z p /\ m_z p < m_z q + r)%Q.
Proof.
  intros Hr Hsq Hnear. cbv zeta. unfold near in Hnear.
  apply Qltb_lt in Hnear. rewrite Hsq in Hnear. unfold dist2 in Hnear.
  set (r := TOctreeIterator.m_radius it) in *.
  set (dx := (m_x q - m_x (pos (snd c)))%Q) in *.
  set (dy := (m_y q - m_y (pos (snd c)))%Q) in *.
  set (dz := (m_z q - m_z (pos (snd c)))%Q) in *.
  assert (Hx : (dx * dx < r * r)%Q) by nra.
  assert (Hy : (dy * dy < r * r)%Q) by nra.
  assert (Hz : (dz * dz < r * r)%Q) by nra.
  assert (Habs : forall d : Q, (d * d < r * r)%Q -> (- r < d /\ d < r)%Q).
  { intros d Hd. split; nra. }
  destruct (Habs dx Hx), (Habs dy Hy), (Habs dz Hz).
  unfold dx, dy, dz in *. repeat split; lra.
Qed.


Lemma traverse_root_spec oc tx ty tz k :
  octree_ok oc ->
  0 <= tx < 2 ^ TOctree.m_depth oc ->
  0 <= ty < 2 ^ TOctree.m_depth oc ->
  0 <= tz < 2 ^ TOctree.m_depth oc ->
  0 <= k ->
  let m := TOctreeIterator.traverseToLevel (TOctree.getRoot oc) tx ty tz k in
  m <> NULL
  /\ getDepth m <= TOctree.m_depth oc
  /\ (k <= TOctree.m_depth oc -> k <= getDepth m)
  /\ wf_in oc (getDepth m) (cell_of tx (getDepth m))
         (cell_of ty (getDepth m)) (cell_of tz (getDepth m)) m
  /\ incl (all_samples m) (all_samples (TOctree.m_root oc))
  /\ (forall c, k <= TOctree.m_depth oc ->
       In c (all_samples (TOctree.m_root oc)) ->
       in_cell (TOctree.m_depth oc) (TOctree.m_origin oc) (TOctree.m_size oc)
         k tx ty tz (pos (snd c)) ->
       getDepth m = k /\ In c (all_samples m))
  /\ (TOctree.m_depth oc <= k -> m = TOctree.m_root oc).
Proof.
  intros Hok Hx Hy Hz Hk.
  pose proof (ok_wf _ Hok) as Hwf. pose proof (ok_root _ Hok) as Hroot.
  pose proof (ok_depth _ Hok) as HD.
  unfold TOctreeIterator.traverseToLevel, TOctree.getRoot.
  rewrite (wf_depth _ _ _ _ _ _ _ _ Hwf Hroot).
  apply traverse_spec; try assumption; try lia.
  rewrite !cell_of_root by assumption. exact Hwf.
Qed.

(** Completeness of [getNeighbors(query, query_node, neighbors)]: when
    the query node is the cell of the query point and the radius is
    smaller than the side of that cell, every stored sample that passes
    the test is returned. *)
Lemma getNeighbors_node_complete oc it q qn out c :
  octree_ok oc ->
  (0 < TOctreeIterator.m_radius it)%Q ->
  (TOctreeIterator.m_sqradius it
   == TOctreeIterator.m_radius it * TOctreeIterator.m_radius it)%Q ->
  in_cube oc q ->
  cell_of_query oc q qn ->
  (TOctreeIterator.m_radius it
   < cell_size (TOctree.m_depth oc) (TOctree.m_size oc) (getDepth qn))%Q ->
  In c (all_samples (TOctree.m_root oc)) ->
  near it q c = true ->
  In (fst c) (TOctreeIterator.getNeighbors_node it oc q qn out).
Proof.
  intros Hok Hr Hsq Hq (Hqn & Hwfq) Hcell Hc Hnear.
  pose proof (ok_depth _ Hok) as HD. pose proof (ok_size _ Hok) as Hs.
  destruct (wf_samples _ _ _ _ _ _ _ _ c (ok_wf _ Hok) Hc) as (Hin & _).
  destruct Hq as ((Hqx1 & Hqx2) & (Hqy1 & Hqy2) & (Hqz1 & Hqz2)).
  destruct Hin as ((Hux1 & Hux2) & (Huy1 & Huy2) & (Huz1 & Huz2)).
  destruct (near_axes it q c Hr Hsq Hnear)
    as ((Hx1 & Hx2) & (Hy1 & Hy2) & (Hz1 & Hz2)).
  destruct qn as [|f ch]; [congruence|].
  cbn [getDepth] in *.
  pose proof Hwfq as Hwfq0.
  destruct Hwfq as ((Hd & HX & HY & HZ) & (Okx & Oky & Okz) & Hsz & (Hox & Hoy & Hoz)
                    & _).
  assert (Hsq0 : 0 <= m_depth f <= TOctree.m_depth oc) by apply Okx.
  destruct (axis_candidate _ _ it _ _ _ (m_x (m_origin f)) (m_size f)
              (m_depth f) HD Hs Hqx1 Hqx2 Hux1 Hux2 Hsq0 Hox Hsz Hr Hcell
              Hx1 Hx2) as (tx & Htx & Btx & Ctx).
  destruct (axis_candidate _ _ it _ _ _ (m_y (m_origin f)) (m_size f)
              (m_depth f) HD Hs Hqy1 Hqy2 Huy1 Huy2 Hsq0 Hoy Hsz Hr Hcell
              Hy1 Hy2) as (ty & Hty & Bty & Cty).
  destruct (axis_candidate _ _ it _ _ _ (m_z (m_origin f)) (m_size f)
              (m_depth f) HD Hs Hqz1 Hqz2 Huz1 Huz2 Hsq0 Hoz Hsz Hr Hcell
              Hz1 Hz2) as (tz & Htz & Btz & Ctz).
  destruct (traverse_root_spec oc tx ty tz (m_depth f) Hok Btx Bty Btz
              ltac:(lia)) as (Hm & _ & _ & Hwfm & _ & Hcomp & _).
  destruct (Hcomp c ltac:(lia) Hc) as (Hdm & Hcm).
  { repeat split; symmetry; assumption. }
  rewrite getNeighbors_node_eq. apply in_or_app. right.
  apply in_flat_map.
  exists (TOctreeIterator.traverseToLevel (TOctree.getRoot oc) tx ty tz
            (m_depth f)).
  split.
  - rewrite explored_nodes_eq. apply in_candidates.
    exists tx, ty, tz. cbn [getDepth].
    repeat split; try assumption.
    + unfold TOctreeIterator.xloc_list, TOctreeIterator.getXLeftCode,
        TOctreeIterator.getXRightCode, TOctree.getOrigin, TOctree.getSize.
      cbn [getOrigin getSize getXLoc getDepth]. rewrite HX. exact Htx.
    + unfold TOctreeIterator.yloc_list, TOctreeIterator.getYLeftCode,
        TOctreeIterator.getYRightCode, TOctree.getOrigin, TOctree.getSize.
      cbn [getOrigin getSize getYLoc getDepth]. rewrite HY. exact Hty.
    + unfold TOctreeIterator.zloc_list, TOctreeIterator.getZLeftCode,
        TOctreeIterator.getZRightCode, TOctree.getOrigin, TOctree.getSize.
      cbn [getOrigin getSize getZLoc getDepth]. rewrite HZ. exact Htz.
  - rewrite (explore_eq _ _ _ it q _ _ _ _ _ Hwfm).
    apply in_map. apply filter_In. split; assumption.
Qed.

(** ** [floor(log2(d))] and [setR] *)

Lemma inject_pow2_pos (n : Z) : 0 <= n -> (0 < inject_Z (2 ^ n))%Q.
Proof.
  intros H. change 0%Q with (inject_Z 0). rewrite <- Zlt_Qlt.
  now apply pow2_pos.
Qed.

(** [floor_log2 d] is the integer [e] with 2^e <= d < 2^(e+1). *)
Lemma floor_log2_spec (d : Q) :
  (0 < d)%Q ->
  let e := floor_log2 d in
  (0 <= e -> (inject_Z (2 ^ e) <= d /\ d < inject_Z (2 ^ (e + 1)))%Q)
  /\ (e < 0 -> (1 <= d * inject_Z (2 ^ (- e))
               /\ d * inject_Z (2 ^ (- e)) < 2)%Q).
Proof.
  intros Hd. cbv zeta. unfold floor_log2.
  destruct (Qle_bool 1 d) eqn:E1.
  - apply Qle_bool_iff in E1.
    assert (Hn : 1 <= Qfloor d).
    { change 1 with (Qfloor 1). now apply Qfloor_resp_le. }
    pose proof (Z.log2_spec (Qfloor d) ltac:(lia)) as (L1 & L2).
    pose proof (Z.log2_nonneg (Qfloor d)) as L0.
    pose proof (Qfloor_le d) as F1. pose proof (Qlt_floor d) as F2.
    split; [|lia]. intros _. split.
    + eapply Qle_trans; [|exact F1]. now rewrite <- Zle_Qle.
    + eapply Qlt_le_trans; [exact F2|]. rewrite <- Zle_Qle.
      replace (Z.log2 (Qfloor d) + 1) with (Z.succ (Z.log2 (Qfloor d))) by lia.
      lia.
  - assert (Hd1 : (d < 1)%Q).
    { apply Qnot_le_lt. intros H. apply Qle_bool_iff in H. congruence. }
    assert (E2 : Qltb 0 d = true) by now apply Qltb_lt.
    rewrite E2.
    set (y := (/ d)%Q).
    assert (Hy : (d * y == 1)%Q) by (unfold y; field; lra).
    assert (Hy1 : (1 < y)%Q).
    { assert (y * d < y * 1)%Q; [|lra].
      apply Qmult_lt_l; [|exact Hd1].
      unfold y. now apply Qinv_lt_0_compat. }
    pose proof (Qle_ceiling y) as C1. pose proof (Qceiling_lt y) as C2.
    assert (Hn : 2 <= Qceiling y).
    { assert (inject_Z 1 < inject_Z (Qceiling y))%Q
        by (change (inject_Z 1) with 1%Q; lra).
      rewrite <- Zlt_Qlt in H. lia. }
    pose proof (Z.log2_up_spec (Qceiling y) ltac:(lia)) as (U1 & U2).
    pose proof (Z.log2_up_pos (Qceiling y) ltac:(lia)) as U0.
    set (m := Z.log2_up (Qceiling y)) in *.
    split; [lia|]. intros _. rewrite Z.opp_involutive.
    assert (P1 : (y <= inject_Z (2 ^ m))%Q).
    { eapply Qle_trans; [exact C1|]. now rewrite <- Zle_Qle. }
    assert (P2 : (inject_Z (2 ^ (m - 1)) < y)%Q).
    { eapply Qle_lt_trans; [|exact C2]. rewrite <- Zle_Qle.
      replace (m - 1) with (Z.pred m) by lia. lia. }
    assert (P3 : (inject_Z (2 ^ m) == 2 * inject_Z (2 ^ (m - 1)))%Q).
    { rewrite (pow2_split m) by lia. now rewrite inject_Z_mult. }
    assert (M1 : (d * y <= d * inject_Z (2 ^ m))%Q)
      by (apply Qmult_le_l; assumption).
    assert (M2 : (d * inject_Z (2 ^ (m - 1)) < d * y)%Q)
      by (apply Qmult_lt_l; assumption).
    split; [lra|]. rewrite P3. lra.
Qed.

Lemma floor_log2_ge_m1 (d : Q) : ((1 # 2) < d)%Q -> -1 <= floor_log2 d.
Proof.
  intros Hd. destruct (floor_log2_spec d ltac:(lra)) as (_ & H).
  cbv zeta in H. destruct (Z_lt_le_dec (floor_log2 d) (-1)) as [Hlt|]; [|lia].
  destruct (H ltac:(lia)) as (_ & H2).
  set (e := floor_log2 d) in *.
  assert (4 <= 2 ^ (- e)).
  { change 4 with (2 ^ 2). apply pow2_le_mono. lia. }
  assert (inject_Z 4 <= inject_Z (2 ^ (- e)))%Q by now rewrite <- Zle_Qle.
  assert (d * inject_Z 4 <= d * inject_Z (2 ^ (- e)))%Q
    by (apply Qmult_le_l; [lra|assumption]).
  change (inject_Z 4) with 4%Q in *. lra.
Qed.

Lemma cell_size_mono D size k k' :
  (0 < size)%Q -> 0 <= D -> 0 <= k <= k' ->
  (cell_size D size k <= cell_size D size k')%Q.
Proof.
  intros Hs HD Hk. unfold cell_size.
  apply Qmult_le_compat_r.
  - rewrite <- Zle_Qle. now apply pow2_le_mono.
  - unfold leaf_size. apply Qlt_le_weak, Qlt_shift_div_l; [|lra].
    now apply inject_pow2_pos.
Qed.

(** What a successful [setR] leaves in the iterator, when the conversion
    of the depth to [unsigned int] is defined. *)
Lemma setR_true it0 oc r :
  0 <= TOctree.m_depth oc <= 31 ->
  (0 < r)%Q -> (r < TOctree.m_size oc)%Q ->
  floor_log2 (TOctree.m_size oc / (2 * r)) <= TOctree.m_depth oc ->
  let it := snd (TOctreeIterator.setR it0 oc r) in
  fst (TOctreeIterator.setR it0 oc r) = true
  /\ TOctreeIterator.m_radius it = r
  /\ TOctreeIterator.m_sqradius it = (r * r)%Q
  /\ TOctreeIterator.m_activeDepth it
     = TOctree.m_depth oc - floor_log2 (TOctree.m_size oc / (2 * r))
  /\ 0 <= TOctreeIterator.m_activeDepth it <= TOctree.m_depth oc + 1.
Proof.
  intros HD Hr0 Hr1 He. cbv zeta. unfold TOctreeIterator.setR, TOctree.getSize,
    TOctree.getDepth.
  assert (E : Qltb r (TOctree.m_size oc) = true) by now apply Qltb_lt.
  rewrite E. cbn [fst snd TOctreeIterator.m_radius TOctreeIterator.m_sqradius
                  TOctreeIterator.m_activeDepth].
  set (e := floor_log2 (TOctree.m_size oc / (2 * r))) in *.
  assert (He1 : -1 <= e).
  { apply floor_log2_ge_m1. apply Qlt_shift_div_l; lra. }
  assert (Hd : double_to_uint (inject_Z (TOctree.m_depth oc) - inject_Z e)
               = TOctree.m_depth oc - e).
  { apply double_to_uint_floor; [lia| |].
    - unfold Z.sub. rewrite inject_Z_plus, inject_Z_opp. lra_opaque.
    - replace (TOctree.m_depth oc - e + 1) with (TOctree.m_depth oc + 1 + - e)
        by lia.
      rewrite !inject_Z_plus, inject_Z_opp.
      change (inject_Z 1) with 1%Q. lra_opaque. }
  rewrite Hd. repeat split; lia.
Qed.

(** After a successful [setR], the radius is smaller than the side of the
    cells of the active depth, or of the root when the active depth is
    above it. *)
Lemma setR_cell_size it0 oc r :
  0 <= TOctree.m_depth oc <= 31 ->
  (0 < r)%Q -> (r < TOctree.m_size oc)%Q ->
  floor_log2 (TOctree.m_size oc / (2 * r)) <= TOctree.m_depth oc ->
  let it := snd (TOctreeIterator.setR it0 oc r) in
  forall k,
    Z.min (TOctreeIterator.m_activeDepth it) (TOctree.m_depth oc) <= k
    <= TOctree.m_depth oc ->
    (r < cell_size (TOctree.m_depth oc) (TOctree.m_size oc) k)%Q.
Proof.
  intros HD Hr0 Hr1 He it k Hk.
  destruct (setR_true it0 oc r HD Hr0 Hr1 He) as (_ & _ & _ & Hd & Hd').
  fold it in Hd, Hd'. rewrite Hd in Hk.
  set (e := floor_log2 (TOctree.m_size oc / (2 * r))) in *.
  set (D := TOctree.m_depth oc) in *. set (size := TOctree.m_size oc) in *.
  assert (Hs : (0 < size)%Q) by lra.
  destruct (Z_lt_le_dec e 0) as [Hneg|Hpos].
  - (* the active depth is above the root *)
    assert (k = D) by lia. subst k.
    rewrite (cell_size_root D size) by (assumption || lia). exact Hr1.
  - eapply Qlt_le_trans;
      [|apply (cell_size_mono D size (D - e) k); [assumption|lia|lia]].
    destruct (floor_log2_spec (size / (2 * r))) as (H & _).
    { apply Qlt_shift_div_l; lra. }
    destruct (H Hpos) as (H1 & _). fold e in H1.
    (* 2^e <= size / (2 r), and the cell of depth D - e has side size / 2^e *)
    assert (Hp : (0 < inject_Z (2 ^ e))%Q) by now apply inject_pow2_pos.
    assert (Hp' : (0 < inject_Z (2 ^ (D - e)))%Q)
      by (apply inject_pow2_pos; lia).
    assert (Hsplit : (inject_Z (2 ^ D)
                      == inject_Z (2 ^ (D - e)) * inject_Z (2 ^ e))%Q).
    { rewrite <- inject_Z_mult, <- Z.pow_add_r by lia.
      now replace (D - e + e) with D by lia. }
    assert (Hc : (cell_size D size (D - e) * inject_Z (2 ^ e) == size)%Q).
    { unfold cell_size, leaf_size. rewrite Hsplit. field. split; lra. }
    assert (H2 : (inject_Z (2 ^ e) * (2 * r) <= size)%Q).
    { assert (inject_Z (2 ^ e) * (2 * r) <= size / (2 * r) * (2 * r))%Q
        by (apply Qmult_le_compat_r; lra).
      assert (size / (2 * r) * (2 * r) == size)%Q by (field; lra).
      lra_opaque. }
    assert (H3 : (r * inject_Z (2 ^ e) < cell_size D size (D - e) * inject_Z (2 ^ e))%Q)
      by (rewrite Hc; lra_opaque).
    apply Qmult_lt_r in H3; assumption.
Qed.

(** ** [locatePointNode] *)

Lemma u32_range (z : Z) : 0 <= u32 z < 2 ^ 32.
Proof. unfold u32. apply Z.mod_pos_bound. lia. Qed.

Lemma double_to_uint_nonneg (d : Q) : 0 <= double_to_uint d.
Proof. unfold double_to_uint. apply u32_range. Qed.

Lemma computeCode_eq oc q :
  octree_ok oc -> in_cube oc q ->
  TOctreeIterator.computeCode oc q
  = (code (TOctree.m_depth oc) (TOctree.m_size oc) (m_x q)
       (m_x (TOctree.m_origin oc)),
     code (TOctree.m_depth oc) (TOctree.m_size oc) (m_y q)
       (m_y (TOctree.m_origin oc)),
     code (TOctree.m_depth oc) (TOctree.m_size oc) (m_z q)
       (m_z (TOctree.m_origin oc))).
Proof.
  intros Hok ((Hx1 & Hx2) & (Hy1 & Hy2) & (Hz1 & Hz2)).
  unfold TOctreeIterator.computeCode, TOctree.getOrigin.
  now rewrite !computeCode1_eq.
Qed.

(** [locatePointNode] returns the cell that contains the point, at the
    active depth or above it where the tree stops. *)
Lemma locatePointNode_spec oc it q :
  octree_ok oc -> in_cube oc q ->
  0 <= TOctreeIterator.m_activeDepth it ->
  let qn := TOctreeIterator.locatePointNode it oc q in
  cell_of_query oc q qn
  /\ Z.min (TOctreeIterator.m_activeDepth it) (TOctree.m_depth oc)
     <= getDepth qn <= TOctree.m_depth oc
  /\ (forall c,
       TOctreeIterator.m_activeDepth it <= TOctree.m_depth oc ->
       In c (all_samples (TOctree.m_root oc)) ->
       in_cell (TOctree.m_depth oc) (TOctree.m_origin oc) (TOctree.m_size oc)
         (TOctreeIterator.m_activeDepth it)
         (code (TOctree.m_depth oc) (TOctree.m_size oc) (m_x q)
            (m_x (TOctree.m_origin oc)))
         (code (TOctree.m_depth oc) (TOctree.m_size oc) (m_y q)
            (m_y (TOctree.m_origin oc)))
         (code (TOctree.m_depth oc) (TOctree.m_size oc) (m_z q)
            (m_z (TOctree.m_origin oc)))
         (pos (snd c)) ->
       getDepth qn = TOctreeIterator.m_activeDepth it
       /\ In c (all_samples qn)).
Proof.
  intros Hok Hq Hk. cbv zeta. unfold TOctreeIterator.locatePointNode.
  rewrite computeCode_eq by assumption.
  pose proof (ok_depth _ Hok) as HD. pose proof (ok_size _ Hok) as Hs.
  destruct Hq as ((Hx1 & Hx2) & (Hy1 & Hy2) & (Hz1 & Hz2)).
  destruct (code_bounds _ _ HD Hs _ _ Hx1 Hx2) as (Bx & _).
  destruct (code_bounds _ _ HD Hs _ _ Hy1 Hy2) as (By & _).
  destruct (code_bounds _ _ HD Hs _ _ Hz1 Hz2) as (Bz & _).
  destruct (traverse_root_spec oc _ _ _ _ Hok Bx By Bz Hk)
    as (Hm & Hd1 & Hd2 & Hwfm & _ & Hcomp & Hroot).
  split; [split; assumption|]. split; [|exact Hcomp].
  destruct (Z_le_gt_dec (TOctree.m_depth oc) (TOctreeIterator.m_activeDepth it))
    as [Hle|Hgt]; [|lia].
  rewrite (Hroot Hle), (wf_depth _ _ _ _ _ _ _ _ (ok_wf _ Hok) (ok_root _ Hok)).
  lia.
Qed.

(** The cells of a node are among those of the node the traversal
    started from, on any tree. *)
Lemma traverse_loop_incl (n : ptr) :
  forall l x y z k,
    incl (all_samples (TOctreeIterator.traverseToLevel_loop n l x y z k))
      (all_samples n).
Proof.
  induction n as [|f ch IH]; intros l x y z k; [apply incl_refl|].
  cbn [TOctreeIterator.traverseToLevel_loop].
  destruct (k <? m_depth f); [|apply incl_refl].
  set (ci := u32 _ mod 8).
  assert (Hci : 0 <= ci < 8) by (apply Z.mod_pos_bound; lia).
  destruct (ch ci) eqn:E; [apply incl_refl|].
  rewrite <- E. intros c Hc. apply IH in Hc.
  cbn [all_samples]. apply in_or_app. right.
  apply in_flat_map. exists ci. split; [now apply in_eight|exact Hc].
Qed.

Lemma explored_nodes_incl it oc q qn n :
  In n (TOctreeIterator.explored_nodes it oc q qn) ->
  incl (all_samples n) (all_samples (TOctree.m_root oc)).
Proof.
  rewrite explored_nodes_eq. intros Hn. apply in_candidates in Hn.
  destruct Hn as (xi & yi & zi & _ & _ & _ & -> & _).
  apply traverse_loop_incl.
Qed.

(** ** The overloads with distances *)

Lemma fold_left_proj {A B C : Type} (p : B -> C) (f2 : B -> A -> B)
    (f1 : C -> A -> C) (l : list A) :
  (forall acc x, p (f2 acc x) = f1 (p acc) x) ->
  forall acc, p (fold_left f2 l acc) = fold_left f1 l (p acc).
Proof.
  intros H. induction l as [|x l IH]; intros acc; [reflexivity|].
  simpl. now rewrite IH, H.
Qed.

Lemma explore_dist_fst it q (n : ptr) :
  forall out,
    fst (TOctreeIterator.explore_dist it n q out)
    = TOctreeIterator.explore it n q (fst out).
Proof.
  induction n as [|f ch IH]; intros out; [reflexivity|].
  cbn [TOctreeIterator.explore_dist TOctreeIterator.explore].
  destruct (negb (m_depth f =? 0)).
  - apply fold_left_proj. intros acc i.
    destruct (ch (i mod 8)) eqn:E; [reflexivity|].
    rewrite <- E. apply IH.
  - destruct (negb (m_npts f =? 0)); [|reflexivity].
    apply fold_left_proj. intros acc c. cbv zeta.
    destruct (Qltb _ _); reflexivity.
Qed.

Lemma getNeighbors_node_dist_fst it oc q qn out :
  fst (TOctreeIterator.getNeighbors_node_dist it oc q qn out)
  = TOctreeIterator.getNeighbors_node it oc q qn (fst out).
Proof.
  unfold TOctreeIterator.getNeighbors_node_dist,
    TOctreeIterator.getNeighbors_node, TOctreeIterator.look_inside.
  destruct (getDepth qn =? TOctreeIterator.m_activeDepth it);
    apply fold_left_proj; intros acc1 xi;
    apply fold_left_proj; intros acc2 yi;
    apply fold_left_proj; intros acc3 zi; cbv zeta;
    destruct (negb _ && _); try reflexivity; apply explore_dist_fst.
Qed.

(** ** The samples stored in a built octree *)

Lemma in_cells_from (pts : list Sample) :
  forall n a s,
    In (a, s) (cells_from n pts)
    <-> (n <= a)%nat /\ nth_error pts (a - n) = Some s.
Proof.
  unfold cells_from.
  induction pts as [|p pts IH]; intros n a s; simpl.
  - split; [tauto|]. intros (_ & H). destruct (a - n)%nat; discriminate.
  - rewrite IH. split.
    + intros [E|(Hle & Hnth)].
      * inversion E; subst. rewrite Nat.sub_diag. split; [lia|reflexivity].
      * split; [lia|]. replace (a - n)%nat with (S (a - S n)) by lia.
        exact Hnth.
    + intros (Hle & Hnth). destruct (Nat.eq_dec a n) as [->|Hne].
      * rewrite Nat.sub_diag in Hnth. simpl in Hnth. left. congruence.
      * right. split; [lia|].
        replace (a - n)%nat with (S (a - S n)) in Hnth by lia. exact Hnth.
Qed.

(** In a built octree the cell of address [a] holds the [a]-th sample of
    the batch. *)
Lemma built_stored D origin size pts a s :
  build_ok D origin size pts ->
  In (a, s) (all_samples (TOctree.m_root (built D origin size pts)))
  <-> nth_error pts a = Some s.
Proof.
  intros Hb. destruct (built_ok _ _ _ _ Hb) as (_ & Hperm).
  rewrite <- (Nat.sub_0_r a) at 2.
  split.
  - intros H. apply (Permutation_in _ Hperm) in H.
    apply in_cells_from in H. tauto.
  - intros H. apply (Permutation_in _ (Permutation_sym Hperm)).
    apply in_cells_from. split; [lia|exact H].
Qed.

Lemma built_in_cube D origin size pts q :
  in_cube (built D origin size pts) q <-> inside origin size q.
Proof.
  unfold in_cube. destruct (built_params D origin size pts) as (_ & -> & ->).
  reflexivity.
Qed.

(** ** Neighbour queries *)


(** Decides a comparison of two explicit rationals. *)
Ltac q_dec := unfold Qle, Qlt; simpl; lia.

(** Proves that an explicit point lies in an explicit cube. *)
Ltac inside_dec := unfold inside; simpl; repeat split; q_dec.

(** Proves [build_ok] for explicit data. *)
Ltac build_dec :=
  constructor;
  [lia | q_dec | repeat constructor; inside_dec | simpl; lia].



Lemma getNeighbors_node_sound D origin size pts it q qn out :
  build_ok D origin size pts ->
  exists l,
    TOctreeIterator.getNeighbors_node it (built D origin size pts) q qn out
    = out ++ l
    /\ Forall (strictly_within pts it q) l.
Proof.
  intros Hb. rewrite getNeighbors_node_eq. eexists. split; [reflexivity|].
  apply List.Forall_forall. intros a Ha.
  apply in_flat_map in Ha. destruct Ha as (n & Hn & Ha).
  apply explore_sound in Ha. destruct Ha as (s & Hs & Hnear).
  apply (explored_nodes_incl _ _ _ _ _ Hn) in Hs.
  exists s. split; [now apply (built_stored D origin size)|].
  now apply Qltb_lt.
Qed.

(** C3.  Neighbour soundness.  In a built octree, every address that one
    of the four overloads of [getNeighbors] appends to the output list is
    that of a sample whose squared distance to the query is strictly
    below the squared radius of the iterator; a sample at distance
    exactly r is therefore not appended. *)
Theorem neighbor_soundness (D : Z) (origin : Point) (size : Q)
    (pts : list Sample) (it : TOctreeIterator.t) (q : Point) (qn : ptr)
    (out : list addr) (outd : list addr * list Q) :
  build_ok D origin size pts ->
  let oc := built D origin size pts in
  (exists l, TOctreeIterator.getNeighbors it oc q out = out ++ l
             /\ Forall (strictly_within pts it q) l)
  /\ (exists l, TOctreeIterator.getNeighbors_node it oc q qn out = out ++ l
                /\ Forall (strictly_within pts it q) l)
  /\ (exists l, fst (TOctreeIterator.getNeighbors_dist it oc q outd)
                = fst outd ++ l
                /\ Forall (strictly_within pts it q) l)
  /\ (exists l, fst (TOctreeIterator.getNeighbors_node_dist it oc q qn outd)
                = fst outd ++ l
                /\ Forall (strictly_within pts it q) l).
Proof.
  intros Hb oc.
  unfold TOctreeIterator.getNeighbors, TOctreeIterator.getNeighbors_dist.
  rewrite !getNeighbors_node_dist_fst.
  repeat split; now apply getNeighbors_node_sound.
Qed.

Lemma neighbor_soundness_witness :
  let pts := [Sample_xyz (1 # 8) (1 # 8) (1 # 8);
              Sample_xyz (3 # 8) (1 # 8) (1 # 8)] in
  let oc := built 2 (mkPoint 0 0 0) 1 pts in
  let it := snd (TOctreeIterator.setR (TOctreeIterator.new oc) oc (3 # 10)) in
  let q := mkPoint (1 # 4) (1 # 8) (1 # 8) in
  exists l, TOctreeIterator.getNeighbors it oc q [7%nat] = [7%nat] ++ l
            /\ Forall (strictly_within pts it q) l.
Proof.
  exact (proj1 (neighbor_soundness 2 (mkPoint 0 0 0) 1
                  [Sample_xyz (1 # 8) (1 # 8) (1 # 8);
                   Sample_xyz (3 # 8) (1 # 8) (1 # 8)]
                  (snd (TOctreeIterator.setR
                          (TOctreeIterator.new
                             (built 2 (mkPoint 0 0 0) 1
                                [Sample_xyz (1 # 8) (1 # 8) (1 # 8);
                                 Sample_xyz (3 # 8) (1 # 8) (1 # 8)]))
                          (built 2 (mkPoint 0 0 0) 1
                             [Sample_xyz (1 # 8) (1 # 8) (1 # 8);
                              Sample_xyz (3 # 8) (1 # 8) (1 # 8)])
                          (3 # 10)))
                  (mkPoint (1 # 4) (1 # 8) (1 # 8)) NULL [7%nat] ([], [])
                  ltac:(build_dec))).
Defined.

(** The test is strict: with r = 1/8, the two samples at distance exactly
    1/8 of the query are not returned. *)
Example neighbor_at_radius_excluded :
  let pts := [Sample_xyz (1 # 8) (1 # 8) (1 # 8);
              Sample_xyz (3 # 8) (1 # 8) (1 # 8)] in
  let oc := built 2 (mkPoint 0 0 0) 1 pts in
  let it := snd (TOctreeIterator.setR (TOctreeIterator.new oc) oc (1 # 8)) in
  TOctreeIterator.getNeighbors it oc (mkPoint (1 # 4) (1 # 8) (1 # 8)) [] = [].
Proof. vm_compute. reflexivity. Qed.

(** ** [setR] *)




(** ** The level of the search *)

(** C6, counterexample.  With r = 6/10 in an octree of depth 1 and side
    1, the active depth is 2; [performSelection] then passes the root
    (depth 1) as query node, and [explore] is called on the root, of depth
    1, not max(1, 2) = 2. *)
Lemma search_level_counterexample :
  let oc := built 1 (mkPoint 0 0 0) 1 [Sample_xyz (1 # 4) (1 # 4) (1 # 4)] in
  let it := snd (TOctreeIterator.setR (TOctreeIterator.new oc) oc (6 # 10)) in
  let qn := TOctree.getRoot oc in
  getDepth qn <> TOctreeIterator.m_activeDepth it
  /\ map getDepth
       (TOctreeIterator.explored_nodes it oc (mkPoint (1 # 4) (1 # 4) (1 # 4))
          qn) = [1]
  /\ Z.max (getDepth qn) (TOctreeIterator.m_activeDepth it) = 2.
Proof. vm_compute. repeat split; congruence. Qed.

(** C6, amended.  Whatever its depth, the nodes that
    [getNeighbors(query, query_node, ...)] passes to [explore] all have
    the depth of the query node. *)
Theorem search_level (it : TOctreeIterator.t) (oc : TOctree.t) (q : Point)
    (qn : ptr) :
  Forall (fun n => getDepth n = getDepth qn)
    (TOctreeIterator.explored_nodes it oc q qn).
Proof.
  apply List.Forall_forall. intros n Hn. rewrite explored_nodes_eq in Hn.
  apply in_candidates in Hn. destruct Hn as (_ & _ & _ & _ & _ & _ & _ & _ & H).
  exact H.
Qed.

(** ** Round trip *)





(** ** Locational codes *)






(** The octree of the witness has five nodes: the root, and a cell of
    depth 1 and a leaf for each of the two samples. *)
Example nodes_example :
  map (fun n => (getDepth n, getXLoc n, getYLoc n, getZLoc n))
    (nodes (TOctree.getRoot
              (built 2 (mkPoint 0 0 0) 1
                 [Sample_xyz (1 # 8) (1 # 8) (1 # 8);
                  Sample_xyz (7 # 8) (1 # 8) (3 # 8)])))
  = [(2, 0, 0, 0); (1, 0, 0, 0); (0, 0, 0, 0); (1, 2, 0, 0); (0, 3, 0, 1)].
Proof. vm_compute. reflexivity. Qed.

(** ** The cells of a level and their buckets *)


Lemma getNodes_app k (n : ptr) :
  forall acc, TOctree.getNodes k n acc = acc ++ TOctree.getNodes k n [].
Proof.
  induction n as [|f ch IH]; intros acc; [simpl; now rewrite app_nil_r|].
  cbn [TOctree.getNodes].
  destruct (m_depth f =? k); [reflexivity|].
  set (g := fun i : Z => TOctree.getNodes k (ch (i mod 8)) []).
  rewrite !(fold_left_append _ g); [reflexivity| |];
    intros i acc' _; unfold g; rewrite (IH (i mod 8) acc');
    destruct (ch (i mod 8)); simpl; now rewrite ?app_nil_r.
Qed.

Lemma getNodes_children k f ch :
  m_depth f <> k ->
  TOctree.getNodes k (Node f ch) []
  = flat_map (fun i => TOctree.getNodes k (ch i) []) eight.
Proof.
  intros Hd. cbn [TOctree.getNodes].
  destruct (Z.eqb_spec (m_depth f) k); [contradiction|].
  rewrite (fold_left_append _ (fun i => TOctree.getNodes k (ch i) [])).
  - reflexivity.
  - intros i acc Hi. apply in_eight in Hi. rewrite Z.mod_small by exact Hi.
    rewrite getNodes_app. destruct (ch i); simpl; now rewrite ?app_nil_r.
Qed.

Lemma NoDup_flat_map_disjoint {A B : Type} (f : A -> list B) (l : list A) :
  List.NoDup l ->
  (forall x, In x l -> List.NoDup (f x)) ->
  (forall x y b, In x l -> In y l -> x <> y -> In b (f x) -> ~ In b (f y)) ->
  List.NoDup (flat_map f l).
Proof.
  induction l as [|x l IH]; intros Hl Hf Hd; [constructor|].
  inversion Hl as [|? ? Hx Hl']; subst. simpl.
  apply List.NoDup_app.
  - apply Hf. now left.
  - apply IH; [exact Hl'| |].
    + intros y Hy. apply Hf. now right.
    + intros y z b Hy Hz. apply Hd; now right.
  - intros b Hb Hb'. apply in_flat_map in Hb'. destruct Hb' as (y & Hy & Hb').
    apply (Hd x y b); [now left|now right| |exact Hb|exact Hb'].
    intros ->. contradiction.
Qed.

Lemma map_of_flat_map {A B C : Type} (f : B -> C) (g : A -> list B)
    (l : list A) :
  map f (flat_map g l) = flat_map (fun x => map f (g x)) l.
Proof.
  induction l as [|x l IH]; [reflexivity|].
  simpl. now rewrite map_app, IH.
Qed.

Lemma bit_of_child (k X b : Z) :
  0 <= k -> X mod 2 ^ (k + 1) = 0 -> 0 <= b < 2 ->
  bit k (X + b * 2 ^ k) = b.
Proof.
  intros Hk HX Hb. unfold bit.
  pose proof (pow2_pos k Hk) as Hp.
  apply Z.mod_divide in HX; [|pose proof (pow2_pos (k + 1)); lia].
  destruct HX as [x ->].
  replace (2 ^ (k + 1)) with (2 * 2 ^ k) by (rewrite Z.pow_add_r by lia; lia).
  replace (x * (2 * 2 ^ k) + b * 2 ^ k) with ((2 * x + b) * 2 ^ k) by ring.
  rewrite Z.div_mul by lia.
  rewrite Z.add_comm, Z.mul_comm, Z.mod_add by lia.
  apply Z.mod_small. exact Hb.
Qed.


Lemma getNodes_spec D origin size k (n : ptr) :
  0 <= k ->
  forall j X Y Zc,
    wf D origin size j X Y Zc n ->
    Forall (level_node k j X Y Zc) (TOctree.getNodes k n [])
    /\ List.NoDup (map loc3 (TOctree.getNodes k n [])).
Proof.
  intros Hk.
  induction n as [|f ch IH]; intros j X Y Zc Hwf;
    [split; constructor|].
  pose proof Hwf as Hwf0.
  destruct Hwf as ((Hd & HX & HY & HZ) & (Okx & Oky & Okz) & Hsz & Ho & Hnp
                   & Hpts & Hleaf & Hch0 & Hch).
  destruct Okx as (Hj & X0 & X1 & XM), Oky as (_ & Y0 & Y1 & YM),
    Okz as (_ & Z0 & Z1 & ZM).
  destruct (Z.eq_dec j k) as [Ejk|Njk].
  - (* the node itself *)
    cbn [TOctree.getNodes]. rewrite Hd, Ejk, Z.eqb_refl. cbn [app map].
    split; [|repeat constructor; simpl; tauto].
    constructor; [|constructor].
    unfold level_node. cbn [getDepth getXLoc getYLoc getZLoc].
    rewrite Hd, HX, HY, HZ, <- Ejk.
    split; [reflexivity|]. split; [tauto|].
    split; [|lia]. repeat split; apply cell_of_fix; (lia || assumption).
  - rewrite getNodes_children by lia.
    destruct (Z.eq_dec j 0) as [Ej0|Nj0].
    { (* a leaf of another depth: no child *)
      unfold eight. simpl. rewrite !Hch0 by exact Ej0. simpl.
      split; constructor. }
    assert (Hj1 : 0 < j) by lia.
    pose proof (pow2_pos (j - 1) ltac:(lia)) as Hp.
    (* the nodes of level k below child i *)
    assert (Hchild : forall i, 0 <= i < 8 ->
              Forall (level_node k j X Y Zc) (TOctree.getNodes k (ch i) [])
              /\ Forall (fun m =>
                    cell_of (getXLoc m) (j - 1)
                    = X + (i / 4) mod 2 * 2 ^ (j - 1)
                    /\ cell_of (getYLoc m) (j - 1)
                       = Y + (i / 2) mod 2 * 2 ^ (j - 1)
                    /\ cell_of (getZLoc m) (j - 1)
                       = Zc + i mod 2 * 2 ^ (j - 1))
                   (TOctree.getNodes k (ch i) [])).
    { intros i Hi. destruct (Hch i Hi) as (Hnc & Hwfi).
      destruct (IH i _ _ _ _ Hwfi) as (HF & _).
      rewrite List.Forall_forall in HF.
      split; apply List.Forall_forall; intros m Hm;
        destruct (HF m Hm) as (Hdm & Hmult & (Cx & Cy & Cz) & Hnm).
      - split; [exact Hdm|]. split; [exact Hmult|].
        assert (Rx : 0 <= (i / 4) mod 2 < 2) by (apply Z.mod_pos_bound; lia).
        assert (Ry : 0 <= (i / 2) mod 2 < 2) by (apply Z.mod_pos_bound; lia).
        assert (Rz : 0 <= i mod 2 < 2) by (apply Z.mod_pos_bound; lia).
        split.
        { split; [|split].
          - apply (cell_of_parent _ j X ((i / 4) mod 2)); assumption.
          - apply (cell_of_parent _ j Y ((i / 2) mod 2)); assumption.
          - apply (cell_of_parent _ j Zc (i mod 2)); assumption. }
        intros Hkj.
        destruct (Z.eq_dec k (j - 1)) as [Ek|Nk]; [|apply Hnm; lia].
        (* the child itself *)
        destruct (ch i) as [|fi chi] eqn:E; [destruct Hm|].
        destruct Hwfi as ((Hdi & HXi & HYi & HZi) & _).
        cbn [TOctree.getNodes] in Hm. rewrite Hdi, <- Ek, Z.eqb_refl in Hm.
        destruct Hm as [<-|[]].
        rewrite (Hnc ltac:(congruence)). f_equal.
        unfold parity_index. cbn [getXLoc getYLoc getZLoc].
        rewrite HXi, HYi, HZi, <- Ek.
        rewrite !bit_of_child; try assumption;
          try (replace (k + 1) with j by lia; assumption).
        now apply index_of_bits.
      - tauto. }
    split.
    + apply List.Forall_forall. intros m Hm. apply in_flat_map in Hm.
      destruct Hm as (i & Hi & Hm). apply in_eight in Hi.
      destruct (Hchild i Hi) as (HF & _).
      rewrite List.Forall_forall in HF. now apply HF.
    + rewrite map_of_flat_map.
      apply NoDup_flat_map_disjoint.
      * apply NoDup_eight.
      * intros i Hi. apply in_eight in Hi.
        destruct (Hch i Hi) as (_ & Hwfi).
        now destruct (IH i _ _ _ _ Hwfi) as (_ & Hnd).
      * intros i i' c Hi Hi' Hne Hc Hc'.
        apply in_eight in Hi. apply in_eight in Hi'.
        apply in_map_iff in Hc. destruct Hc as (m & <- & Hm).
        apply in_map_iff in Hc'. destruct Hc' as (m' & Em & Hm').
        destruct (Hchild i Hi) as (_ & HF).
        destruct (Hchild i' Hi') as (_ & HF').
        rewrite List.Forall_forall in HF, HF'.
        destruct (HF m Hm) as (Cx & Cy & Cz).
        destruct (HF' m' Hm') as (Cx' & Cy' & Cz').
        unfold loc3 in Em. inversion Em as [[Ex Ey Ez]].
        rewrite Ex, Cx in Cx'. rewrite Ey, Cy in Cy'. rewrite Ez, Cz in Cz'.
        apply Hne.
        rewrite (index_of_bits i Hi), (index_of_bits i' Hi'). nia.
Qed.


Lemma push_bucket_spec (B B' : list (list ptr)) (n : ptr) :
  TOctree.push_bucket B n = Some B' ->
  forall b,
    B' !! b
    = (fun bucket => bucket ++ List.filter (has_nchild b) [n]) <$> B !! b.
Proof.
  unfold TOctree.push_bucket, has_nchild. cbn [List.filter].
  destruct (getNChild n) as [c|]; [|discriminate].
  destruct (B !! Z.to_nat c) as [bucket|] eqn:E; [|discriminate].
  destruct (Z.leb_spec 0 c) as [Hc0|]; [|discriminate].
  destruct (Z.ltb_spec c 8) as [Hc8|]; [|discriminate].
  cbn [andb]. intros [= <-] b.
  destruct (Nat.eq_dec b (Z.to_nat c)) as [->|Hne].
  - rewrite list_lookup_insert_eq by (eapply lookup_lt_Some; eauto).
    rewrite E, Z2Nat.id, Z.eqb_refl by lia. reflexivity.
  - rewrite list_lookup_insert_ne by congruence.
    destruct (Z.eqb_spec c (Z.of_nat b)) as [->|_].
    + rewrite Nat2Z.id in Hne. contradiction.
    + destruct (B !! b); simpl; now rewrite ?app_nil_r.
Qed.

Lemma getNodes_pop_spec (ns : list ptr) :
  forall B B',
    TOctree.getNodes_pop ns B = Some B' ->
    forall b,
      B' !! b
      = (fun bucket => bucket ++ List.filter (has_nchild b) ns) <$> B !! b.
Proof.
  induction ns as [|n ns IH]; intros B B' H b.
  - simpl in H. injection H as <-. destruct (B !! b); simpl;
      now rewrite ?app_nil_r.
  - cbn [TOctree.getNodes_pop] in H.
    destruct (TOctree.push_bucket B n) as [B1|] eqn:E; [|discriminate].
    rewrite (IH _ _ H b), (push_bucket_spec _ _ _ E b).
    destruct (B !! b); simpl; [|reflexivity].
    f_equal. rewrite <- app_assoc. f_equal.
    destruct (has_nchild b n); reflexivity.
Qed.

Lemma getNodes_pop_total (ns : list ptr) :
  forall B,
    length B = 8%nat ->
    Forall (fun n => exists c, getNChild n = Some c /\ 0 <= c < 8) ns ->
    exists B', TOctree.getNodes_pop ns B = Some B' /\ length B' = 8%nat.
Proof.
  induction ns as [|n ns IH]; intros B HB Hns; [now exists B|].
  inversion Hns as [|? ? (c & Hc & Hc8) Hns']; subst.
  cbn [TOctree.getNodes_pop]. unfold TOctree.push_bucket. rewrite Hc.
  destruct (lookup_lt_is_Some_2 B (Z.to_nat c) ltac:(lia)) as (bucket & ->).
  destruct (Z.leb_spec 0 c); [|lia]. destruct (Z.ltb_spec c 8); [|lia].
  cbn [andb]. apply IH; [|exact Hns'].
  now rewrite length_insert.
Qed.

(** The bucket [b] of the collection is made of the nodes of the level
    whose child index is [b]. *)
Lemma getNodes_collection_bucket k (root : ptr) buckets b bucket :
  TOctree.getNodes_collection k root [] = Some buckets ->
  buckets !! b = Some bucket ->
  bucket = List.filter (has_nchild b) (rev (TOctree.getNodes k root [])).
Proof.
  unfold TOctree.getNodes_collection. intros H Hb.
  rewrite (getNodes_pop_spec _ _ _ H b) in Hb.
  destruct (([] ++ map (fun _ => []) eight) !! b) as [l|] eqn:E;
    [|discriminate].
  assert (l = []).
  { unfold eight in E. simpl in E.
    do 8 (destruct b as [|b]; [simpl in E; congruence|]).
    simpl in E. discriminate. }
  subst l. simpl in Hb. congruence.
Qed.

Lemma lookup_nth_error {A : Type} (l : list A) :
  forall i, l !! i = nth_error l i.
Proof.
  induction l as [|x l IH]; intros [|i]; try reflexivity. apply IH.
Qed.

Lemma parity_index_range k n : 0 <= parity_index k n < 8.
Proof.
  unfold parity_index, bit.
  pose proof (Z.mod_pos_bound (getXLoc n / 2 ^ k) 2 ltac:(lia)).
  pose proof (Z.mod_pos_bound (getYLoc n / 2 ^ k) 2 ltac:(lia)).
  pose proof (Z.mod_pos_bound (getZLoc n / 2 ^ k) 2 ltac:(lia)).
  lia.
Qed.

(** Two multiples of 2^k of the same parity at bit [k] are equal or at
    least 2 * 2^k apart. *)
Lemma same_parity_apart (k a b : Z) :
  0 <= k -> a mod 2 ^ k = 0 -> b mod 2 ^ k = 0 ->
  bit k a = bit k b -> a <> b ->
  2 * 2 ^ k <= Z.abs (a - b).
Proof.
  intros Hk Ha Hb Hbit Hne. unfold bit in Hbit.
  pose proof (pow2_pos k Hk) as Hp.
  apply Z.mod_divide in Ha; [|lia]. destruct Ha as [x ->].
  apply Z.mod_divide in Hb; [|lia]. destruct Hb as [y ->].
  rewrite !Z.div_mul in Hbit by lia.
  assert (Hxy : x <> y) by congruence.
  pose proof (Z.div_mod x 2 ltac:(lia)). pose proof (Z.div_mod y 2 ltac:(lia)).
  replace (x * 2 ^ k - y * 2 ^ k) with ((x - y) * 2 ^ k) by ring.
  rewrite Z.abs_mul, (Z.abs_eq (2 ^ k)) by lia.
  assert (2 <= Z.abs (x - y)) by lia. nia.
Qed.

(** C9.  Bucket non-adjacency.  In a built octree and for every depth k,
    two nodes that the bucketed [getNodes(k, root, node_collection)] puts
    at two places of the same bucket have locational codes that differ by
    2 * 2^k at least along one axis.  Below the depth of the root the
    call does return the 8 buckets. *)
Theorem bucket_non_adjacency (D : Z) (origin : Point) (size : Q)
    (pts : list Sample) (k : Z) :
  build_ok D origin size pts ->
  0 <= k ->
  let root := TOctree.getRoot (built D origin size pts) in
  (k < D ->
   exists buckets,
     TOctree.getNodes_collection k root [] = Some buckets
     /\ length buckets = 8%nat)
  /\ (forall buckets b bucket i j n1 n2,
        TOctree.getNodes_collection k root [] = Some buckets ->
        buckets !! b = Some bucket ->
        bucket !! i = Some n1 ->
        bucket !! j = Some n2 ->
        i <> j ->
        2 * 2 ^ k <= Z.abs (getXLoc n1 - getXLoc n2)
        \/ 2 * 2 ^ k <= Z.abs (getYLoc n1 - getYLoc n2)
        \/ 2 * 2 ^ k <= Z.abs (getZLoc n1 - getZLoc n2)).
Proof.
  intros Hb Hk root.
  destruct (built_ok _ _ _ _ Hb) as (Hok & _).
  pose proof (ok_wf _ Hok) as Hwf.
  destruct (built_params D origin size pts) as (ED & EO & ES).
  rewrite ED, EO, ES in Hwf. fold root in Hwf.
  destruct (getNodes_spec _ _ _ k root Hk _ _ _ _ Hwf) as (HF & Hnd).
  rewrite List.Forall_forall in HF.
  split.
  - intros HkD. unfold TOctree.getNodes_collection.
    apply getNodes_pop_total; [reflexivity|].
    apply List.Forall_forall. intros n Hn. apply in_rev in Hn.
    destruct (HF n Hn) as (_ & _ & _ & Hnc).
    exists (parity_index k n). split; [now apply Hnc|].
    apply parity_index_range.
  - intros buckets b bucket i j n1 n2 Hcoll Hbucket Hi Hj Hij.
    rewrite (getNodes_collection_bucket _ _ _ _ _ Hcoll Hbucket) in Hi, Hj.
    set (L := List.filter (has_nchild b) (rev (TOctree.getNodes k root []))) in *.
    assert (HndL : List.NoDup (map loc3 L)).
    { unfold L. clear -Hnd.
      apply NoDup_rev in Hnd. rewrite <- map_rev in Hnd.
      induction (rev (TOctree.getNodes k root [])) as [|n l IH];
        [constructor|].
      simpl in Hnd. inversion Hnd as [|? ? Hn Hl]; subst.
      simpl. destruct (has_nchild b n); [|now apply IH].
      simpl. constructor; [|now apply IH].
      intros Hin. apply Hn. apply in_map_iff in Hin.
      destruct Hin as (m & Em & Hm). apply filter_In in Hm.
      apply in_map_iff. exists m. tauto. }
    assert (Hloc : loc3 n1 <> loc3 n2).
    { intros E. apply Hij.
      apply (proj1 (NoDup_nth_error (map loc3 L)) HndL i j).
      - rewrite length_map. eapply lookup_lt_Some; eauto.
      - rewrite !nth_error_map.
        rewrite !lookup_nth_error in Hi, Hj. rewrite Hi, Hj. simpl.
        now rewrite E. }
    assert (Hin1 : In n1 L)
      by (apply list_elem_of_In; eapply list_elem_of_lookup_2; eauto).
    assert (Hin2 : In n2 L)
      by (apply list_elem_of_In; eapply list_elem_of_lookup_2; eauto).
    apply filter_In in Hin1. destruct Hin1 as (Hin1 & Hb1).
    apply filter_In in Hin2. destruct Hin2 as (Hin2 & Hb2).
    apply in_rev in Hin1. apply in_rev in Hin2.
    destruct (HF n1 Hin1) as (_ & (Mx1 & My1 & Mz1) & (Cx1 & Cy1 & Cz1) & Hn1).
    destruct (HF n2 Hin2) as (_ & (Mx2 & My2 & Mz2) & (Cx2 & Cy2 & Cz2) & Hn2).
    assert (HD : 0 <= D <= 31) by (rewrite <- ED; apply Hok).
    destruct (Z_lt_le_dec k D) as [HkD|HkD].
    + (* same child index, hence the same parity along every axis *)
      unfold has_nchild in Hb1, Hb2.
      rewrite (Hn1 HkD) in Hb1. rewrite (Hn2 HkD) in Hb2.
      apply Z.eqb_eq in Hb1. apply Z.eqb_eq in Hb2.
      assert (Hpar : parity_index k n1 = parity_index k n2) by congruence.
      unfold parity_index in Hpar.
      pose proof (Z.mod_pos_bound (getXLoc n1 / 2 ^ k) 2 ltac:(lia)).
      pose proof (Z.mod_pos_bound (getYLoc n1 / 2 ^ k) 2 ltac:(lia)).
      pose proof (Z.mod_pos_bound (getZLoc n1 / 2 ^ k) 2 ltac:(lia)).
      pose proof (Z.mod_pos_bound (getXLoc n2 / 2 ^ k) 2 ltac:(lia)).
      pose proof (Z.mod_pos_bound (getYLoc n2 / 2 ^ k) 2 ltac:(lia)).
      pose proof (Z.mod_pos_bound (getZLoc n2 / 2 ^ k) 2 ltac:(lia)).
      unfold bit in Hpar.
      assert (Bx : bit k (getXLoc n1) = bit k (getXLoc n2))
        by (unfold bit; lia).
      assert (By : bit k (getYLoc n1) = bit k (getYLoc n2))
        by (unfold bit; lia).
      assert (Bz : bit k (getZLoc n1) = bit k (getZLoc n2))
        by (unfold bit; lia).
      destruct (Z.eq_dec (getXLoc n1) (getXLoc n2)) as [Ex|Nx];
        [|left; now apply same_parity_apart].
      destruct (Z.eq_dec (getYLoc n1) (getYLoc n2)) as [Ey|Ny];
        [|right; left; now apply same_parity_apart].
      destruct (Z.eq_dec (getZLoc n1) (getZLoc n2)) as [Ez|Nz];
        [|right; right; now apply same_parity_apart].
      exfalso. apply Hloc. unfold loc3. congruence.
    + (* at the depth of the root or above it, one node at most *)
      exfalso. apply Hloc.
      assert (Hzero : forall c, c mod 2 ^ k = 0 -> cell_of c D = 0 -> c = 0).
      { intros c Hm Hc.
        pose proof (cell_of_range c D ltac:(lia)) as R. rewrite Hc in R.
        pose proof (pow2_le_mono D k ltac:(lia)).
        pose proof (pow2_pos D ltac:(lia)).
        pose proof (pow2_pos k Hk).
        apply Z.mod_divide in Hm; [|lia]. destruct Hm as [x ->].
        assert (0 <= x) by nia. assert (x < 1) by nia.
        replace x with 0 by lia. reflexivity. }
      unfold loc3.
      rewrite (Hzero _ Mx1 Cx1), (Hzero _ My1 Cy1), (Hzero _ Mz1 Cz1).
      rewrite (Hzero _ Mx2 Cx2), (Hzero _ My2 Cy2), (Hzero _ Mz2 Cz2).
      reflexivity.
Qed.

(** The leaves of two samples that are two leaves apart along x: both have
    child index 0 and go to the same bucket. *)
Example buckets_example :
  let pts := [Sample_xyz (1 # 8) (1 # 8) (1 # 8);
              Sample_xyz (5 # 8) (1 # 8) (1 # 8);
              Sample_xyz (3 # 8) (1 # 8) (1 # 8)] in
  let root := TOctree.getRoot (built 2 (mkPoint 0 0 0) 1 pts) in
  option_map (map (map loc3)) (TOctree.getNodes_collection 0 root [])
  = Some [[(2, 0, 0); (0, 0, 0)]; []; []; []; [(1, 0, 0)]; []; []; []].
Proof. vm_compute. reflexivity. Qed.

Lemma bucket_non_adjacency_witness :
  let pts := [Sample_xyz (1 # 8) (1 # 8) (1 # 8);
              Sample_xyz (5 # 8) (1 # 8) (1 # 8);
              Sample_xyz (3 # 8) (1 # 8) (1 # 8)] in
  let root := TOctree.getRoot (built 2 (mkPoint 0 0 0) 1 pts) in
  exists buckets bucket n1 n2,
    TOctree.getNodes_collection 0 root [] = Some buckets
    /\ buckets !! 0%nat = Some bucket
    /\ bucket !! 0%nat = Some n1
    /\ bucket !! 1%nat = Some n2
    /\ (2 * 2 ^ 0 <= Z.abs (getXLoc n1 - getXLoc n2)
        \/ 2 * 2 ^ 0 <= Z.abs (getYLoc n1 - getYLoc n2)
        \/ 2 * 2 ^ 0 <= Z.abs (getZLoc n1 - getZLoc n2)).
Proof.
  cbv zeta. eexists _, _, _, _.
  split; [vm_compute; reflexivity|].
  split; [reflexivity|]. split; [reflexivity|]. split; [reflexivity|].
  eapply (proj2 (bucket_non_adjacency 2 (mkPoint 0 0 0) 1
                   [Sample_xyz (1 # 8) (1 # 8) (1 # 8);
                    Sample_xyz (5 # 8) (1 # 8) (1 # 8);
                    Sample_xyz (3 # 8) (1 # 8) (1 # 8)] 0
                   ltac:(build_dec) ltac:(lia)) _ 0%nat _ 0%nat 1%nat);
    [vm_compute; reflexivity|reflexivity|reflexivity|reflexivity|lia].
Defined.

(** ** No sample is returned twice *)

Lemma NoDup_map_inj {A B : Type} (f : A -> B) (l : list A) (x y : A) :
  List.NoDup (map f l) -> In x l -> In y l -> f x = f y -> x = y.
Proof.
  induction l as [|z l IH]; intros Hnd Hx Hy E; [destruct Hx|].
  simpl in Hnd. inversion Hnd as [|? ? Hz Hl]; subst.
  destruct Hx as [->|Hx], Hy as [->|Hy]; try reflexivity.
  - exfalso. apply Hz. rewrite E. now apply in_map.
  - exfalso. apply Hz. rewrite <- E. now apply in_map.
  - now apply IH.
Qed.

(** Along one axis the candidate codes are codes of the octree and
    designate pairwise distinct cells of the level of the query node. *)
Lemma axis_codes_distinct (D : Z) (size : Q) (it : TOctreeIterator.t)
    (o q no nsize : Q) (sq X : Z) :
  0 <= D <= 31 -> (0 < size)%Q ->
  cell_ok D sq X ->
  (no == o + inject_Z X * leaf_size D size)%Q ->
  (nsize == cell_size D size sq)%Q ->
  let l := TOctreeIterator.axis_codes it q no nsize o size X (u32 (X - 1))
             (u32 (X + u32 (pow2 sq))) in
  Forall (fun t => 0 <= t < 2 ^ D) l
  /\ List.NoDup (map (fun t => cell_of t sq) l).
Proof.
  intros HD Hs (Hsq & X0 & X1 & XM) Hno Hns l.
  set (L := leaf_size D size) in *.
  set (P := 2 ^ sq) in *.
  set (r := TOctreeIterator.m_radius it) in *.
  assert (HL : (0 < L)%Q) by now apply leaf_size_pos.
  assert (HP : 0 < P) by (apply pow2_pos; lia).
  pose proof (pow2_lt_32 D HD) as HD32.
  assert (Hsize : (inject_Z (2 ^ D) * L == size)%Q)
    by (apply leaf_size_total; lia).
  assert (HS : (cell_size D size sq == inject_Z P * L)%Q) by reflexivity.
  rewrite HS in Hns.
  assert (PM : P mod P = 0) by (apply Z.mod_same; lia).
  assert (CX : cell_of X sq = X) by (apply cell_of_fix; [lia|exact XM]).
  (* the left code, when the test on the left holds *)
  assert (Hleft : Qltb (q - r) no && Qltb o (q - r) = true ->
            0 <= X - 1 < 2 ^ D /\ u32 (X - 1) = X - 1
            /\ cell_of (X - 1) sq = X - P).
  { intros G. apply andb_true_iff in G. destruct G as (G1 & G2).
    apply Qltb_lt in G1, G2.
    assert (0 < X).
    { destruct (Z_lt_le_dec 0 X) as [|Hle]; [assumption|exfalso].
      pose proof (scale_le L X 0 HL Hle) as H. change (inject_Z 0) with 0%Q in H.
      lra_opaque. }
    assert (P <= X).
    { pose proof (multiples_step P 0 X HP ltac:(now rewrite Z.mod_0_l by lia)
                    XM ltac:(lia)). lia. }
    split; [lia|]. split; [apply u32_small; lia|].
    apply cell_of_unique; [lia| |lia].
    fold P. replace (X - P) with (X + (-1) * P) by lia.
    rewrite Z.mod_add by lia. exact XM. }
  (* the right code, when the test on the right holds *)
  assert (Hright : Qltb (no + nsize) (q + r) && Qltb (q + r) (o + size) = true ->
            0 <= X + P < 2 ^ D /\ u32 (X + u32 (pow2 sq)) = X + P
            /\ cell_of (X + P) sq = X + P).
  { intros G. apply andb_true_iff in G. destruct G as (G1 & G2).
    apply Qltb_lt in G1, G2.
    assert (X + P < 2 ^ D).
    { destruct (Z_lt_le_dec (X + P) (2 ^ D)) as [|Hle]; [assumption|exfalso].
      pose proof (scale_le L (2 ^ D) (X + P) HL Hle) as H. push_inject H.
      lra_opaque. }
    split; [lia|]. unfold pow2. fold P.
    split; [rewrite (u32_small P), (u32_small (X + P)) by lia; reflexivity|].
    apply cell_of_fix; [lia|]. fold P. replace (X + P) with (X + 1 * P) by lia.
    rewrite Z.mod_add by lia. exact XM. }
  unfold l, TOctreeIterator.axis_codes. fold r.
  destruct (Qltb (q - r) no && Qltb o (q - r)) eqn:G1;
    destruct (Qltb (no + nsize) (q + r) && Qltb (q + r) (o + size)) eqn:G2;
    cbn [app map].
  - destruct (Hleft eq_refl) as (B1 & -> & C1).
    destruct (Hright eq_refl) as (B2 & -> & C2).
    rewrite CX, C1, C2. split.
    + repeat constructor; lia.
    + repeat constructor; simpl; lia.
  - destruct (Hleft eq_refl) as (B1 & -> & C1).
    rewrite CX, C1. split.
    + repeat constructor; lia.
    + repeat constructor; simpl; lia.
  - destruct (Hright eq_refl) as (B2 & -> & C2).
    rewrite CX, C2. split.
    + repeat constructor; lia.
    + repeat constructor; simpl; lia.
  - split.
    + repeat constructor; lia.
    + repeat constructor; simpl; tauto.
Qed.

Lemma NoDup_flat_map_key {A B K : Type} (f : A -> list B) (key : A -> K)
    (kf : B -> K) (l : list A) :
  List.NoDup (map key l) ->
  (forall x, In x l -> List.NoDup (f x)) ->
  (forall x b, In x l -> In b (f x) -> kf b = key x) ->
  List.NoDup (flat_map f l).
Proof.
  intros Hk Hf Hkey. apply NoDup_flat_map_disjoint.
  - now apply NoDup_map_inv in Hk.
  - exact Hf.
  - intros x y b Hx Hy Hxy Hbx Hby. apply Hxy.
    apply (NoDup_map_inj key l); try assumption.
    rewrite <- (Hkey x b Hx Hbx). now apply Hkey.
Qed.

Lemma NoDup_map_part {A B C : Type} (g : B -> C) (f : A -> list B)
    (l : list A) (x : A) :
  List.NoDup (map g (flat_map f l)) -> In x l -> List.NoDup (map g (f x)).
Proof.
  induction l as [|y l IH]; intros Hnd Hx; [destruct Hx|].
  cbn [flat_map] in Hnd. rewrite map_app in Hnd.
  destruct Hx as [->|Hx].
  - now apply NoDup_app_remove_r in Hnd.
  - apply IH; [|exact Hx]. now apply NoDup_app_remove_l in Hnd.
Qed.

Lemma NoDup_map_filter {A B : Type} (g : A -> B) (P : A -> bool)
    (l : list A) :
  List.NoDup (map g l) -> List.NoDup (map g (List.filter P l)).
Proof.
  induction l as [|x l IH]; intros Hnd; [constructor|].
  simpl in Hnd. inversion Hnd as [|? ? Hx Hl]; subst. simpl.
  destruct (P x); [|now apply IH].
  simpl. constructor; [|now apply IH].
  intros Hin. apply Hx. apply in_map_iff in Hin.
  destruct Hin as (y & E & Hy). apply filter_In in Hy.
  apply in_map_iff. exists y. tauto.
Qed.

(** The addresses below a cell reached from a cell with pairwise distinct
    addresses are pairwise distinct. *)
Lemma traverse_loop_nodup (n : ptr) :
  forall l x y z k,
    List.NoDup (map fst (all_samples n)) ->
    List.NoDup
      (map fst
         (all_samples (TOctreeIterator.traverseToLevel_loop n l x y z k))).
Proof.
  induction n as [|f ch IH]; intros l x y z k Hnd; [exact Hnd|].
  cbn [TOctreeIterator.traverseToLevel_loop].
  destruct (k <? m_depth f); [|exact Hnd].
  set (ci := u32 _ mod 8).
  assert (Hci : 0 <= ci < 8) by (apply Z.mod_pos_bound; lia).
  destruct (ch ci) eqn:E; [exact Hnd|].
  rewrite <- E. apply IH.
  cbn [all_samples] in Hnd. rewrite map_app in Hnd.
  apply NoDup_app_remove_l in Hnd.
  apply (NoDup_map_part fst (fun i => all_samples (ch i)) eight ci Hnd).
  now apply in_eight.
Qed.

Lemma stored_nodup (oc : TOctree.t) :
  octree_ok oc -> List.NoDup (map fst (all_samples (TOctree.m_root oc))).
Proof.
  intros Hok. apply (Permutation_NoDup (Permutation_sym (ok_addr _ Hok))).
  apply seq_NoDup.
Qed.

(** An address designates one stored sample. *)
Lemma stored_functional (oc : TOctree.t) (a : addr) (s1 s2 : Sample) :
  octree_ok oc ->
  In (a, s1) (all_samples (TOctree.m_root oc)) ->
  In (a, s2) (all_samples (TOctree.m_root oc)) ->
  s1 = s2.
Proof.
  intros Hok H1 H2.
  pose proof (NoDup_map_inj fst _ _ _ (stored_nodup oc Hok) H1 H2 eq_refl).
  congruence.
Qed.

Lemma wf_loc D o s k X Y Zc (n : ptr) :
  wf D o s k X Y Zc n -> n <> NULL -> loc3 n = (X, Y, Zc).
Proof.
  destruct n as [|f ch]; [congruence|].
  intros ((_ & HX & HY & HZ) & _) _. unfold loc3. simpl. congruence.
Qed.

(** The candidate a triple of codes designates lies in the cell of these
    codes. *)
Lemma candidate_loc (oc : TOctree.t) (xi yi zi k : Z) :
  octree_ok oc ->
  0 <= xi < 2 ^ TOctree.m_depth oc ->
  0 <= yi < 2 ^ TOctree.m_depth oc ->
  0 <= zi < 2 ^ TOctree.m_depth oc ->
  0 <= k ->
  let node := TOctreeIterator.traverseToLevel (TOctree.getRoot oc) xi yi zi k in
  getDepth node = k ->
  loc3 node = (cell_of xi k, cell_of yi k, cell_of zi k)
  /\ wf_in oc k (cell_of xi k) (cell_of yi k) (cell_of zi k) node.
Proof.
  intros Hok Hx Hy Hz Hk node Hd.
  destruct (traverse_root_spec oc xi yi zi k Hok Hx Hy Hz Hk)
    as (Hm & _ & _ & Hwf & _).
  fold node in Hm, Hwf. rewrite Hd in Hwf.
  split; [now apply (wf_loc _ _ _ _ _ _ _ _ Hwf)|exact Hwf].
Qed.


Lemma in_candidate (oc : TOctree.t) (k xi yi zi : Z) (n : ptr) :
  In n (candidate oc k xi yi zi) ->
  n = TOctreeIterator.traverseToLevel (TOctree.getRoot oc) xi yi zi k
  /\ n <> NULL /\ getDepth n = k.
Proof.
  unfold candidate. cbv zeta.
  destruct (TOctreeIterator.traverseToLevel _ xi yi zi k) eqn:E;
    simpl; [tauto|].
  destruct (Z.eqb_spec (m_depth f) k); simpl; [|tauto].
  intros [<-|[]]. repeat split; [congruence|assumption].
Qed.

(** Codes of pairwise distinct cells designate pairwise distinct
    candidates. *)
Lemma candidates_nodup (oc : TOctree.t) (xl yl zl : list Z) (k : Z) :
  octree_ok oc -> 0 <= k ->
  Forall (fun t => 0 <= t < 2 ^ TOctree.m_depth oc) xl ->
  Forall (fun t => 0 <= t < 2 ^ TOctree.m_depth oc) yl ->
  Forall (fun t => 0 <= t < 2 ^ TOctree.m_depth oc) zl ->
  List.NoDup (map (fun t => cell_of t k) xl) ->
  List.NoDup (map (fun t => cell_of t k) yl) ->
  List.NoDup (map (fun t => cell_of t k) zl) ->
  List.NoDup (candidates oc xl yl zl k)
  /\ (forall n m, In n (candidates oc xl yl zl k) ->
        In m (candidates oc xl yl zl k) -> loc3 n = loc3 m -> n = m).
Proof.
  intros Hok Hk Bx By Bz Nx Ny Nz.
  rewrite List.Forall_forall in Bx, By, Bz.
  assert (Hloc : forall xi yi zi n,
            In xi xl -> In yi yl -> In zi zl ->
            In n (candidate oc k xi yi zi) ->
            loc3 n = (cell_of xi k, cell_of yi k, cell_of zi k)).
  { intros xi yi zi n Hx Hy Hz Hn. apply in_candidate in Hn.
    destruct Hn as (-> & _ & Hd).
    now apply candidate_loc; auto. }
  split.
  - change (candidates oc xl yl zl k)
      with (flat_map (fun xi => flat_map (fun yi =>
              flat_map (candidate oc k xi yi) zl) yl) xl).
    apply (NoDup_flat_map_key _ (fun t => cell_of t k) getXLoc);
      [exact Nx| |].
    + intros xi Hx.
      apply (NoDup_flat_map_key _ (fun t => cell_of t k) getYLoc);
        [exact Ny| |].
      * intros yi Hy.
        apply (NoDup_flat_map_key _ (fun t => cell_of t k) getZLoc);
          [exact Nz| |].
        -- intros zi Hz. unfold candidate. cbv zeta.
           destruct (negb _ && _); repeat constructor. intros [].
        -- intros zi n Hz Hn.
           pose proof (Hloc xi yi zi n Hx Hy Hz Hn) as E.
           unfold loc3 in E. congruence.
      * intros yi n Hy Hn. apply in_flat_map in Hn.
        destruct Hn as (zi & Hz & Hn).
        pose proof (Hloc xi yi zi n Hx Hy Hz Hn) as E.
        unfold loc3 in E. congruence.
    + intros xi n Hx Hn. apply in_flat_map in Hn.
      destruct Hn as (yi & Hy & Hn). apply in_flat_map in Hn.
      destruct Hn as (zi & Hz & Hn).
      pose proof (Hloc xi yi zi n Hx Hy Hz Hn) as E.
      unfold loc3 in E. congruence.
  - intros n m Hn Hm E.
    apply in_candidates in Hn, Hm.
    destruct Hn as (xi & yi & zi & Hx & Hy & Hz & -> & _ & Hd).
    destruct Hm as (xj & yj & zj & Hx' & Hy' & Hz' & -> & _ & Hd').
    destruct (candidate_loc oc xi yi zi k Hok (Bx _ Hx) (By _ Hy) (Bz _ Hz)
                Hk Hd) as (E1 & _).
    destruct (candidate_loc oc xj yj zj k Hok (Bx _ Hx') (By _ Hy')
                (Bz _ Hz') Hk Hd') as (E2 & _).
    rewrite E1, E2 in E. inversion E as [[Ex Ey Ez]].
    rewrite (NoDup_map_inj (fun t => cell_of t k) xl xi xj Nx Hx Hx' Ex).
    rewrite (NoDup_map_inj (fun t => cell_of t k) yl yi yj Ny Hy Hy' Ey).
    rewrite (NoDup_map_inj (fun t => cell_of t k) zl zi zj Nz Hz Hz' Ez).
    reflexivity.
Qed.


(** [getNeighbors(query, query_node, neighbors)] on an empty list, with
    the cell of the query as query node and a radius below the side of
    that cell. *)
Lemma getNeighbors_node_exact oc it q qn :
  octree_ok oc ->
  (0 < TOctreeIterator.m_radius it)%Q ->
  (TOctreeIterator.m_sqradius it
   == TOctreeIterator.m_radius it * TOctreeIterator.m_radius it)%Q ->
  in_cube oc q ->
  cell_of_query oc q qn ->
  (TOctreeIterator.m_radius it
   < cell_size (TOctree.m_depth oc) (TOctree.m_size oc) (getDepth qn))%Q ->
  neighbors_exact oc it q (TOctreeIterator.getNeighbors_node it oc q qn []).
Proof.
  intros Hok Hr Hsq Hq Hcq Hcell. split.
  - (* each address once *)
    pose proof (ok_depth _ Hok) as HD. pose proof (ok_size _ Hok) as Hs.
    destruct Hcq as (Hqn & Hwfq).
    destruct qn as [|f ch]; [congruence|]. cbn [getDepth] in *.
    destruct Hwfq as ((Hd & HX & HY & HZ) & (Okx & Oky & Okz) & Hsz
                      & (Hox & Hoy & Hoz) & _).
    rewrite <- HX in Okx, Hox. rewrite <- HY in Oky, Hoy.
    rewrite <- HZ in Okz, Hoz.
    assert (Hk : 0 <= m_depth f) by apply Okx.
    destruct (axis_codes_distinct _ _ it _ (m_x q) _ _ _ _ HD Hs Okx Hox Hsz)
      as (Bx & Nx).
    destruct (axis_codes_distinct _ _ it _ (m_y q) _ _ _ _ HD Hs Oky Hoy Hsz)
      as (By & Ny).
    destruct (axis_codes_distinct _ _ it _ (m_z q) _ _ _ _ HD Hs Okz Hoz Hsz)
      as (Bz & Nz).
    destruct (candidates_nodup oc _ _ _ (m_depth f) Hok Hk Bx By Bz Nx Ny Nz)
      as (Hnd & Hinj).
    rewrite getNeighbors_node_eq, explored_nodes_eq. cbn [app getDepth].
    apply NoDup_flat_map_disjoint.
    + exact Hnd.
    + intros n Hn. apply in_candidates in Hn.
      destruct Hn as (xi & yi & zi & Hx & Hy & Hz & -> & _ & Hdn).
      rewrite List.Forall_forall in Bx, By, Bz.
      destruct (candidate_loc oc xi yi zi (m_depth f) Hok (Bx _ Hx)
                  (By _ Hy) (Bz _ Hz) Hk Hdn) as (_ & Hwf).
      rewrite (explore_eq _ _ _ it q _ _ _ _ _ Hwf).
      apply NoDup_map_filter. apply traverse_loop_nodup.
      now apply stored_nodup.
    + intros n m a Hn Hm Hnm Hna Hma. apply Hnm. apply Hinj; try assumption.
      pose proof Hn as Hn'. pose proof Hm as Hm'.
      apply in_candidates in Hn', Hm'.
      destruct Hn' as (xi & yi & zi & Hx & Hy & Hz & En & _ & Hdn).
      destruct Hm' as (xj & yj & zj & Hx' & Hy' & Hz' & Em & _ & Hdm).
      rewrite List.Forall_forall in Bx, By, Bz.
      rewrite En in Hdn. rewrite Em in Hdm.
      destruct (candidate_loc oc xi yi zi (m_depth f) Hok (Bx _ Hx)
                  (By _ Hy) (Bz _ Hz) Hk Hdn) as (E1 & Hwf1).
      destruct (candidate_loc oc xj yj zj (m_depth f) Hok (Bx _ Hx')
                  (By _ Hy') (Bz _ Hz') Hk Hdm) as (E2 & Hwf2).
      rewrite <- En in E1, Hwf1. rewrite <- Em in E2, Hwf2.
      apply explore_sound in Hna, Hma.
      destruct Hna as (s1 & Hs1 & _). destruct Hma as (s2 & Hs2 & _).
      assert (s1 = s2) as <-.
      { apply (stored_functional oc a); [assumption| |].
        - rewrite En in Hs1. now apply traverse_loop_incl in Hs1.
        - rewrite Em in Hs2. now apply traverse_loop_incl in Hs2. }
      destruct (wf_samples _ _ _ _ _ _ _ _ _ Hwf1 Hs1) as (_ & A1 & A2 & A3).
      destruct (wf_samples _ _ _ _ _ _ _ _ _ Hwf2 Hs2) as (_ & C1 & C2 & C3).
      rewrite E1, E2. simpl in *. congruence.
  - intros a. split.
    + intros Ha. rewrite getNeighbors_node_eq in Ha. cbn [app] in Ha.
      apply in_flat_map in Ha. destruct Ha as (n & Hn & Ha).
      apply explore_sound in Ha. destruct Ha as (s & Hs & Hnear).
      apply (explored_nodes_incl _ _ _ _ _ Hn) in Hs.
      exists s. split; assumption.
    + intros (s & Hs & Hnear).
      apply (getNeighbors_node_complete oc it q qn [] (a, s)); assumption.
Qed.

(** ** The flags of the samples during a selection *)


Lemma cover_step_lookup (st : TSampleSelection.store) (ni a : addr) :
  TSampleSelection.increaseNCovered
    (TSampleSelection.setSelected (TSampleSelection.setCovered st ni true)
       ni false) ni !! a
  = if decide (a = ni) then covered_flags <$> st !! a else st !! a.
Proof.
  unfold TSampleSelection.increaseNCovered, TSampleSelection.setSelected,
    TSampleSelection.setCovered.
  destruct (decide (a = ni)) as [->|Hne].
  - rewrite !lookup_alter_eq. destruct (st !! ni); reflexivity.
  - rewrite !lookup_alter_ne by congruence. reflexivity.
Qed.

Lemma cover_lookup (nb : list addr) :
  forall (st : TSampleSelection.store) (a : addr),
    List.NoDup nb ->
    (In a nb -> TSampleSelection.cover nb st !! a = covered_flags <$> st !! a)
    /\ (~ In a nb -> TSampleSelection.cover nb st !! a = st !! a).
Proof.
  induction nb as [|ni nb IH]; intros st a Hnd.
  - split; [intros []|reflexivity].
  - inversion Hnd as [|? ? Hni Hnb]; subst.
    change (TSampleSelection.cover (ni :: nb) st)
      with (TSampleSelection.cover nb
              (TSampleSelection.increaseNCovered
                 (TSampleSelection.setSelected
                    (TSampleSelection.setCovered st ni true) ni false) ni)).
    destruct (IH (TSampleSelection.increaseNCovered
                    (TSampleSelection.setSelected
                       (TSampleSelection.setCovered st ni true) ni false) ni)
                a Hnb) as (IH1 & IH2).
    rewrite cover_step_lookup in IH1, IH2.
    split.
    + intros [->|Hin].
      * rewrite IH2 by assumption. now rewrite decide_True.
      * rewrite IH1 by assumption.
        rewrite decide_False; [reflexivity|]. intros ->. contradiction.
    + intros Hn. rewrite IH2 by (intros H; apply Hn; now right).
      rewrite decide_False; [reflexivity|]. intros ->. apply Hn. now left.
Qed.

Lemma setSelected_lookup (st : TSampleSelection.store) (x : addr) (b : bool)
    (a : addr) :
  TSampleSelection.setSelected st x b !! a
  = if decide (a = x)
    then (fun f => mkFlags b (m_covered f) (m_ncovered f)) <$> st !! a
    else st !! a.
Proof.
  unfold TSampleSelection.setSelected.
  destruct (decide (a = x)) as [->|Hne].
  - now rewrite lookup_alter_eq.
  - now rewrite lookup_alter_ne by congruence.
Qed.

(** ** Distances between samples *)


Lemma Qltb_comp (a a' b : Q) : (a == a')%Q -> Qltb a b = Qltb a' b.
Proof.
  intros E. destruct (Qltb a b) eqn:H1; destruct (Qltb a' b) eqn:H2;
    try reflexivity.
  - apply Qltb_lt in H1. apply Qltb_ge in H2. lra.
  - apply Qltb_lt in H2. apply Qltb_ge in H1. lra.
Qed.

Lemma dist2_sym (p q : Point) : (dist2 p q == dist2 q p)%Q.
Proof. unfold dist2. ring. Qed.

Lemma dist2_self (p : Point) : (dist2 p p == 0)%Q.
Proof. unfold dist2. ring. Qed.

Lemma close_sym (sq : Q) (s1 s2 : Sample) : close sq s1 s2 = close sq s2 s1.
Proof. unfold close. apply Qltb_comp, dist2_sym. Qed.

Lemma close_self (sq : Q) (s : Sample) : (0 < sq)%Q -> close sq s s = true.
Proof.
  intros H. unfold close. rewrite (Qltb_comp _ 0 _ (dist2_self _)).
  now apply Qltb_lt.
Qed.

(** ** The invariant of the selection engines *)


Lemma filter_length_mono {A : Type} (P P' : A -> bool) (l : list A) :
  (forall x, In x l -> P x = true -> P' x = true) ->
  (length (List.filter P l) <= length (List.filter P' l))%nat.
Proof.
  induction l as [|y l IH]; intros Hmono; [reflexivity|].
  assert (IH' := IH (fun x Hx => Hmono x (or_intror Hx))). simpl.
  destruct (P y) eqn:E.
  - rewrite (Hmono y (or_introl eq_refl) E). simpl. lia.
  - destruct (P' y); simpl; lia.
Qed.

Lemma filter_length_lt {A : Type} (P P' : A -> bool) (l : list A) (x0 : A) :
  (forall x, In x l -> P x = true -> P' x = true) ->
  In x0 l -> P' x0 = true -> P x0 = false ->
  (length (List.filter P l) < length (List.filter P' l))%nat.
Proof.
  induction l as [|y l IH]; intros Hmono Hin H1 H2; [destruct Hin|].
  assert (Hl : forall x, In x l -> P x = true -> P' x = true)
    by (intros x Hx; apply Hmono; now right).
  destruct Hin as [->|Hin].
  - simpl. rewrite H1, H2. simpl.
    pose proof (filter_length_mono P P' l Hl). lia.
  - specialize (IH Hl Hin H1 H2). simpl.
    destruct (P y) eqn:E.
    + rewrite (Hmono y (or_introl eq_refl) E). simpl. lia.
    + destruct (P' y); simpl; lia.
Qed.

Lemma filter_length_le {A : Type} (P : A -> bool) (l : list A) :
  (length (List.filter P l) <= length l)%nat.
Proof.
  induction l as [|x l IH]; [reflexivity|]. simpl.
  destruct (P x); simpl; lia.
Qed.

Lemma filter_length_ext {A : Type} (P P' : A -> bool) (l : list A) :
  (forall x, In x l -> P x = P' x) ->
  length (List.filter P l) = length (List.filter P' l).
Proof.
  induction l as [|x l IH]; intros H; [reflexivity|]. simpl.
  rewrite (H x (or_introl eq_refl)).
  specialize (IH (fun y Hy => H y (or_intror Hy))).
  destruct (P' x); simpl; lia.
Qed.


Lemma select_store_lookup (nb : list addr) (st : TSampleSelection.store)
    (a x : addr) :
  List.NoDup nb -> In a nb ->
  select_store nb st a !! x
  = if decide (x = a)
    then (fun f => mkFlags true true (u32 (m_ncovered f + 1))) <$> st !! x
    else if in_dec Nat.eq_dec x nb then covered_flags <$> st !! x
         else st !! x.
Proof.
  intros Hnd Ha. unfold select_store. rewrite setSelected_lookup.
  destruct (cover_lookup nb st x Hnd) as (C1 & C2).
  destruct (decide (x = a)) as [->|Hne].
  - rewrite C1 by assumption. destruct (st !! a); reflexivity.
  - destruct (in_dec Nat.eq_dec x nb) as [Hin|Hout]; auto.
Qed.

Lemma select_store_flags stored sq st a s nb :
  sel_inv stored sq st -> (0 < sq)%Q ->
  In (a, s) stored -> nb_ok stored sq s nb ->
  let st' := select_store nb st a in
  In a nb
  /\ (forall x, TSampleSelection.isCovered st' x = true
                <-> TSampleSelection.isCovered st x = true \/ In x nb)
  /\ (forall x, TSampleSelection.isSelected st' x = true
                <-> x = a
                    \/ (TSampleSelection.isSelected st x = true /\ ~ In x nb))
  /\ (forall x, In x nb ->
        TSampleSelection.getNCovered st' x
        = u32 (TSampleSelection.getNCovered st x + 1))
  /\ (forall x, ~ In x nb ->
        TSampleSelection.getNCovered st' x = TSampleSelection.getNCovered st x)
  /\ (forall x y, In (x, y) stored -> is_Some (st' !! x)).
Proof.
  intros Hinv Hsq Ha (Hnd & Hnb) st'.
  assert (Hin : In a nb).
  { apply Hnb. exists s. split; [exact Ha|now apply close_self]. }
  assert (Hdom : forall x, In x nb -> is_Some (st !! x)).
  { intros x Hx. apply Hnb in Hx. destruct Hx as (sx & Hsx & _).
    exact (inv_dom _ _ _ Hinv _ _ Hsx). }
  split; [exact Hin|].
  unfold st', TSampleSelection.isCovered, TSampleSelection.isSelected,
    TSampleSelection.getNCovered.
  split; [|split; [|split; [|split]]].
  - intros x. rewrite select_store_lookup by assumption.
    destruct (decide (x = a)) as [->|Hne];
      [|destruct (in_dec Nat.eq_dec x nb) as [Hx|Hx]].
    + destruct (Hdom a Hin) as (f & ->). simpl. tauto.
    + destruct (Hdom x Hx) as (f & ->). simpl. tauto.
    + destruct (st !! x); simpl; tauto.
  - intros x. rewrite select_store_lookup by assumption.
    destruct (decide (x = a)) as [->|Hne];
      [|destruct (in_dec Nat.eq_dec x nb) as [Hx|Hx]].
    + destruct (Hdom a Hin) as (f & ->). simpl. tauto.
    + destruct (Hdom x Hx) as (f & ->). simpl.
      split; [discriminate|]. intros [?|(_ & ?)]; contradiction.
    + destruct (st !! x); simpl; tauto.
  - intros x Hx. rewrite select_store_lookup by assumption.
    destruct (Hdom x Hx) as (f & ->).
    destruct (decide (x = a)); [reflexivity|].
    destruct (in_dec Nat.eq_dec x nb); [reflexivity|contradiction].
  - intros x Hx. rewrite select_store_lookup by assumption.
    destruct (decide (x = a)) as [->|Hne]; [contradiction|].
    destruct (in_dec Nat.eq_dec x nb); [contradiction|reflexivity].
  - intros x y Hxy. rewrite select_store_lookup by assumption.
    destruct (inv_dom _ _ _ Hinv _ _ Hxy) as (f & ->).
    destruct (decide (x = a)); [eexists; reflexivity|].
    destruct (in_dec Nat.eq_dec x nb); eexists; reflexivity.
Qed.

Lemma stored_unique (stored : list (addr * Sample)) (a : addr)
    (s1 s2 : Sample) :
  List.NoDup (map fst stored) ->
  In (a, s1) stored -> In (a, s2) stored -> s1 = s2.
Proof.
  intros Hnd H1 H2.
  pose proof (NoDup_map_inj fst _ _ _ Hnd H1 H2 eq_refl). congruence.
Qed.

(** Selecting an uncovered sample with its exact list of neighbours
    preserves the invariant. *)
Lemma select_step stored sq st a s nb :
  List.NoDup (map fst stored) -> Z.of_nat (length stored) < 2 ^ 32 ->
  (0 < sq)%Q -> sel_inv stored sq st ->
  In (a, s) stored -> TSampleSelection.isCovered st a = false ->
  nb_ok stored sq s nb ->
  sel_inv stored sq (select_store nb st a).
Proof.
  intros Hnd Hlen Hsq Hinv Ha Hunc Hok.
  destruct (select_store_flags stored sq st a s nb Hinv Hsq Ha Hok)
    as (Hin & Hcov & Hsel & Hn1 & Hn2 & Hdom').
  destruct Hok as (Hnbnd & Hnb).
  set (st' := select_store nb st a) in *.
  assert (F1 : forall b sb, In (b, sb) stored -> center st b ->
                 ~ In b nb /\ b <> a).
  { intros b sb Hb Hc. split.
    - intros Hbn. apply Hnb in Hbn. destruct Hbn as (sx & Hsx & Hcl).
      rewrite (stored_unique stored b sx sb Hnd Hsx Hb) in Hcl.
      rewrite close_sym in Hcl.
      pose proof (inv_cov _ _ _ Hinv b sb a s Hb Ha Hc Hcl). congruence.
    - intros ->. destruct Hc as (_ & Hc). congruence. }
  assert (F2 : forall x sx, In (x, sx) stored ->
                 (center st' x <-> x = a \/ center st x)).
  { intros x sx Hx. unfold center. rewrite Hcov, Hsel. split.
    - intros ([->|(Hs & Hout)] & Hc); [now left|right].
      split; [exact Hs|]. destruct Hc; [assumption|contradiction].
    - intros [->|Hc].
      + split; [now left|now right].
      + destruct (F1 x sx Hx Hc) as (Hout & _). destruct Hc as (Hs & Hc).
        split; [right; split; assumption|now left]. }
  assert (F3 : centers_count stored st < centers_count stored st'
               /\ centers_count stored st' < 2 ^ 32).
  { unfold centers_count. split.
    - apply inj_lt. apply (filter_length_lt _ _ _ (a, s)).
      + intros [x sx] Hx Hc. unfold is_center in *. simpl in *.
        apply andb_true_iff in Hc. apply andb_true_iff.
        apply (F2 x sx Hx). right. exact Hc.
      + exact Ha.
      + unfold is_center. simpl. apply andb_true_iff.
        apply (F2 a s Ha). now left.
      + unfold is_center. simpl. rewrite Hunc. apply andb_false_r.
    - pose proof (filter_length_le (is_center st') stored). lia. }
  destruct F3 as (F3 & F4).
  assert (F5 : forall x, In x nb ->
            TSampleSelection.getNCovered st' x
            = TSampleSelection.getNCovered st x + 1).
  { intros x Hx. rewrite (Hn1 x Hx). apply u32_small.
    pose proof (inv_bound _ _ _ Hinv x). lia. }
  constructor.
  - exact Hdom'.
  - intros x y sx sy Hx Hy Hxy Cx Cy.
    apply (F2 x sx Hx) in Cx. apply (F2 y sy Hy) in Cy.
    destruct Cx as [->|Cx], Cy as [->|Cy].
    + congruence.
    + destruct (close sq sx sy) eqn:E; [exfalso|reflexivity].
      rewrite (stored_unique stored a sx s Hnd Hx Ha) in E.
      destruct (F1 y sy Hy Cy) as (Hout & _). apply Hout, Hnb.
      exists sy. split; assumption.
    + destruct (close sq sx sy) eqn:E; [exfalso|reflexivity].
      rewrite (stored_unique stored a sy s Hnd Hy Ha), close_sym in E.
      destruct (F1 x sx Hx Cx) as (Hout & _). apply Hout, Hnb.
      exists sx. split; assumption.
    + exact (inv_far _ _ _ Hinv x y sx sy Hx Hy Hxy Cx Cy).
  - intros b sb x sx Hb Hx Cb Hcl. apply Hcov.
    apply (F2 b sb Hb) in Cb. destruct Cb as [->|Cb].
    + right. apply Hnb. exists sx. split; [exact Hx|].
      now rewrite (stored_unique stored a s sb Hnd Ha Hb).
    + left. exact (inv_cov _ _ _ Hinv b sb x sx Hb Hx Cb Hcl).
  - intros x Hc. destruct (in_dec Nat.eq_dec x nb) as [Hx|Hx].
    + rewrite (F5 x Hx). pose proof (inv_bound _ _ _ Hinv x). lia.
    + rewrite (Hn2 x Hx). apply (inv_ncov _ _ _ Hinv).
      apply Hcov in Hc. destruct Hc; [assumption|contradiction].
  - intros x. pose proof (inv_bound _ _ _ Hinv x).
    destruct (in_dec Nat.eq_dec x nb) as [Hx|Hx].
    + rewrite (F5 x Hx). lia.
    + rewrite (Hn2 x Hx). lia.
Qed.

(** Unselecting an uncovered sample preserves the invariant. *)
Lemma unselect_step stored sq st a :
  sel_inv stored sq st -> TSampleSelection.isCovered st a = false ->
  let st' := TSampleSelection.setSelected st a false in
  sel_inv stored sq st'
  /\ (forall x, TSampleSelection.isCovered st' x
                = TSampleSelection.isCovered st x)
  /\ (forall x, TSampleSelection.isSelected st' x = true
                <-> TSampleSelection.isSelected st x = true /\ x <> a).
Proof.
  intros Hinv Hunc st'.
  assert (Hcov : forall x, TSampleSelection.isCovered st' x
                           = TSampleSelection.isCovered st x).
  { intros x. unfold st', TSampleSelection.isCovered.
    rewrite setSelected_lookup.
    destruct (decide (x = a)); destruct (st !! x); reflexivity. }
  assert (Hsel : forall x, TSampleSelection.isSelected st' x = true
                   <-> TSampleSelection.isSelected st x = true /\ x <> a).
  { intros x. unfold st', TSampleSelection.isSelected.
    rewrite setSelected_lookup.
    destruct (decide (x = a)) as [E|Hne]; destruct (st !! x); simpl;
      split; try tauto; try discriminate;
      try (intros (? & ?); congruence). }
  assert (Hn : forall x, TSampleSelection.getNCovered st' x
                         = TSampleSelection.getNCovered st x).
  { intros x. unfold st', TSampleSelection.getNCovered.
    rewrite setSelected_lookup.
    destruct (decide (x = a)); destruct (st !! x); reflexivity. }
  assert (Hc : forall x, center st' x <-> center st x).
  { intros x. unfold center. rewrite Hcov, Hsel. split; [tauto|].
    intros (Hs & Hcx). repeat split; try assumption. congruence. }
  assert (Hcount : centers_count stored st' = centers_count stored st).
  { unfold centers_count. f_equal. apply filter_length_ext.
    intros [x sx] _. unfold is_center. simpl.
    destruct (TSampleSelection.isSelected st' x
              && TSampleSelection.isCovered st' x) eqn:E1;
      destruct (TSampleSelection.isSelected st x
                && TSampleSelection.isCovered st x) eqn:E2;
      try reflexivity; exfalso.
    - apply andb_true_iff in E1. apply (Hc x) in E1.
      apply andb_true_iff in E1. congruence.
    - apply andb_true_iff in E2. apply (Hc x) in E2.
      apply andb_true_iff in E2. congruence. }
  split; [|split; assumption].
  constructor.
  - intros x sx Hx. unfold st'. rewrite setSelected_lookup.
    destruct (inv_dom _ _ _ Hinv _ _ Hx) as (f & ->).
    destruct (decide (x = a)); eexists; reflexivity.
  - intros x y sx sy Hx Hy Hxy Cx Cy. apply Hc in Cx, Cy.
    exact (inv_far _ _ _ Hinv x y sx sy Hx Hy Hxy Cx Cy).
  - intros b sb x sx Hb Hx Cb Hcl. rewrite Hcov. apply Hc in Cb.
    exact (inv_cov _ _ _ Hinv b sb x sx Hb Hx Cb Hcl).
  - intros x. rewrite Hcov, Hn. apply (inv_ncov _ _ _ Hinv).
  - intros x. rewrite Hn, Hcount. apply (inv_bound _ _ _ Hinv).
Qed.

(** ** The greedy engine visits the samples one after the other *)

Lemma fold_left_over_flat_map {A B C : Type} (f : C -> B -> C)
    (g : A -> list B) (l : list A) :
  forall s,
    fold_left f (flat_map g l) s
    = fold_left (fun s i => fold_left f (g i) s) l s.
Proof.
  induction l as [|i l IH]; intros s; [reflexivity|].
  cbn [flat_map fold_left]. now rewrite fold_left_app, IH.
Qed.

Lemma fold_left_ext_in {A B : Type} (f g : B -> A -> B) (l : list A) :
  (forall s x, In x l -> f s x = g s x) ->
  forall s, fold_left f l s = fold_left g l s.
Proof.
  induction l as [|x l IH]; intros H s; [reflexivity|].
  cbn [fold_left]. rewrite (H s x (or_introl eq_refl)).
  apply IH. intros s' y Hy. apply H. now right.
Qed.

(** [performSelection(cell, par)] applies the body of its loop to the
    samples below [cell], in the order of [all_samples]. *)
Lemma performSelection_par_eq D origin size oc par (cell : ptr) :
  forall k X Y Zc,
    wf D origin size k X Y Zc cell ->
    forall s,
      TSampleSelection.performSelection_par oc cell par s
      = fold_left (TSampleSelection.select_sample oc par) (all_samples cell) s.
Proof.
  induction cell as [|f ch IH]; intros k X Y Zc Hwf s; [reflexivity|].
  destruct Hwf as ((Hd & HX & HY & HZ) & (Okx & Oky & Okz) & Hsz & Ho & Hnp
                   & Hpts & Hleaf & Hch0 & Hch).
  assert (Hk : 0 <= k) by apply Okx.
  cbn [TSampleSelection.performSelection_par all_samples]. rewrite Hd.
  destruct (Z.ltb_spec 0 k) as [Hk0|Hk0].
  - rewrite Hpts by lia. cbn [app].
    rewrite fold_left_over_flat_map. apply fold_left_ext_in.
    intros s' i Hi. apply in_eight in Hi.
    rewrite Z.mod_small by exact Hi.
    destruct (Hch i Hi) as (_ & Hwfi).
    rewrite <- (IH i _ _ _ _ Hwfi).
    destruct (ch i); reflexivity.
  - assert (Hnil : flat_map (fun i => all_samples (ch i)) eight = []).
    { unfold eight. simpl. rewrite !Hch0 by lia. reflexivity. }
    rewrite Hnil, app_nil_r.
    destruct (Z.ltb_spec 0 (m_npts f)) as [Hn0|Hn0]; [reflexivity|].
    destruct (m_points f); [reflexivity|]. simpl in Hnp. lia.
Qed.

Lemma fold_left_visit {A B : Type} (J : list A -> B -> Prop)
    (f : B -> A -> B) (l : list A) :
  (forall c vis s, In c l -> J vis s -> J (vis ++ [c]) (f s c)) ->
  forall vis s, J vis s -> J (vis ++ l) (fold_left f l s).
Proof.
  induction l as [|c l IH]; intros H vis s HJ.
  - now rewrite app_nil_r.
  - cbn [fold_left].
    replace (vis ++ c :: l) with ((vis ++ [c]) ++ l)
      by (now rewrite <- app_assoc).
    apply IH.
    + intros c' vis' s' Hc'. apply H. now right.
    + apply H; [now left|exact HJ].
Qed.

(** An invariant of the body of the loop, indexed by the samples already
    visited, is an invariant of [performSelection(cell)]: the body runs
    with a query node [par] above the sample, of the active depth of the
    iterator or the root. *)
Lemma performSelection_cell_inv D origin size oc (d : Z)
    (stored : list (addr * Sample))
    (J : list (addr * Sample) -> TSampleSelection.t * TSampleSelection.store
         -> Prop) :
  0 <= d ->
  (forall vis s, J vis s ->
     TOctreeIterator.getDepth (TSampleSelection.m_iterator (fst s)) = d) ->
  (forall par kp X Y Zc c vis s,
     wf D origin size kp X Y Zc par -> par <> NULL ->
     d <= kp \/ kp = D ->
     incl (all_samples par) stored ->
     In c (all_samples par) ->
     J vis s -> J (vis ++ [c]) (TSampleSelection.select_sample oc par s c)) ->
  forall (cell : ptr) k X Y Zc,
    wf D origin size k X Y Zc cell -> d <= k \/ k = D ->
    incl (all_samples cell) stored ->
    forall vis s,
      J vis s ->
      J (vis ++ all_samples cell)
        (TSampleSelection.performSelection_cell oc cell s).
Proof.
  intros Hd0 Hit Hstep.
  induction cell as [|f ch IH]; intros k X Y Zc Hwf Hk Hincl vis s HJ.
  - cbn. now rewrite app_nil_r.
  - pose proof Hwf as Hwf0.
    destruct Hwf as ((Hd & HX & HY & HZ) & (Okx & Oky & Okz) & Hsz & Ho & Hnp
                     & Hpts & Hleaf & Hch0 & Hch).
    cbn [TSampleSelection.performSelection_cell].
    rewrite (Hit vis s HJ), Hd.
    destruct (Z.ltb_spec d k) as [Hlt|Hge].
    + assert (Hsub : forall i, In i eight ->
                       incl (all_samples (ch i)) stored).
      { intros i Hi c Hc. apply Hincl. cbn [all_samples].
        apply in_or_app. right. apply in_flat_map. now exists i. }
      cbn [all_samples]. rewrite Hpts by lia. cbn [app].
      clear Hleaf Hnp Hpts Hincl.
      assert (Hall : forall i, In i eight -> 0 <= i < 8 
                                /\ incl (all_samples (ch i)) stored)
        by (intros i Hi; split; [now apply in_eight|now apply Hsub]).
      clear Hsub. revert vis s HJ Hall.
      induction eight as [|i l IHl]; intros vis s HJ Hall.
      * cbn. now rewrite app_nil_r.
      * cbn [flat_map fold_left]. rewrite app_assoc.
        apply IHl; [|intros j Hj; apply Hall; now right].
        destruct (Hall i (or_introl eq_refl)) as (Hi & Hsi).
        rewrite Z.mod_small by exact Hi.
        destruct (Hch i Hi) as (_ & Hwfi).
        destruct (ch i) eqn:E.
        -- cbn. now rewrite app_nil_r.
        -- rewrite <- E in *.
           apply (IH i _ _ _ _ Hwfi); [left; lia|exact Hsi|exact HJ].
    + rewrite (performSelection_par_eq _ _ _ oc _ _ _ _ _ _ Hwf0).
      apply fold_left_visit; [|exact HJ].
      intros c vis' s' Hc HJ'.
      apply (Hstep _ _ _ _ _ c vis' s' Hwf0); try assumption.
      discriminate.
Qed.

(** ** The flags before a selection *)

Lemma list_to_map_flags (l : list (addr * Sample)) (a : addr) :
  (forall f,
     (list_to_map (map (fun c : addr * Sample => (fst c, flags (snd c))) l)
        : TSampleSelection.store) !! a = Some f ->
     exists s, In (a, s) l /\ f = flags s)
  /\ (forall s, List.NoDup (map fst l) -> In (a, s) l ->
        (list_to_map (map (fun c : addr * Sample => (fst c, flags (snd c))) l)
           : TSampleSelection.store) !! a = Some (flags s)).
Proof.
  induction l as [|[b sb] l (IH1 & IH2)]; cbn [map list_to_map foldr fst snd].
  - split; [intros f H|intros s _ []]. rewrite lookup_empty in H. discriminate.
  - destruct (decide (a = b)) as [->|Hne].
    + split.
      * intros f H. rewrite lookup_insert_eq in H. inversion H; subst.
        exists sb. split; [now left|reflexivity].
      * intros s Hnd Hin. rewrite lookup_insert_eq.
        inversion Hnd as [|? ? Hb Hl]; subst.
        destruct Hin as [E|Hin]; [congruence|].
        exfalso. apply Hb. apply in_map_iff. now exists (b, s).
    + split.
      * intros f H. rewrite lookup_insert_ne in H by congruence.
        destruct (IH1 f H) as (s & Hs & ->). exists s. split; [now right|easy].
      * intros s Hnd Hin. rewrite lookup_insert_ne by congruence.
        inversion Hnd as [|? ? Hb Hl]; subst.
        destruct Hin as [E|Hin]; [congruence|]. now apply IH2.
Qed.

(** Before a selection, the flags are those of the constructors of
    [Sample]: selected, not covered, covered zero times. *)
Lemma store_of_init (oc : TOctree.t) :
  octree_ok oc ->
  (forall c, In c (all_samples (TOctree.m_root oc)) ->
     flags (snd c) = Flags_init) ->
  let st := TSampleSelection.store_of oc in
  (forall a, TSampleSelection.isCovered st a = false)
  /\ (forall a, TSampleSelection.getNCovered st a = 0)
  /\ (forall a s, In (a, s) (all_samples (TOctree.m_root oc)) ->
        st !! a = Some Flags_init).
Proof.
  intros Hok Hinit st.
  assert (H : forall a f, st !! a = Some f -> f = Flags_init).
  { intros a f Hf.
    destruct (proj1 (list_to_map_flags _ a) f Hf) as (s & Hs & ->).
    exact (Hinit _ Hs). }
  split; [|split].
  - intros a. unfold TSampleSelection.isCovered.
    destruct (st !! a) as [f|] eqn:E; [|reflexivity].
    now rewrite (H a f E).
  - intros a. unfold TSampleSelection.getNCovered.
    destruct (st !! a) as [f|] eqn:E; [|reflexivity].
    now rewrite (H a f E).
  - intros a s Hs.
    rewrite <- (Hinit _ Hs).
    apply (proj2 (list_to_map_flags _ a) s); [|exact Hs].
    now apply stored_nodup.
Qed.

Lemma store_of_inv (oc : TOctree.t) (sq : Q) :
  octree_ok oc ->
  (forall c, In c (all_samples (TOctree.m_root oc)) ->
     flags (snd c) = Flags_init) ->
  sel_inv (all_samples (TOctree.m_root oc)) sq (TSampleSelection.store_of oc).
Proof.
  intros Hok Hinit.
  destruct (store_of_init oc Hok Hinit) as (Hc & Hn & Hl).
  constructor.
  - intros a s Hs. rewrite (Hl a s Hs). now eexists.
  - intros a b sa sb _ _ _ (_ & Ha). rewrite Hc in Ha. discriminate.
  - intros b sb a sa _ _ (_ & Hb). rewrite Hc in Hb. discriminate.
  - intros a Ha. rewrite Hc in Ha. discriminate.
  - intros a. rewrite Hn. unfold centers_count. lia.
Qed.

(** ** The greedy engine *)


Lemma sqradius_pos (it : TOctreeIterator.t) :
  (0 < TOctreeIterator.m_radius it)%Q ->
  (TOctreeIterator.m_sqradius it
   == TOctreeIterator.m_radius it * TOctreeIterator.m_radius it)%Q ->
  (0 < TOctreeIterator.m_sqradius it)%Q.
Proof. intros Hr Hsq. rewrite Hsq. nra. Qed.

Lemma greedy_step oc it par c vis s :
  octree_ok oc ->
  Z.of_nat (length (all_samples (TOctree.m_root oc))) < 2 ^ 32 ->
  (0 < TOctreeIterator.m_radius it)%Q ->
  (TOctreeIterator.m_sqradius it
   == TOctreeIterator.m_radius it * TOctreeIterator.m_radius it)%Q ->
  In c (all_samples (TOctree.m_root oc)) ->
  cell_of_query oc (pos (snd c)) par ->
  (TOctreeIterator.m_radius it
   < cell_size (TOctree.m_depth oc) (TOctree.m_size oc) (getDepth par))%Q ->
  greedy_inv oc it vis s ->
  greedy_inv oc it (vis ++ [c]) (TSampleSelection.select_sample oc par s c).
Proof.
  intros Hok Hlen Hr Hsq Hc Hcq Hcell (Hit & Hinv & Hvis).
  destruct s as [sel st]. destruct c as [a sa]. cbn [fst snd] in *.
  pose proof (sqradius_pos it Hr Hsq) as Hsq0.
  pose proof (stored_nodup oc Hok) as Hnd.
  unfold TSampleSelection.select_sample. cbn [fst snd].
  destruct (TSampleSelection.isCovered st a) eqn:Hcov; cbn [negb].
  - (* already covered *)
    split; [exact Hit|]. split; [exact Hinv|].
    intros c' Hc' Hs. apply in_app_or in Hc'.
    destruct Hc' as [Hc'|[<-|[]]]; [now apply Hvis|exact Hcov].
  - rewrite Hit.
    assert (Hcube : in_cube oc (pos sa)).
    { destruct (wf_samples _ _ _ _ _ _ _ _ (a, sa) (ok_wf _ Hok) Hc) as (H & _).
      exact H. }
    pose proof (getNeighbors_node_exact oc it (pos sa) par Hok Hr Hsq Hcube
                  Hcq Hcell) as Hex.
    set (nb := TOctreeIterator.getNeighbors_node it oc (pos sa) par []) in *.
    assert (Hnb : nb_ok (all_samples (TOctree.m_root oc))
                    (TOctreeIterator.m_sqradius it) sa nb) by exact Hex.
    destruct (Z.of_nat (length nb) <? 3).
    + (* fewer than three neighbours *)
      destruct (unselect_step _ _ st a Hinv Hcov) as (Hinv' & Hcov' & Hsel').
      split; [exact Hit|]. split; [exact Hinv'|]. cbn [fst snd].
      intros c' Hc' Hs. apply Hsel' in Hs. destruct Hs as (Hs & Hne).
      rewrite Hcov'. apply in_app_or in Hc'.
      destruct Hc' as [Hc'|[<-|[]]]; [now apply Hvis|]. now elim Hne.
    + destruct (select_store_flags _ _ st a sa nb Hinv Hsq0 Hc Hnb)
        as (Hin & Hcov' & Hsel' & _).
      split; [exact Hit|]. cbn [fst snd].
      change (TSampleSelection.setSelected (TSampleSelection.cover nb st) a
                true) with (select_store nb st a).
      split; [now apply (select_step _ _ st a sa nb)|].
      intros c' Hc' Hs. apply Hcov'. apply Hsel' in Hs.
      destruct Hs as [->|(Hs & Hout)]; [now right|].
      apply in_app_or in Hc'.
      destruct Hc' as [Hc'|[<-|[]]]; [left; now apply Hvis|now right].
Qed.

(** The greedy engine on an octree whose samples have the flags of the
    constructors, with a radius the iterator accepts. *)
Lemma greedy_run oc r :
  octree_ok oc ->
  Z.of_nat (length (all_samples (TOctree.m_root oc))) < 2 ^ 32 ->
  (forall c, In c (all_samples (TOctree.m_root oc)) ->
     flags (snd c) = Flags_init) ->
  (0 < r)%Q -> (r < TOctree.m_size oc)%Q ->
  floor_log2 (TOctree.m_size oc / (2 * r)) <= TOctree.m_depth oc ->
  let it := snd (TOctreeIterator.setR (TOctreeIterator.new oc) oc r) in
  let sel := TSampleSelection.new r oc (TOctreeIterator.new oc) in
  greedy_inv oc it (all_samples (TOctree.m_root oc))
    (TSampleSelection.performSelection oc
       (sel, TSampleSelection.store_of oc)).
Proof.
  intros Hok Hlen Hinit Hr0 Hr1 He it sel.
  pose proof (ok_depth _ Hok) as HD.
  destruct (setR_true (TOctreeIterator.new oc) oc r HD Hr0 Hr1 He)
    as (_ & Hrad & Hsq & _ & Hd0 & _).
  fold it in Hrad, Hsq, Hd0.
  pose proof (setR_cell_size (TOctreeIterator.new oc) oc r HD Hr0 Hr1 He)
    as Hcell.
  fold it in Hcell. cbv zeta in Hcell.
  unfold TSampleSelection.performSelection, TOctree.getRoot.
  apply (performSelection_cell_inv (TOctree.m_depth oc) (TOctree.m_origin oc)
           (TOctree.m_size oc) oc (TOctreeIterator.m_activeDepth it)
           (all_samples (TOctree.m_root oc)) (greedy_inv oc it) Hd0)
    with (k := TOctree.m_depth oc) (X := 0) (Y := 0) (Zc := 0) (vis := []).
  - intros vis s (H & _). now rewrite H.
  - intros par kp X Y Zc c vis s Hwf Hpar Hkp Hincl Hc HJ.
    pose proof (wf_depth _ _ _ _ _ _ _ _ Hwf Hpar) as Hdp.
    destruct (wf_samples _ _ _ _ _ _ _ _ c Hwf Hc) as (_ & Cx & Cy & Cz).
    assert (Hkp' : 0 <= kp <= TOctree.m_depth oc).
    { destruct par as [|f ch]; [congruence|]. apply Hwf. }
    apply greedy_step; try assumption.
    + rewrite Hrad. exact Hr0.
    + rewrite Hrad, Hsq. reflexivity.
    + now apply Hincl.
    + split; [exact Hpar|]. rewrite Hdp, Cx, Cy, Cz. exact Hwf.
    + rewrite Hrad, Hdp. apply Hcell. lia.
  - exact (ok_wf _ Hok).
  - now right.
  - apply incl_refl.
  - split; [reflexivity|]. split; [|intros c []].
    now apply store_of_inv.
Qed.

(** ** The pieces of the dart-throwing engine *)

(** [getNeighbors(query, neighbors)] on an empty list, with a radius
    below the side of the cells of the active depth. *)
Lemma getNeighbors_exact oc it q :
  octree_ok oc ->
  (0 < TOctreeIterator.m_radius it)%Q ->
  (TOctreeIterator.m_sqradius it
   == TOctreeIterator.m_radius it * TOctreeIterator.m_radius it)%Q ->
  0 <= TOctreeIterator.m_activeDepth it ->
  (forall k,
     Z.min (TOctreeIterator.m_activeDepth it) (TOctree.m_depth oc) <= k
     <= TOctree.m_depth oc ->
     (TOctreeIterator.m_radius it
      < cell_size (TOctree.m_depth oc) (TOctree.m_size oc) k)%Q) ->
  in_cube oc q ->
  neighbors_exact oc it q (TOctreeIterator.getNeighbors it oc q []).
Proof.
  intros Hok Hr Hsq Hd Hcell Hq. unfold TOctreeIterator.getNeighbors.
  destruct (locatePointNode_spec oc it q Hok Hq Hd) as (Hcq & Hrange & _).
  apply getNeighbors_node_exact; try assumption. now apply Hcell.
Qed.

Lemma find_stored (l : list (addr * Sample)) (a : addr) (s : Sample) :
  List.NoDup (map fst l) -> In (a, s) l ->
  List.find (fun c : addr * Sample => (fst c =? a)%nat) l = Some (a, s).
Proof.
  induction l as [|[b sb] l IH]; intros Hnd Hin; [destruct Hin|].
  inversion Hnd as [|? ? Hb Hl]; subst. cbn [List.find fst].
  destruct (Nat.eqb_spec b a) as [->|Hne].
  - destruct Hin as [E|Hin]; [congruence|].
    exfalso. apply Hb. apply in_map_iff. now exists (a, s).
  - destruct Hin as [E|Hin]; [congruence|]. now apply IH.
Qed.

(** A pointer to a stored sample can be dereferenced. *)
Lemma deref_stored oc a s :
  octree_ok oc -> In (a, s) (all_samples (TOctree.m_root oc)) ->
  TSampleSelection.deref oc a = Some s.
Proof.
  intros Hok Hin. unfold TSampleSelection.deref, TOctree.getRoot.
  now rewrite (find_stored _ a s (stored_nodup oc Hok) Hin).
Qed.

(** The operations on [std::set<T*>]. *)
Lemma set_insert_In (a x : addr) (l : list addr) :
  In x (TSampleSelection.set_insert a l) <-> x = a \/ In x l.
Proof.
  induction l as [|b l IH]; cbn [TSampleSelection.set_insert].
  - simpl. intuition.
  - destruct (a <? b)%nat; [simpl; intuition|].
    destruct (Nat.eqb_spec a b) as [->|Hne]; [simpl; intuition|].
    simpl. rewrite IH. intuition.
Qed.

Lemma set_insert_length (a : addr) (l : list addr) :
  (length (TSampleSelection.set_insert a l) <= S (length l))%nat.
Proof.
  induction l as [|b l IH]; cbn [TSampleSelection.set_insert]; [simpl; lia|].
  destruct (a <? b)%nat; [simpl; lia|].
  destruct (a =? b)%nat; simpl; lia.
Qed.

Lemma set_erase_In (a x : addr) (l : list addr) :
  In x (TSampleSelection.set_erase a l) <-> In x l /\ x <> a.
Proof.
  unfold TSampleSelection.set_erase. rewrite filter_In.
  destruct (Nat.eqb_spec x a); simpl; intuition (discriminate || congruence).
Qed.

Lemma set_erase_length (a : addr) (l : list addr) :
  (length (TSampleSelection.set_erase a l) <= length l)%nat.
Proof. apply filter_length_le. Qed.

Lemma set_erase_length_lt (a : addr) (l : list addr) :
  In a l -> (length (TSampleSelection.set_erase a l) < length l)%nat.
Proof.
  unfold TSampleSelection.set_erase.
  induction l as [|b l IH]; intros Hin; [destruct Hin|]. simpl.
  destruct (Nat.eqb_spec b a) as [->|Hne]; simpl.
  - pose proof (filter_length_le (fun b => negb (b =? a)%nat) l). lia.
  - destruct Hin as [E|Hin]; [congruence|]. specialize (IH Hin). lia.
Qed.

Lemma set_erase_all (nb : list addr) :
  forall l x,
    (In x (fold_left (fun all n => TSampleSelection.set_erase n all) nb l)
     <-> In x l /\ ~ In x nb)
    /\ (length (fold_left (fun all n => TSampleSelection.set_erase n all) nb l)
        <= length l)%nat.
Proof.
  induction nb as [|n nb IH]; intros l x; cbn [fold_left].
  - simpl. intuition.
  - destruct (IH (TSampleSelection.set_erase n l) x) as (H1 & H2).
    rewrite H1, set_erase_In. pose proof (set_erase_length n l).
    simpl. split; [|lia]. intuition.
Qed.

(** The loop [while (nuncovered > 0)] on a set of uncovered stored
    samples: it ends, keeps the invariant, uncovers nothing and leaves
    every sample of the set covered. *)
Lemma dart_loop_spec rnd it oc :
  octree_ok oc ->
  Z.of_nat (length (all_samples (TOctree.m_root oc))) < 2 ^ 32 ->
  (0 < TOctreeIterator.m_radius it)%Q ->
  (TOctreeIterator.m_sqradius it
   == TOctreeIterator.m_radius it * TOctreeIterator.m_radius it)%Q ->
  0 <= TOctreeIterator.m_activeDepth it ->
  (forall k,
     Z.min (TOctreeIterator.m_activeDepth it) (TOctree.m_depth oc) <= k
     <= TOctree.m_depth oc ->
     (TOctreeIterator.m_radius it
      < cell_size (TOctree.m_depth oc) (TOctree.m_size oc) k)%Q) ->
  forall fuel d,
    sel_inv (all_samples (TOctree.m_root oc)) (TOctreeIterator.m_sqradius it)
      (TSampleSelection.mem d) ->
    (forall a, In a (TSampleSelection.m_all_samples d) ->
       (exists s, In (a, s) (all_samples (TOctree.m_root oc)))
       /\ TSampleSelection.isCovered (TSampleSelection.mem d) a = false) ->
    TSampleSelection.nuncovered d
    = Z.of_nat (length (TSampleSelection.m_all_samples d)) ->
    Z.of_nat (length (TSampleSelection.m_all_samples d)) < 2 ^ 32 ->
    (length (TSampleSelection.m_all_samples d) < fuel)%nat ->
    exists d',
      TSampleSelection.dart_loop fuel rnd it oc d = Some d'
      /\ sel_inv (all_samples (TOctree.m_root oc))
           (TOctreeIterator.m_sqradius it) (TSampleSelection.mem d')
      /\ (forall x,
            TSampleSelection.isCovered (TSampleSelection.mem d) x = true ->
            TSampleSelection.isCovered (TSampleSelection.mem d') x = true)
      /\ (forall a, In a (TSampleSelection.m_all_samples d) ->
            TSampleSelection.isCovered (TSampleSelection.mem d') a = true).
Proof.
  intros Hok Hlen Hr Hsq Hd0 Hcell.
  pose proof (sqradius_pos it Hr Hsq) as Hsq0.
  pose proof (stored_nodup oc Hok) as Hnd.
  induction fuel as [|fuel IH]; intros d Hinv HU Hn Hlt Hfuel; [lia|].
  cbn [TSampleSelection.dart_loop]. rewrite Hn.
  set (U := TSampleSelection.m_all_samples d) in *.
  destruct (Z.ltb_spec 0 (Z.of_nat (length U))) as [Hpos|Hzero].
  - set (idx := u32 (rnd (TSampleSelection.draws d)) mod Z.of_nat (length U)).
    assert (Hidx : 0 <= idx < Z.of_nat (length U))
      by (apply Z.mod_pos_bound; lia).
    destruct (nth_error U (Z.to_nat idx)) as [a|] eqn:E;
      [|apply nth_error_None in E; lia].
    apply nth_error_In in E.
    destruct (HU a E) as ((smp & Hsmp) & Hunc).
    rewrite Hunc, (deref_stored oc a smp Hok Hsmp).
    assert (Hcube : in_cube oc (pos smp)).
    { destruct (wf_samples _ _ _ _ _ _ _ _ (a, smp) (ok_wf _ Hok) Hsmp)
        as (H & _). exact H. }
    pose proof (getNeighbors_exact oc it (pos smp) Hok Hr Hsq Hd0 Hcell Hcube)
      as Hex.
    set (nb := TOctreeIterator.getNeighbors it oc (pos smp) []) in *.
    assert (Hnb : nb_ok (all_samples (TOctree.m_root oc))
                    (TOctreeIterator.m_sqradius it) smp nb) by exact Hex.
    destruct (select_store_flags _ _ (TSampleSelection.mem d) a smp nb Hinv
                Hsq0 Hsmp Hnb) as (Hin & Hcov' & _).
    pose proof (select_step _ _ (TSampleSelection.mem d) a smp nb Hnd Hlen
                  Hsq0 Hinv Hsmp Hunc Hnb) as Hinv'.
    change (TSampleSelection.setSelected
              (TSampleSelection.cover nb (TSampleSelection.mem d)) a true)
      with (select_store nb (TSampleSelection.mem d) a).
    set (st' := select_store nb (TSampleSelection.mem d) a) in *.
    set (all' := fold_left (fun all n => TSampleSelection.set_erase n all) nb
                   (TSampleSelection.set_erase a U)).
    assert (Hall : forall x, In x all' <-> (In x U /\ x <> a) /\ ~ In x nb).
    { intros x. unfold all'.
      rewrite (proj1 (set_erase_all nb _ x)), set_erase_In. reflexivity. }
    assert (Hall_len : (length all' < length U)%nat).
    { unfold all'.
      pose proof (proj2 (set_erase_all nb (TSampleSelection.set_erase a U) a)).
      pose proof (set_erase_length_lt a U E). lia. }
    destruct (IH (TSampleSelection.mkDart all'
                    (u32 (Z.of_nat (length all'))) st'
                    (TSampleSelection.cell_selected_samples d ++ [a])
                    (S (TSampleSelection.draws d))))
      as (d' & Hd' & Hinv'' & Hmono & Hcovered); cbn [TSampleSelection.mem
        TSampleSelection.m_all_samples TSampleSelection.nuncovered].
    + exact Hinv'.
    + intros x Hx. apply Hall in Hx. destruct Hx as ((HxU & Hxa) & Hxnb).
      destruct (HU x HxU) as (Hst & Hxunc). split; [exact Hst|].
      destruct (TSampleSelection.isCovered st' x) eqn:Ex; [|reflexivity].
      apply Hcov' in Ex. destruct Ex; [congruence|contradiction].
    + apply u32_small. lia.
    + lia.
    + lia.
    + exists d'. split; [exact Hd'|]. split; [exact Hinv''|].
      cbn [TSampleSelection.mem TSampleSelection.m_all_samples] in *.
      split.
      * intros x Hx. apply Hmono. apply Hcov'. now left.
      * intros x Hx.
        destruct (in_dec Nat.eq_dec x nb) as [Hxnb|Hxnb];
          [apply Hmono, Hcov'; now right|].
        destruct (Nat.eq_dec x a) as [->|Hxa]; [contradiction|].
        apply Hcovered. apply Hall. tauto.
  - exists d. split; [reflexivity|]. split; [exact Hinv|].
    split; [tauto|]. intros a Ha. destruct U; [destruct Ha|simpl in Hzero; lia].
Qed.

(** ** The cells of a level *)

Lemma flat_map_ext_in {A B : Type} (f g : A -> list B) (l : list A) :
  (forall x, In x l -> f x = g x) -> flat_map f l = flat_map g l.
Proof.
  induction l as [|x l IH]; intros H; [reflexivity|].
  cbn [flat_map]. rewrite (H x (or_introl eq_refl)).
  now rewrite IH by (intros y Hy; apply H; now right).
Qed.

(** The samples of the leaves below a cell are the samples below it. *)
Lemma getNodes_leaves D origin size (cell : ptr) :
  forall j X Y Zc,
    wf D origin size j X Y Zc cell ->
    flat_map points (TOctree.getNodes 0 cell []) = all_samples cell.
Proof.
  induction cell as [|f ch IH]; intros j X Y Zc Hwf; [reflexivity|].
  destruct Hwf as ((Hd & HX & HY & HZ) & (Okx & Oky & Okz) & Hsz & Ho & Hnp
                   & Hpts & Hleaf & Hch0 & Hch).
  assert (Hj : 0 <= j) by apply Okx.
  destruct (Z.eq_dec j 0) as [Ej|Nj].
  - assert (Hnil : flat_map (fun i => all_samples (ch i)) eight = []).
    { unfold eight. simpl. rewrite !Hch0 by exact Ej. reflexivity. }
    cbn [TOctree.getNodes all_samples]. rewrite Hd, Ej, Hnil.
    change (0 =? 0) with true. cbn [app flat_map points].
    reflexivity.
  - rewrite getNodes_children by lia.
    cbn [all_samples]. rewrite Hpts by lia. cbn [app].
    rewrite <- flat_map_comp. apply flat_map_ext_in.
    intros i Hi. apply in_eight in Hi.
    destruct (Hch i Hi) as (_ & Hwfi). exact (IH i _ _ _ _ Hwfi).
Qed.

(** A cell of level [k] found below a cell satisfies the invariant, and
    its samples are samples of that cell. *)
Lemma getNodes_below D origin size k (cell : ptr) :
  forall j X Y Zc,
    wf D origin size j X Y Zc cell ->
    forall n, In n (TOctree.getNodes k cell []) ->
      (exists X' Y' Z', wf D origin size k X' Y' Z' n)
      /\ incl (all_samples n) (all_samples cell)
      /\ (List.NoDup (map fst (all_samples cell)) ->
          List.NoDup (map fst (all_samples n))).
Proof.
  induction cell as [|f ch IH]; intros j X Y Zc Hwf n Hn; [destruct Hn|].
  pose proof Hwf as Hwf0.
  destruct Hwf as ((Hd & HX & HY & HZ) & _ & _ & _ & _ & _ & _ & _ & Hch).
  destruct (Z.eq_dec j k) as [Ej|Nj].
  - cbn [TOctree.getNodes] in Hn. rewrite Hd, Ej, Z.eqb_refl in Hn.
    destruct Hn as [<-|[]]. rewrite Ej in Hwf0.
    split; [now exists X, Y, Zc|]. split; [apply incl_refl|tauto].
  - rewrite getNodes_children in Hn by lia.
    apply in_flat_map in Hn. destruct Hn as (i & Hi & Hn).
    pose proof Hi as Hi'. apply in_eight in Hi'.
    destruct (Hch i Hi') as (_ & Hwfi).
    destruct (IH i _ _ _ _ Hwfi n Hn) as (Hw & Hincl & Hnd).
    split; [exact Hw|]. split.
    + intros c Hc. cbn [all_samples].
      apply in_or_app. right. apply in_flat_map. exists i.
      split; [exact Hi|now apply Hincl].
    + intros H. apply Hnd. cbn [all_samples] in H. rewrite map_app in H.
      apply NoDup_app_remove_l in H.
      exact (NoDup_map_part fst (fun i => all_samples (ch i)) eight i H Hi).
Qed.

(** Every sample below a cell is below one of its cells of a level
    between 0 and its own depth. *)
Lemma getNodes_cover D origin size k (cell : ptr) :
  0 <= k ->
  forall j X Y Zc,
    wf D origin size j X Y Zc cell -> k <= j ->
    forall c, In c (all_samples cell) ->
      exists n, In n (TOctree.getNodes k cell []) /\ In c (all_samples n).
Proof.
  intros Hk.
  induction cell as [|f ch IH]; intros j X Y Zc Hwf Hkj c Hc; [destruct Hc|].
  destruct Hwf as ((Hd & HX & HY & HZ) & _ & _ & _ & _ & Hpts & _ & _ & Hch).
  destruct (Z.eq_dec j k) as [Ej|Nj].
  - exists (Node f ch). split; [|exact Hc].
    cbn [TOctree.getNodes]. rewrite Hd, Ej, Z.eqb_refl. now left.
  - rewrite getNodes_children by lia.
    cbn [all_samples] in Hc. rewrite Hpts in Hc by lia. cbn [app] in Hc.
    apply in_flat_map in Hc. destruct Hc as (i & Hi & Hc).
    pose proof Hi as Hi'. apply in_eight in Hi'.
    destruct (Hch i Hi') as (_ & Hwfi).
    destruct (IH i _ _ _ _ Hwfi ltac:(lia) c Hc) as (n & Hn & Hcn).
    exists n. split; [|exact Hcn]. apply in_flat_map. now exists i.
Qed.

(** ** One cell of the dart-throwing engine *)


Lemma setR_iterator_ok it0 oc r :
  0 <= TOctree.m_depth oc <= 31 ->
  (0 < r)%Q -> (r < TOctree.m_size oc)%Q ->
  floor_log2 (TOctree.m_size oc / (2 * r)) <= TOctree.m_depth oc ->
  iterator_ok oc (snd (TOctreeIterator.setR it0 oc r)).
Proof.
  intros HD Hr0 Hr1 He.
  destruct (setR_true it0 oc r HD Hr0 Hr1 He) as (_ & Hrad & Hsq & _ & Hd0 & _).
  pose proof (setR_cell_size it0 oc r HD Hr0 Hr1 He) as Hcell.
  cbv zeta in Hcell. unfold iterator_ok. rewrite Hrad, Hsq.
  repeat split; try assumption; try reflexivity. 
Qed.

(** The set of the uncovered samples of the leaves of a cell. *)
Lemma uncovered_set (st : TSampleSelection.store) (l : list (addr * Sample)) :
  forall acc,
    let all :=
      fold_left
        (fun all (c : addr * Sample) =>
           if negb (TSampleSelection.isCovered st (fst c))
           then TSampleSelection.set_insert (fst c) all else all)
        l acc in
    (forall x, In x all <->
       In x acc
       \/ exists s, In (x, s) l /\ TSampleSelection.isCovered st x = false)
    /\ (length all <= length acc + length l)%nat.
Proof.
  induction l as [|[a sa] l IH]; intros acc; cbn [fold_left fst].
  - split; [|simpl; lia]. intros x. split; [now left|].
    intros [H|(s & [] & _)]. exact H.
  - destruct (TSampleSelection.isCovered st a) eqn:E; cbn [negb].
    + destruct (IH acc) as (H1 & H2). split; [|simpl; lia].
      intros x. rewrite H1. split.
      * intros [H|(s & Hs & Hx)]; [now left|right].
        exists s. split; [now right|exact Hx].
      * intros [H|(s & [Hs|Hs] & Hx)]; [now left| |right; now exists s].
        inversion Hs; subst. congruence.
    + destruct (IH (TSampleSelection.set_insert a acc)) as (H1 & H2).
      pose proof (set_insert_length a acc) as Hins. split; [|simpl; lia].
      intros x. rewrite H1, set_insert_In. split.
      * intros [[->|Hacc]|(s & Hs & Hx)].
        -- right. exists sa. split; [now left|exact E].
        -- now left.
        -- right. exists s. split; [now right|exact Hx].
      * intros [Hacc|(s & [Hs|Hs] & Hx)].
        -- left. now right.
        -- inversion Hs; subst. left. now left.
        -- right. now exists s.
Qed.

(** [performDartThrowingSelection(cell, cell_selected_samples)]: the call
    returns, keeps the invariant, uncovers nothing and leaves every sample
    below the cell covered. *)
Lemma dart_cell_spec rnd sel oc (cell : ptr) st draws0 :
  octree_ok oc ->
  Z.of_nat (length (all_samples (TOctree.m_root oc))) < 2 ^ 32 ->
  let it :=
    snd (TOctreeIterator.setR (TOctreeIterator.new oc) oc
           (TSampleSelection.m_radius sel)) in
  iterator_ok oc it ->
  (exists k X Y Zc, wf_in oc k X Y Zc cell) ->
  incl (all_samples cell) (all_samples (TOctree.m_root oc)) ->
  List.NoDup (map fst (all_samples cell)) ->
  sel_inv (all_samples (TOctree.m_root oc)) (TOctreeIterator.m_sqradius it)
    st ->
  exists st' l n,
    TSampleSelection.performDartThrowingSelection_cell rnd sel oc cell st
      draws0 = Some (st', l, n)
    /\ sel_inv (all_samples (TOctree.m_root oc))
         (TOctreeIterator.m_sqradius it) st'
    /\ (forall x, TSampleSelection.isCovered st x = true ->
                  TSampleSelection.isCovered st' x = true)
    /\ (forall c, In c (all_samples cell) ->
                  TSampleSelection.isCovered st' (fst c) = true).
Proof.
  intros Hok Hlen it (Hr & Hsq & Hd0 & Hcell) (k & X & Y & Zc & Hwf) Hincl
    Hnd Hinv.
  unfold TSampleSelection.performDartThrowingSelection_cell. cbv zeta.
  fold it.
  rewrite <- (fold_left_over_flat_map
                (fun all (c : addr * Sample) =>
                   if negb (TSampleSelection.isCovered st (fst c))
                   then TSampleSelection.set_insert (fst c) all else all)
                points).
  rewrite (getNodes_leaves _ _ _ cell _ _ _ _ Hwf).
  destruct (uncovered_set st (all_samples cell) []) as (Hall & Hall_len).
  set (all := fold_left _ (all_samples cell) []) in *.
  assert (Hlen' : Z.of_nat (length all) < 2 ^ 32).
  { assert (length (all_samples cell)
            <= length (all_samples (TOctree.m_root oc)))%nat.
    { rewrite <- (length_map fst (all_samples cell)).
      rewrite <- (length_map fst (all_samples (TOctree.m_root oc))).
      apply NoDup_incl_length; [exact Hnd|].
      intros a Ha. apply in_map_iff in Ha. destruct Ha as (c & <- & Hc).
      apply in_map. now apply Hincl. }
    simpl in Hall_len. lia. }
  destruct (dart_loop_spec rnd it oc Hok Hlen Hr Hsq Hd0 Hcell
              (S (length all))
              (TSampleSelection.mkDart all (u32 (Z.of_nat (length all))) st
                 [] draws0))
    as (d' & Hd' & Hinv' & Hmono & Hcov);
    cbn [TSampleSelection.mem TSampleSelection.m_all_samples
         TSampleSelection.nuncovered] in *.
  - exact Hinv.
  - intros a Ha. apply Hall in Ha. destruct Ha as [[]|(s & Hs & Hunc)].
    split; [|exact Hunc]. exists s. now apply Hincl.
  - apply u32_small. lia.
  - exact Hlen'.
  - lia.
  - rewrite Hd'. eexists _, _, _. split; [reflexivity|].
    split; [exact Hinv'|]. split; [exact Hmono|].
    intros [a sa] Hc. cbn [fst].
    destruct (TSampleSelection.isCovered st a) eqn:E; [now apply Hmono|].
    apply Hcov. apply Hall. right. now exists sa.
Qed.

(** ** The buckets of the dart-throwing engine *)


Lemma dart_bucket_spec rnd sel oc :
  octree_ok oc ->
  Z.of_nat (length (all_samples (TOctree.m_root oc))) < 2 ^ 32 ->
  let it :=
    snd (TOctreeIterator.setR (TOctreeIterator.new oc) oc
           (TSampleSelection.m_radius sel)) in
  iterator_ok oc it ->
  forall bucket st draws0,
    Forall (good_cell oc) bucket ->
    sel_inv (all_samples (TOctree.m_root oc)) (TOctreeIterator.m_sqradius it)
      st ->
    exists st' l n,
      TSampleSelection.dart_bucket rnd sel oc bucket st draws0
      = Some (st', l, n)
      /\ sel_inv (all_samples (TOctree.m_root oc))
           (TOctreeIterator.m_sqradius it) st'
      /\ (forall x, TSampleSelection.isCovered st x = true ->
                    TSampleSelection.isCovered st' x = true)
      /\ (forall node c, In node bucket -> In c (all_samples node) ->
                    TSampleSelection.isCovered st' (fst c) = true).
Proof.
  intros Hok Hlen it Hit.
  induction bucket as [|node rest IH]; intros st draws0 Hgood Hinv.
  - exists st, [], draws0. split; [reflexivity|]. split; [exact Hinv|].
    split; [tauto|]. intros node c [].
  - inversion Hgood as [|? ? (Hwf & Hincl & Hnd) Hrest]; subst.
    destruct (dart_cell_spec rnd sel oc node st draws0 Hok Hlen Hit Hwf Hincl
                Hnd Hinv) as (st1 & l1 & n1 & E1 & Hinv1 & Hmono1 & Hcov1).
    destruct (IH st1 n1 Hrest Hinv1)
      as (st2 & l2 & n2 & E2 & Hinv2 & Hmono2 & Hcov2).
    cbn [TSampleSelection.dart_bucket]. rewrite E1, E2.
    exists st2, (l1 ++ l2), n2. split; [reflexivity|].
    split; [exact Hinv2|]. split; [auto|].
    intros n c [<-|Hn] Hc; [auto|]. now apply (Hcov2 n).
Qed.

Lemma dart_buckets_spec rnd oc r :
  octree_ok oc ->
  Z.of_nat (length (all_samples (TOctree.m_root oc))) < 2 ^ 32 ->
  let it := snd (TOctreeIterator.setR (TOctreeIterator.new oc) oc r) in
  iterator_ok oc it ->
  forall node_collection sel st draws0,
    TSampleSelection.m_radius sel = r ->
    Forall (Forall (good_cell oc)) node_collection ->
    sel_inv (all_samples (TOctree.m_root oc)) (TOctreeIterator.m_sqradius it)
      st ->
    exists s' n,
      TSampleSelection.dart_buckets rnd oc node_collection (sel, st) draws0
      = Some (s', n)
      /\ sel_inv (all_samples (TOctree.m_root oc))
           (TOctreeIterator.m_sqradius it) (snd s')
      /\ (forall x, TSampleSelection.isCovered st x = true ->
                    TSampleSelection.isCovered (snd s') x = true)
      /\ (forall bucket node c,
            In bucket node_collection -> In node bucket ->
            In c (all_samples node) ->
            TSampleSelection.isCovered (snd s') (fst c) = true).
Proof.
  intros Hok Hlen it Hit.
  induction node_collection as [|bucket rest IH];
    intros sel st draws0 Hrad Hgood Hinv.
  - exists (sel, st), draws0. split; [reflexivity|]. split; [exact Hinv|].
    split; [tauto|]. intros bucket node c [].
  - inversion Hgood as [|? ? Hbucket Hrest]; subst.
    pose proof (dart_bucket_spec rnd sel oc Hok Hlen) as Hb.
    cbv zeta in Hb. fold it in Hb.
    destruct (Hb Hit bucket st draws0 Hbucket Hinv)
      as (st1 & l1 & n1 & E1 & Hinv1 & Hmono1 & Hcov1).
    cbn [TSampleSelection.dart_buckets]. rewrite E1.
    match goal with
    | |- context [TSampleSelection.dart_buckets rnd oc rest (?sel1, st1) n1] =>
        destruct (IH sel1 st1 n1 eq_refl Hrest Hinv1)
          as (s2 & n2 & E2 & Hinv2 & Hmono2 & Hcov2)
    end.
    rewrite E2. exists s2, n2. split; [reflexivity|].
    split; [exact Hinv2|]. split; [auto|].
    intros b n c [<-|Hb'] Hn Hc.
    + apply Hmono2. now apply (Hcov1 n).
    + now apply (Hcov2 b n).
Qed.

(** ** The dart-throwing engine *)

(** The dart-throwing engine below the depth of the root: whatever
    [std::rand] returns, the run ends, the invariant holds afterwards and
    every stored sample is covered. *)
Lemma dart_run rnd oc r :
  octree_ok oc ->
  Z.of_nat (length (all_samples (TOctree.m_root oc))) < 2 ^ 32 ->
  (forall c, In c (all_samples (TOctree.m_root oc)) ->
     flags (snd c) = Flags_init) ->
  (0 < r)%Q -> (r < TOctree.m_size oc)%Q ->
  floor_log2 (TOctree.m_size oc / (2 * r)) <= TOctree.m_depth oc ->
  let sel := TSampleSelection.new r oc (TOctreeIterator.new oc) in
  TSampleSelection.dart_depth sel oc < TOctree.m_depth oc ->
  exists s',
    TSampleSelection.performDartThrowingSelection rnd oc
      (sel, TSampleSelection.store_of oc) = Some s'
    /\ sel_inv (all_samples (TOctree.m_root oc)) (r * r)%Q (snd s')
    /\ (forall c, In c (all_samples (TOctree.m_root oc)) ->
          TSampleSelection.isCovered (snd s') (fst c) = true).
Proof.
  intros Hok Hlen Hinit Hr0 Hr1 He sel Hdp.
  pose proof (ok_depth _ Hok) as HD.
  pose proof (setR_iterator_ok (TOctreeIterator.new oc) oc r HD Hr0 Hr1 He)
    as Hit.
  destruct (setR_true (TOctreeIterator.new oc) oc r HD Hr0 Hr1 He)
    as (_ & _ & Hsq & _).
  unfold TSampleSelection.performDartThrowingSelection. cbn [fst].
  set (dp := TSampleSelection.dart_depth sel oc) in *.
  assert (Hdp0 : 0 <= dp) by apply double_to_uint_nonneg.
  unfold TOctree.getRoot.
  pose proof (ok_wf _ Hok) as Hwf.
  destruct (getNodes_spec _ _ _ dp (TOctree.m_root oc) Hdp0 _ _ _ _ Hwf)
    as (HF & _).
  rewrite List.Forall_forall in HF.
  (* the eight buckets *)
  destruct (getNodes_pop_total (rev (TOctree.getNodes dp (TOctree.m_root oc) []))
              ([] ++ map (fun _ => []) eight) eq_refl)
    as (nc & Hnc & Hnc8).
  { apply List.Forall_forall. intros n Hn. apply in_rev in Hn.
    destruct (HF n Hn) as (_ & _ & _ & Hn').
    exists (parity_index dp n). split; [now apply Hn'|].
    apply parity_index_range. }
  assert (Hcoll : TOctree.getNodes_collection dp (TOctree.m_root oc) []
                  = Some nc) by exact Hnc.
  rewrite Hcoll. rewrite firstn_all2 by lia.
  (* the cells of the buckets *)
  assert (Hgood : Forall (Forall (good_cell oc)) nc).
  { apply List.Forall_forall. intros bucket Hbucket.
    apply List.Forall_forall. intros n Hn.
    apply In_nth_error in Hbucket. destruct Hbucket as (b & Hb).
    rewrite <- lookup_nth_error in Hb.
    rewrite (getNodes_collection_bucket _ _ _ _ _ Hcoll Hb) in Hn.
    apply filter_In in Hn. destruct Hn as (Hn & _). apply in_rev in Hn.
    destruct (getNodes_below _ _ _ dp _ _ _ _ _ Hwf n Hn)
      as ((X & Y & Zc & Hw) & Hincl & Hnd).
    split; [now exists dp, X, Y, Zc|]. split; [exact Hincl|].
    apply Hnd. now apply stored_nodup. }
  pose proof (dart_buckets_spec rnd oc r Hok Hlen) as Hb.
  cbv zeta in Hb.
  destruct (Hb Hit nc sel (TSampleSelection.store_of oc) 0%nat eq_refl Hgood)
    as (s' & n & E & Hinv & _ & Hcov).
  { rewrite Hsq. now apply store_of_inv. }
  rewrite E. exists s'. split; [reflexivity|].
  split; [now rewrite Hsq in Hinv|].
  intros c Hc.
  destruct (getNodes_cover _ _ _ dp (TOctree.m_root oc) Hdp0 _ _ _ _ Hwf
              ltac:(lia) c Hc) as (node & Hnode & Hcn).
  destruct (HF node Hnode) as (_ & _ & _ & Hch).
  specialize (Hch Hdp).
  pose proof (parity_index_range dp node) as Hpi.
  destruct (lookup_lt_is_Some_2 nc (Z.to_nat (parity_index dp node))
              ltac:(lia)) as (bucket & Hbk).
  apply (Hcov bucket node c); [| |exact Hcn].
  - apply list_elem_of_In. eapply list_elem_of_lookup_2; eauto.
  - rewrite (getNodes_collection_bucket _ _ _ _ _ Hcoll Hbk).
    apply filter_In. split; [now apply in_rev in Hnode|].
    unfold has_nchild. rewrite Hch. apply Z.eqb_eq. lia.
Qed.

(** ** The selection engines on a built octree *)

(** A built octree whose samples come from the constructors of [Sample]
    is ready for a selection. *)
Lemma built_ready D origin size pts :
  build_ok D origin size pts ->
  Forall (fun s => flags s = Flags_init) pts ->
  let oc := built D origin size pts in
  octree_ok oc
  /\ Z.of_nat (length (all_samples (TOctree.m_root oc))) < 2 ^ 32
  /\ (forall c, In c (all_samples (TOctree.m_root oc)) ->
        flags (snd c) = Flags_init).
Proof.
  intros Hb Hinit oc.
  destruct (built_ok _ _ _ _ Hb) as (Hok & Hperm).
  split; [exact Hok|]. split.
  - fold oc in Hperm. rewrite (Permutation_length Hperm).
    unfold cells_from. rewrite length_combine, length_seq, Nat.min_id.
    apply (bo_count _ _ _ _ Hb).
  - intros [a s] Hc. apply (built_stored D origin size pts a s Hb) in Hc.
    apply nth_error_In in Hc. rewrite List.Forall_forall in Hinit.
    now apply Hinit.
Qed.

(** What the invariant gives once every selected sample is covered:
    selected samples are a radius apart at least, and each has been
    covered once at least. *)
Lemma sel_inv_separation stored r st :
  sel_inv stored (r * r)%Q st ->
  (forall c, In c stored ->
     TSampleSelection.isSelected st (fst c) = true ->
     TSampleSelection.isCovered st (fst c) = true) ->
  (forall a b sa sb,
     In (a, sa) stored -> In (b, sb) stored -> a <> b ->
     TSampleSelection.isSelected st a = true ->
     TSampleSelection.isSelected st b = true ->
     (r * r <= dist2 (pos sa) (pos sb))%Q)
  /\ (forall a sa,
        In (a, sa) stored -> TSampleSelection.isSelected st a = true ->
        TSampleSelection.isCovered st a = true
        /\ 1 <= TSampleSelection.getNCovered st a).
Proof.
  intros Hinv Hvis. split.
  - intros a b sa sb Ha Hb Hab Sa Sb. apply Qltb_ge.
    apply (inv_far _ _ _ Hinv a b sa sb Ha Hb Hab).
    + split; [exact Sa|]. exact (Hvis (a, sa) Ha Sa).
    + split; [exact Sb|]. exact (Hvis (b, sb) Hb Sb).
  - intros a sa Ha Sa. pose proof (Hvis (a, sa) Ha Sa) as Ca.
    split; [exact Ca|]. now apply (inv_ncov _ _ _ Hinv).
Qed.

(** The greedy engine on a built octree, with a radius the iterator
    accepts: two distinct selected samples are a radius apart at least,
    and a selected sample is covered, once at least. *)
Lemma greedy_separation D origin size pts r :
  build_ok D origin size pts ->
  Forall (fun s => flags s = Flags_init) pts ->
  (0 < r)%Q -> (r < size)%Q -> floor_log2 (size / (2 * r)) <= D ->
  let oc := built D origin size pts in
  let sel := TSampleSelection.new r oc (TOctreeIterator.new oc) in
  let st :=
    snd (TSampleSelection.performSelection oc
           (sel, TSampleSelection.store_of oc)) in
  (forall a b sa sb,
     nth_error pts a = Some sa -> nth_error pts b = Some sb -> a <> b ->
     TSampleSelection.isSelected st a = true ->
     TSampleSelection.isSelected st b = true ->
     (r * r <= dist2 (pos sa) (pos sb))%Q)
  /\ (forall a sa,
        nth_error pts a = Some sa ->
        TSampleSelection.isSelected st a = true ->
        TSampleSelection.isCovered st a = true
        /\ 1 <= TSampleSelection.getNCovered st a).
Proof.
  intros Hb Hinit Hr0 Hr1 He oc sel st.
  destruct (built_ready D origin size pts Hb Hinit) as (Hok & Hlen & Hfl).
  fold oc in Hok, Hlen, Hfl.
  destruct (built_params D origin size pts) as (ED & EO & ES).
  fold oc in ED, EO, ES.
  assert (Hr1' : (r < TOctree.m_size oc)%Q) by now rewrite ES.
  assert (He' : floor_log2 (TOctree.m_size oc / (2 * r)) <= TOctree.m_depth oc)
    by now rewrite ES, ED.
  pose proof (greedy_run oc r Hok Hlen Hfl Hr0 Hr1' He') as (_ & Hinv & Hvis).
  fold sel in Hinv, Hvis. fold st in Hinv, Hvis.
  destruct (setR_true (TOctreeIterator.new oc) oc r (ok_depth _ Hok) Hr0 Hr1'
              He') as (_ & _ & Hsq & _).
  rewrite Hsq in Hinv.
  destruct (sel_inv_separation _ r st Hinv Hvis) as (H1 & H2).
  split.
  - intros a b sa sb Ha Hb'. apply H1; now apply (built_stored D origin size).
  - intros a sa Ha. apply H2 with (sa := sa).
    now apply (built_stored D origin size).
Qed.

(** The dart-throwing engine on a built octree, with a radius the
    iterator accepts and a processing depth below the depth of the
    octree: the run ends, two distinct selected samples are a radius
    apart at least, and every sample is covered, once at least. *)
Lemma dart_separation D origin size pts r rnd :
  build_ok D origin size pts ->
  Forall (fun s => flags s = Flags_init) pts ->
  (0 < r)%Q -> (r < size)%Q -> floor_log2 (size / (2 * r)) <= D ->
  let oc := built D origin size pts in
  let sel := TSampleSelection.new r oc (TOctreeIterator.new oc) in
  TSampleSelection.dart_depth sel oc < D ->
  exists s',
    TSampleSelection.performDartThrowingSelection rnd oc
      (sel, TSampleSelection.store_of oc) = Some s'
    /\ (forall a b sa sb,
          nth_error pts a = Some sa -> nth_error pts b = Some sb -> a <> b ->
          TSampleSelection.isSelected (snd s') a = true ->
          TSampleSelection.isSelected (snd s') b = true ->
          (r * r <= dist2 (pos sa) (pos sb))%Q)
    /\ (forall a sa,
          nth_error pts a = Some sa ->
          TSampleSelection.isCovered (snd s') a = true
          /\ 1 <= TSampleSelection.getNCovered (snd s') a).
Proof.
  intros Hb Hinit Hr0 Hr1 He oc sel Hdp.
  destruct (built_ready D origin size pts Hb Hinit) as (Hok & Hlen & Hfl).
  fold oc in Hok, Hlen, Hfl.
  destruct (built_params D origin size pts) as (ED & EO & ES).
  fold oc in ED, EO, ES.
  assert (Hr1' : (r < TOctree.m_size oc)%Q) by now rewrite ES.
  assert (He' : floor_log2 (TOctree.m_size oc / (2 * r)) <= TOctree.m_depth oc)
    by now rewrite ES, ED.
  assert (Hdp' : TSampleSelection.dart_depth sel oc < TOctree.m_depth oc)
    by now rewrite ED.
  destruct (dart_run rnd oc r Hok Hlen Hfl Hr0 Hr1' He' Hdp')
    as (s' & E & Hinv & Hcov).
  exists s'. split; [exact E|].
  destruct (sel_inv_separation _ r (snd s') Hinv) as (H1 & H2).
  { intros c Hc _. now apply Hcov. }
  split.
  - intros a b sa sb Ha Hb'. apply H1; now apply (built_stored D origin size).
  - intros a sa Ha. apply (built_stored D origin size pts a sa Hb) in Ha.
    pose proof (Hcov (a, sa) Ha) as Ca. split; [exact Ca|].
    now apply (inv_ncov _ _ _ Hinv).
Qed.

(** ** The dart-throwing engine above the depth of the root *)

(** No cell has a depth above that of the cell it is searched below. *)
Lemma getNodes_above D origin size k (cell : ptr) :
  forall j X Y Zc,
    wf D origin size j X Y Zc cell -> j < k ->
    TOctree.getNodes k cell [] = [].
Proof.
  induction cell as [|f ch IH]; intros j X Y Zc Hwf Hjk; [reflexivity|].
  destruct Hwf as ((Hd & _) & _ & _ & _ & _ & _ & _ & _ & Hch).
  rewrite getNodes_children by lia.
  rewrite (flat_map_ext_in _ (fun _ => [])).
  - now induction eight.
  - intros i Hi. apply in_eight in Hi.
    destruct (Hch i Hi) as (_ & Hwfi).
    apply (IH i _ _ _ _ Hwfi). lia.
Qed.

(** When the processing depth is above the depth of the octree, the
    dart-throwing engine processes no cell: it returns and leaves the
    flags of every sample as they were. *)
Lemma dart_above_root rnd oc s :
  octree_ok oc ->
  TOctree.m_depth oc < TSampleSelection.dart_depth (fst s) oc ->
  exists sel',
    TSampleSelection.performDartThrowingSelection rnd oc s
    = Some (sel', snd s).
Proof.
  intros Hok Hdp. destruct s as [sel st]. cbn [fst snd] in *.
  unfold TSampleSelection.performDartThrowingSelection,
    TOctree.getNodes_collection, TOctree.getRoot. cbn [fst].
  rewrite (getNodes_above _ _ _ _ _ _ _ _ _ (ok_wf _ Hok) Hdp).
  cbn. eexists. reflexivity.
Qed.

(** On a built octree whose samples come from the constructors of
    [Sample], every sample is then left selected and not covered. *)
Lemma dart_above_root_flags D origin size pts r rnd :
  build_ok D origin size pts ->
  Forall (fun s => flags s = Flags_init) pts ->
  let oc := built D origin size pts in
  let sel := TSampleSelection.new r oc (TOctreeIterator.new oc) in
  D < TSampleSelection.dart_depth sel oc ->
  exists s',
    TSampleSelection.performDartThrowingSelection rnd oc
      (sel, TSampleSelection.store_of oc) = Some s'
    /\ forall a sa, nth_error pts a = Some sa ->
         snd s' !! a = Some (mkFlags true false 0).
Proof.
  intros Hb Hinit oc sel Hdp.
  destruct (built_ready D origin size pts Hb Hinit) as (Hok & _ & Hfl).
  fold oc in Hok, Hfl.
  destruct (built_params D origin size pts) as (ED & _). fold oc in ED.
  destruct (dart_above_root rnd oc (sel, TSampleSelection.store_of oc) Hok)
    as (sel' & E).
  { cbn [fst]. now rewrite ED. }
  exists (sel', TSampleSelection.store_of oc). split; [exact E|].
  intros a sa Ha. cbn [snd].
  destruct (store_of_init oc Hok Hfl) as (_ & _ & Hl).
  apply (Hl a sa). now apply (built_stored D origin size).
Qed.

(** C1.  Separation of the selected samples.  The claim fails in the
    dart-throwing engine on a shallow octree.  For the input file of the
    three points (0,0,0), (1,0,0), (0.1,0,0) and the option [-r 0.6],
    [main] builds an octree of depth 1 and side 1.2; the engine collects
    the cells of depth 2, finds none and returns, whatever [std::rand]
    yields.  The first and the third sample, 0.1 apart, both end with
    [selected = true].  (So does the engine whenever its processing depth
    is above the depth of the octree: lemma [dart_above_root_flags].  The
    greedy engine and the dart-throwing engine below the depth of the
    root do separate the selected samples: lemmas [greedy_separation] and
    [dart_separation].) *)
Theorem dart_throwing_shallow_octree (rnd : nat -> Z) :
  let p0 := Sample_xyz 0 0 0 in
  let p1 := Sample_xyz 1 0 0 in
  let p2 := Sample_xyz (1 # 10) 0 0 in
  let r := (6 # 10)%Q in
  let run := main_selection rnd r p0 [p1; p2] in
  TOctree.m_depth (fst run) = 1
  /\ TSampleSelection.dart_depth
       (TSampleSelection.new r (fst run) (TOctreeIterator.new (fst run)))
       (fst run) = 2
  /\ In (0%nat, p0) (all_samples (TOctree.m_root (fst run)))
  /\ In (2%nat, p2) (all_samples (TOctree.m_root (fst run)))
  /\ exists s',
       snd run = Some s'
       /\ TSampleSelection.isSelected (snd s') 0%nat = true
       /\ TSampleSelection.isSelected (snd s') 2%nat = true
       /\ (dist2 (pos p0) (pos p2) < r * r)%Q.
Proof.
  cbv zeta.
  split; [vm_compute; reflexivity|].
  split; [vm_compute; reflexivity|].
  split; [vm_compute; tauto|].
  split; [vm_compute; tauto|].
  eexists. split; [vm_compute; reflexivity|].
  split; [vm_compute; reflexivity|].
  split; [vm_compute; reflexivity|].
  vm_compute. reflexivity.
Qed.

(** ** A sample is its own neighbour *)

(** [getNeighbors(s, neighbors)] returns the stored sample [s] itself. *)
Lemma self_neighbor oc it a s out :
  octree_ok oc -> iterator_ok oc it ->
  In (a, s) (all_samples (TOctree.m_root oc)) ->
  In a (TOctreeIterator.getNeighbors it oc (pos s) out).
Proof.
  intros Hok (Hr & Hsq & Hd0 & Hcell) Hs.
  assert (Hcube : in_cube oc (pos s)).
  { destruct (wf_samples _ _ _ _ _ _ _ _ (a, s) (ok_wf _ Hok) Hs) as (H & _).
    exact H. }
  unfold TOctreeIterator.getNeighbors.
  destruct (locatePointNode_spec oc it (pos s) Hok Hcube Hd0)
    as (Hcq & Hrange & _).
  apply (getNeighbors_node_complete oc it (pos s) _ out (a, s));
    try assumption.
  - now apply Hcell.
  - apply close_self. now apply sqradius_pos.
Qed.

Lemma NoDup_only {A : Type} (l : list A) (a : A) :
  List.NoDup l -> (forall x, In x l <-> x = a) -> l = [a].
Proof.
  intros Hnd H. destruct l as [|x l]; [exfalso; now apply (H a)|].
  assert (x = a) as -> by (apply H; now left).
  destruct l as [|y l]; [reflexivity|].
  assert (y = a) as -> by (apply H; right; now left).
  inversion Hnd as [|? ? Hn _]; subst. exfalso. apply Hn. now left.
Qed.

(** A stored sample with no other stored sample within the radius has
    one neighbour, itself. *)
Lemma lone_sample_neighbors oc it par a s :
  octree_ok oc -> iterator_ok oc it ->
  In (a, s) (all_samples (TOctree.m_root oc)) ->
  cell_of_query oc (pos s) par ->
  Z.min (TOctreeIterator.m_activeDepth it) (TOctree.m_depth oc)
  <= getDepth par <= TOctree.m_depth oc ->
  (forall b sb, In (b, sb) (all_samples (TOctree.m_root oc)) -> b <> a ->
     (TOctreeIterator.m_sqradius it <= dist2 (pos s) (pos sb))%Q) ->
  TOctreeIterator.getNeighbors_node it oc (pos s) par [] = [a].
Proof.
  intros Hok (Hr & Hsq & Hd0 & Hcell) Hs Hcq Hpar Hlone.
  assert (Hcube : in_cube oc (pos s)).
  { destruct (wf_samples _ _ _ _ _ _ _ _ (a, s) (ok_wf _ Hok) Hs) as (H & _).
    exact H. }
  destruct (getNeighbors_node_exact oc it (pos s) par Hok Hr Hsq Hcube Hcq
              (Hcell _ Hpar)) as (Hnd & Hin).
  apply NoDup_only; [exact Hnd|].
  intros x. rewrite Hin. split.
  - intros (sx & Hsx & Hnear).
    destruct (Nat.eq_dec x a) as [E|Hne]; [exact E|exfalso].
    apply Qltb_lt in Hnear. pose proof (Hlone x sx Hsx Hne) as Hfar.
    simpl in Hnear. lra.
  - intros ->. exists s. split; [exact Hs|].
    apply (close_self _ s). now apply sqradius_pos.
Qed.

(** C10.  A selected sample is covered.  The claim fails in the
    dart-throwing engine on a shallow octree, by the defect of C1: for
    the input file of the three points (0,0,0), (1,0,0), (0.1,0,0) and
    the option [-r 0.6], the engine processes no cell, and the first
    sample ends with [selected = true], [covered = false] and
    [ncovered = 0], whatever [std::rand] yields.  (A stored sample is its
    own neighbour, a lone sample has one neighbour, and a sample the
    greedy engine selects is covered: lemmas [self_neighbor],
    [lone_sample_neighbors], [greedy_separation].) *)
Theorem dart_throwing_selected_not_covered (rnd : nat -> Z) :
  let p0 := Sample_xyz 0 0 0 in
  let p1 := Sample_xyz 1 0 0 in
  let p2 := Sample_xyz (1 # 10) 0 0 in
  let run := main_selection rnd (6 # 10) p0 [p1; p2] in
  In (0%nat, p0) (all_samples (TOctree.m_root (fst run)))
  /\ exists s',
       snd run = Some s'
       /\ TSampleSelection.isSelected (snd s') 0%nat = true
       /\ TSampleSelection.isCovered (snd s') 0%nat = false
       /\ TSampleSelection.getNCovered (snd s') 0%nat = 0.
Proof.
  cbv zeta.
  split; [vm_compute; tauto|].
  eexists. split; [vm_compute; reflexivity|].
  split; [vm_compute; reflexivity|].
  split; vm_compute; reflexivity.
Qed.

(** ** Fewer than three samples *)


(** With fewer than three stored samples, no query finds three
    neighbours, and the greedy engine unselects every sample and covers
    none. *)
Lemma greedy_sparse oc r :
  octree_ok oc ->
  (length (all_samples (TOctree.m_root oc)) < 3)%nat ->
  (forall c, In c (all_samples (TOctree.m_root oc)) ->
     flags (snd c) = Flags_init) ->
  (0 < r)%Q -> (r < TOctree.m_size oc)%Q ->
  floor_log2 (TOctree.m_size oc / (2 * r)) <= TOctree.m_depth oc ->
  let sel := TSampleSelection.new r oc (TOctreeIterator.new oc) in
  let st :=
    snd (TSampleSelection.performSelection oc
           (sel, TSampleSelection.store_of oc)) in
  forall c, In c (all_samples (TOctree.m_root oc)) ->
    st !! fst c = Some (mkFlags false false 0).
Proof.
  intros Hok Hlen Hinit Hr0 Hr1 He sel st.
  pose proof (ok_depth _ Hok) as HD.
  set (it := snd (TOctreeIterator.setR (TOctreeIterator.new oc) oc r)).
  destruct (setR_iterator_ok (TOctreeIterator.new oc) oc r HD Hr0 Hr1 He)
    as (Hr & Hsq & Hd0 & Hcell).
  fold it in Hr, Hsq, Hd0, Hcell.
  assert (HJ : sparse_inv oc it (all_samples (TOctree.m_root oc))
                 (TSampleSelection.performSelection oc
                    (sel, TSampleSelection.store_of oc))).
  { unfold TSampleSelection.performSelection, TOctree.getRoot.
    apply (performSelection_cell_inv (TOctree.m_depth oc)
             (TOctree.m_origin oc) (TOctree.m_size oc) oc
             (TOctreeIterator.m_activeDepth it)
             (all_samples (TOctree.m_root oc)) (sparse_inv oc it) Hd0)
      with (k := TOctree.m_depth oc) (X := 0) (Y := 0) (Zc := 0) (vis := []).
    - intros vis s (H & _). now rewrite H.
    - intros par kp X Y Zc [a sa] vis [sel' st'] Hwf Hpar Hkp Hincl Hc
        (Hit & Hall & Hvis).
      cbn [fst snd] in *.
      pose proof (Hincl _ Hc) as Hst.
      destruct (Hall _ Hst) as (b & Hb). cbn [fst] in Hb.
      unfold TSampleSelection.select_sample. cbn [fst snd].
      unfold TSampleSelection.isCovered at 1. rewrite Hb. cbn [m_covered negb].
      rewrite Hit.
      (* the neighbours are stored samples, each once *)
      pose proof (wf_depth _ _ _ _ _ _ _ _ Hwf Hpar) as Hdp.
      destruct (wf_samples _ _ _ _ _ _ _ _ (a, sa) Hwf Hc)
        as (_ & Cx & Cy & Cz).
      assert (Hkp' : 0 <= kp <= TOctree.m_depth oc).
      { destruct par as [|f ch]; [congruence|]. apply Hwf. }
      assert (Hcube : in_cube oc (pos sa)).
      { destruct (wf_samples _ _ _ _ _ _ _ _ (a, sa) (ok_wf _ Hok) Hst)
          as (H & _). exact H. }
      assert (Hcq : cell_of_query oc (pos sa) par).
      { split; [exact Hpar|]. cbn [snd] in Cx, Cy, Cz.
        rewrite Hdp, Cx, Cy, Cz. exact Hwf. }
      destruct (getNeighbors_node_exact oc it (pos sa) par Hok Hr Hsq Hcube
                  Hcq) as (Hnd & Hin).
      { rewrite Hdp. apply Hcell. lia. }
      set (nb := TOctreeIterator.getNeighbors_node it oc (pos sa) par []) in *.
      assert (Hfew : (length nb
                      <= length (map fst (all_samples (TOctree.m_root oc))))%nat).
      { apply NoDup_incl_length; [exact Hnd|].
        intros x Hx. apply Hin in Hx. destruct Hx as (sx & Hsx & _).
        apply in_map_iff. now exists (x, sx). }
      rewrite length_map in Hfew.
      destruct (Z.ltb_spec (Z.of_nat (length nb)) 3) as [_|Hge]; [|lia].
      split; [exact Hit|]. cbn [snd]. split.
      + intros c' Hc'. rewrite setSelected_lookup.
        destruct (Hall c' Hc') as (b' & Hb').
        destruct (decide (fst c' = a)); rewrite Hb'; now eexists.
      + intros c' Hc'. rewrite setSelected_lookup.
        apply in_app_or in Hc'. destruct Hc' as [Hc'|[<-|[]]].
        * rewrite (Hvis c' Hc'). now destruct (decide (fst c' = a)).
        * cbn [fst]. rewrite decide_True by reflexivity. now rewrite Hb.
    - exact (ok_wf _ Hok).
    - now right.
    - apply incl_refl.
    - split; [reflexivity|]. split; [|intros c []].
      intros [a sa] Hc.
      destruct (store_of_init oc Hok Hinit) as (_ & _ & Hl).
      cbn [fst snd]. rewrite (Hl a sa Hc). now eexists. }
  destruct HJ as (_ & _ & Hvis). exact Hvis.
Qed.

(** ** Two identical points *)

(** The greedy engine on two identical points at the origin, radius 0.1,
    in an octree of depth 4 and side 1.6: the first point is not
    selected and the second one is not covered. *)
Lemma two_identical_points_counterexample :
  let pts := [Sample_xyz 0 0 0; Sample_xyz 0 0 0] in
  let oc := built 4 (mkPoint (-4 # 5) (-4 # 5) (-4 # 5)) (8 # 5) pts in
  let sel := TSampleSelection.new (1 # 10) oc (TOctreeIterator.new oc) in
  let st :=
    snd (TSampleSelection.performSelection oc
           (sel, TSampleSelection.store_of oc)) in
  ~ (TSampleSelection.isSelected st 0%nat = true
     /\ TSampleSelection.isCovered st 1%nat = true
     /\ TSampleSelection.isSelected st 1%nat = false).
Proof.
  cbv zeta. intros (H & _). vm_compute in H. discriminate.
Qed.

(** C4 (amended).  Two identical points at the origin, radius 0.1, in an
    octree whose iterator accepts the radius.  The greedy engine finds
    two neighbours for each point, fewer than three, and ends with both
    points not selected and not covered.  The dart-throwing engine, when
    its processing depth is below the depth of the octree, ends, whatever
    [std::rand] yields, with one point selected and covered and the other
    one covered and not selected. *)
Theorem two_identical_points (D : Z) (origin : Point) (size : Q)
    (p1 p2 : Sample) :
  pos p1 = mkPoint 0 0 0 -> pos p2 = mkPoint 0 0 0 ->
  flags p1 = Flags_init -> flags p2 = Flags_init ->
  build_ok D origin size [p1; p2] ->
  (1 # 10 < size)%Q -> floor_log2 (size / (2 * (1 # 10))) <= D ->
  let oc := built D origin size [p1; p2] in
  let sel := TSampleSelection.new (1 # 10) oc (TOctreeIterator.new oc) in
  let st0 := TSampleSelection.store_of oc in
  (let st := snd (TSampleSelection.performSelection oc (sel, st0)) in
   st !! 0%nat = Some (mkFlags false false 0)
   /\ st !! 1%nat = Some (mkFlags false false 0))
  /\ (TSampleSelection.dart_depth sel oc < D ->
      forall rnd,
      exists s',
        TSampleSelection.performDartThrowingSelection rnd oc (sel, st0)
        = Some s'
        /\ TSampleSelection.isCovered (snd s') 0%nat = true
        /\ TSampleSelection.isCovered (snd s') 1%nat = true
        /\ (TSampleSelection.isSelected (snd s') 0%nat
            = negb (TSampleSelection.isSelected (snd s') 1%nat))).
Proof.
  intros Hp1 Hp2 Hf1 Hf2 Hb Hr1 He oc sel st0.
  assert (Hinit : Forall (fun s => flags s = Flags_init) [p1; p2])
    by (repeat constructor; assumption).
  assert (Hr0 : (0 < 1 # 10)%Q) by reflexivity.
  destruct (built_ready D origin size [p1; p2] Hb Hinit) as (Hok & Hlen & Hfl).
  fold oc in Hok, Hlen, Hfl.
  destruct (built_params D origin size [p1; p2]) as (ED & EO & ES).
  fold oc in ED, EO, ES.
  assert (Hr1' : (1 # 10 < TOctree.m_size oc)%Q) by now rewrite ES.
  assert (He' : floor_log2 (TOctree.m_size oc / (2 * (1 # 10)))
                <= TOctree.m_depth oc) by now rewrite ES, ED.
  assert (H0 : In (0%nat, p1) (all_samples (TOctree.m_root oc)))
    by now apply (built_stored D origin size [p1; p2]).
  assert (H1 : In (1%nat, p2) (all_samples (TOctree.m_root oc)))
    by now apply (built_stored D origin size [p1; p2]).
  split.
  - (* the greedy engine *)
    assert (Hfew : (length (all_samples (TOctree.m_root oc)) < 3)%nat).
    { destruct (built_ok _ _ _ _ Hb) as (_ & Hperm). fold oc in Hperm.
      rewrite (Permutation_length Hperm). simpl. lia. }
    pose proof (greedy_sparse oc (1 # 10) Hok Hfew Hfl Hr0 Hr1' He') as H.
    cbv zeta in H. cbv zeta.
    split; [exact (H _ H0)|exact (H _ H1)].
  - (* the dart-throwing engine *)
    intros Hdp rnd.
    assert (Hdp' : TSampleSelection.dart_depth sel oc < TOctree.m_depth oc)
      by now rewrite ED.
    destruct (dart_run rnd oc (1 # 10) Hok Hlen Hfl Hr0 Hr1' He' Hdp')
      as (s' & E & Hinv & Hcov).
    exists s'. split; [exact E|].
    pose proof (Hcov _ H0) as C0. pose proof (Hcov _ H1) as C1.
    cbn [fst] in C0, C1.
    split; [exact C0|]. split; [exact C1|].
    (* the two points are within the radius of each other *)
    assert (Hclose : close ((1 # 10) * (1 # 10)) p1 p2 = true).
    { unfold close. rewrite Hp1, Hp2. reflexivity. }
    (* one of them has been selected *)
    assert (Hsome : TSampleSelection.isSelected (snd s') 0%nat = true
                    \/ TSampleSelection.isSelected (snd s') 1%nat = true).
    { pose proof (inv_ncov _ _ _ Hinv 0%nat C0) as N0.
      pose proof (inv_bound _ _ _ Hinv 0%nat) as B0.
      unfold centers_count in B0.
      destruct (List.filter (is_center (snd s'))
                  (all_samples (TOctree.m_root oc))) as [|[a sa] l] eqn:F;
        [simpl in B0; lia|].
      assert (Hin : In (a, sa)
                      (List.filter (is_center (snd s'))
                         (all_samples (TOctree.m_root oc))))
        by (rewrite F; now left).
      apply filter_In in Hin. destruct Hin as (Hst & Hc).
      apply andb_true_iff in Hc. destruct Hc as (Hs & _). cbn [fst] in Hs.
      apply (built_stored D origin size [p1; p2] a sa Hb) in Hst.
      destruct a as [|[|a]]; [now left|now right|].
      destruct a; discriminate. }
    destruct (TSampleSelection.isSelected (snd s') 0%nat) eqn:S0;
      destruct (TSampleSelection.isSelected (snd s') 1%nat) eqn:S1;
      try reflexivity; exfalso.
    + pose proof (inv_far _ _ _ Hinv 0%nat 1%nat p1 p2 H0 H1 ltac:(lia)
                    (conj S0 C0) (conj S1 C1)). congruence.
    + destruct Hsome; discriminate.
Qed.

Lemma two_identical_points_witness :
  let p := Sample_xyz 0 0 0 in
  let oc := built 4 (mkPoint (-4 # 5) (-4 # 5) (-4 # 5)) (8 # 5) [p; p] in
  let sel := TSampleSelection.new (1 # 10) oc (TOctreeIterator.new oc) in
  let st0 := TSampleSelection.store_of oc in
  (let st := snd (TSampleSelection.performSelection oc (sel, st0)) in
   st !! 0%nat = Some (mkFlags false false 0)
   /\ st !! 1%nat = Some (mkFlags false false 0))
  /\ forall rnd,
     exists s',
       TSampleSelection.performDartThrowingSelection rnd oc (sel, st0)
       = Some s'
       /\ TSampleSelection.isCovered (snd s') 0%nat = true
       /\ TSampleSelection.isCovered (snd s') 1%nat = true
       /\ (TSampleSelection.isSelected (snd s') 0%nat
           = negb (TSampleSelection.isSelected (snd s') 1%nat)).
Proof.
  cbv zeta.
  pose proof (two_identical_points 4 (mkPoint (-4 # 5) (-4 # 5) (-4 # 5))
                (8 # 5) (Sample_xyz 0 0 0) (Sample_xyz 0 0 0)
                eq_refl eq_refl eq_refl eq_refl
                ltac:(build_dec) ltac:(q_dec)
                ltac:(vm_compute; discriminate)) as (Hg & Hd).
  split; [exact Hg|]. apply Hd. vm_compute. reflexivity.
Defined.

(** * Properties of the code outside the claims *)

(** ** Traversals of a subtree *)

Lemma fold_left_filter {A B : Type} (f : A -> B -> A) (P : B -> bool)
    (l : list B) :
  forall acc,
    fold_left (fun acc c => if P c then f acc c else acc) l acc
    = fold_left f (List.filter P l) acc.
Proof.
  induction l as [|c l IH]; intros acc; [reflexivity|].
  cbn [fold_left List.filter]. destruct (P c); apply IH.
Qed.

(** A function that walks a subtree like [explore] does, with the body
    [step] on the samples of the leaves, is a fold of [step] over the
    samples below the node. *)
Lemma tree_fold D origin size {A : Type} (F : ptr -> A -> A)
    (step : A -> addr * Sample -> A) :
  (forall out, F NULL out = out) ->
  (forall f ch out,
     F (Node f ch) out
     = if negb (m_depth f =? 0) then
         fold_left
           (fun acc i =>
              match ch (i mod 8) with
              | NULL => acc
              | Node _ _ => F (ch (i mod 8)) acc
              end)
           eight out
       else if negb (m_npts f =? 0) then fold_left step (m_points f) out
       else out) ->
  forall (n : ptr) k X Y Zc,
    wf D origin size k X Y Zc n ->
    forall out, F n out = fold_left step (all_samples n) out.
Proof.
  intros Hnull Hnode.
  induction n as [|f ch IH]; intros k X Y Zc Hwf out; [apply Hnull|].
  destruct Hwf as ((Hd & HX & HY & HZ) & (Okx & Oky & Okz) & Hsz & Ho & Hnp
                   & Hpts & Hleaf & Hch0 & Hch).
  assert (Hk : 0 <= k) by apply Okx.
  rewrite Hnode. cbn [all_samples]. rewrite Hd.
  destruct (Z.eqb_spec k 0) as [Hk0|Hk0]; cbn [negb].
  - assert (Hnil : flat_map (fun i => all_samples (ch i)) eight = []).
    { unfold eight. simpl. rewrite !Hch0 by exact Hk0. reflexivity. }
    rewrite Hnil, app_nil_r.
    destruct (Z.eqb_spec (m_npts f) 0) as [Hn0|Hn0]; cbn [negb];
      [|reflexivity].
    destruct (m_points f); [reflexivity|]. simpl in Hnp. lia.
  - rewrite Hpts by lia. cbn [app].
    rewrite fold_left_over_flat_map. apply fold_left_ext_in.
    intros s' i Hi. apply in_eight in Hi.
    rewrite Z.mod_small by exact Hi.
    destruct (Hch i Hi) as (_ & Hwfi).
    rewrite <- (IH i _ _ _ _ Hwfi).
    destruct (ch i) eqn:E; [now rewrite Hnull|reflexivity].
Qed.

(** The three nested loops, for a visit that folds a body over the items
    [g] finds in a node. *)
Lemma look_inside_fold {A B : Type} (oc : TOctree.t) (xloc yloc zloc : list Z)
    (k : Z) (visit : ptr -> A -> A) (g : ptr -> list B) (f : A -> B -> A) :
  (forall n out, In n (candidates oc xloc yloc zloc k) ->
     visit n out = fold_left f (g n) out) ->
  forall out,
    TOctreeIterator.look_inside oc xloc yloc zloc k visit out
    = fold_left f (flat_map g (candidates oc xloc yloc zloc k)) out.
Proof.
  intros Hv out.
  assert (Hc : forall xi yi zi n, In xi xloc -> In yi yloc -> In zi zloc ->
            In n (candidate oc k xi yi zi) ->
            In n (candidates oc xloc yloc zloc k)).
  { intros xi yi zi n Hx Hy Hz Hn. apply in_candidate in Hn.
    apply in_candidates. exists xi, yi, zi. tauto. }
  change (candidates oc xloc yloc zloc k)
    with (flat_map (fun xi => flat_map (fun yi =>
            flat_map (candidate oc k xi yi) zloc) yloc) xloc).
  rewrite <- flat_map_comp, fold_left_over_flat_map.
  unfold TOctreeIterator.look_inside.
  apply fold_left_ext_in. intros out1 xi Hx.
  rewrite <- flat_map_comp, fold_left_over_flat_map.
  apply fold_left_ext_in. intros out2 yi Hy.
  rewrite <- flat_map_comp, fold_left_over_flat_map.
  apply fold_left_ext_in. intros out3 zi Hz.
  cbv zeta. pose proof (Hc xi yi zi) as Hc'.
  unfold candidate in *. cbv zeta in Hc'.
  destruct (negb _ && _).
  - cbn [flat_map]. rewrite app_nil_r. apply Hv.
    apply (Hc' _ Hx Hy Hz). now left.
  - reflexivity.
Qed.

(** ** The nodes a query explores *)

(** The nodes a query explores satisfy the invariant, at the depth of the
    query node, and hold stored samples. *)
Lemma explored_nodes_wf oc it q qn n :
  octree_ok oc -> cell_of_query oc q qn ->
  In n (TOctreeIterator.explored_nodes it oc q qn) ->
  (exists X Y Zc, wf_in oc (getDepth qn) X Y Zc n)
  /\ incl (all_samples n) (all_samples (TOctree.m_root oc)).
Proof.
  intros Hok (Hqn & Hwfq) Hn.
  pose proof (ok_depth _ Hok) as HD. pose proof (ok_size _ Hok) as Hs.
  split; [|now apply (explored_nodes_incl it oc q qn)].
  destruct qn as [|f ch]; [congruence|]. cbn [getDepth] in *.
  destruct Hwfq as ((Hd & HX & HY & HZ) & (Okx & Oky & Okz) & Hsz
                    & (Hox & Hoy & Hoz) & _).
  rewrite <- HX in Okx, Hox. rewrite <- HY in Oky, Hoy.
  rewrite <- HZ in Okz, Hoz.
  assert (Hk : 0 <= m_depth f) by apply Okx.
  destruct (axis_codes_distinct _ _ it _ (m_x q) _ _ _ _ HD Hs Okx Hox Hsz)
    as (Bx & _).
  destruct (axis_codes_distinct _ _ it _ (m_y q) _ _ _ _ HD Hs Oky Hoy Hsz)
    as (By & _).
  destruct (axis_codes_distinct _ _ it _ (m_z q) _ _ _ _ HD Hs Okz Hoz Hsz)
    as (Bz & _).
  rewrite List.Forall_forall in Bx, By, Bz.
  rewrite explored_nodes_eq in Hn. cbn [getDepth] in Hn.
  apply in_candidates in Hn.
  destruct Hn as (xi & yi & zi & Hx & Hy & Hz & -> & _ & Hdn).
  destruct (candidate_loc oc xi yi zi (m_depth f) Hok (Bx _ Hx) (By _ Hy)
              (Bz _ Hz) Hk Hdn) as (_ & Hwf).
  eexists _, _, _. exact Hwf.
Qed.

Lemma visited_neighbors_stored it oc q qn c :
  In c (visited_neighbors it oc q qn) ->
  In c (all_samples (TOctree.m_root oc)) /\ near it q c = true.
Proof.
  unfold visited_neighbors. intros H. apply in_flat_map in H.
  destruct H as (n & Hn & Hc). apply filter_In in Hc.
  destruct Hc as (Hc & Hnear). split; [|exact Hnear].
  now apply (explored_nodes_incl it oc q qn n Hn).
Qed.

(** [getNeighbors(query, query_node, neighbors)] returns the addresses of
    the visited neighbours, in the order of the visit. *)
Lemma getNeighbors_node_visited oc it q qn :
  octree_ok oc -> cell_of_query oc q qn ->
  TOctreeIterator.getNeighbors_node it oc q qn []
  = map fst (visited_neighbors it oc q qn).
Proof.
  intros Hok Hcq. rewrite getNeighbors_node_eq. cbn [app].
  unfold visited_neighbors. rewrite map_of_flat_map.
  apply flat_map_ext_in. intros n Hn.
  destruct (explored_nodes_wf oc it q qn n Hok Hcq Hn)
    as ((X & Y & Zc & Hwf) & _).
  exact (explore_eq _ _ _ it q _ _ _ _ _ Hwf).
Qed.

(** The visit of a query, for a body folded over the samples of the
    leaves that pass the test. *)
Lemma query_fold {A : Type} oc it q qn (F : ptr -> A -> A)
    (f : A -> addr * Sample -> A) :
  octree_ok oc -> cell_of_query oc q qn ->
  (forall out, F NULL out = out) ->
  (forall fd ch out,
     F (Node fd ch) out
     = if negb (m_depth fd =? 0) then
         fold_left
           (fun acc i =>
              match ch (i mod 8) with
              | NULL => acc
              | Node _ _ => F (ch (i mod 8)) acc
              end)
           eight out
       else if negb (m_npts fd =? 0) then
         fold_left (fun acc c => if near it q c then f acc c else acc)
           (m_points fd) out
       else out) ->
  forall out,
    TOctreeIterator.look_inside oc (TOctreeIterator.xloc_list it oc q qn)
      (TOctreeIterator.yloc_list it oc q qn)
      (TOctreeIterator.zloc_list it oc q qn) (getDepth qn) F out
    = fold_left f (visited_neighbors it oc q qn) out.
Proof.
  intros Hok Hcq Hnull Hnode out.
  unfold visited_neighbors. rewrite explored_nodes_eq.
  apply look_inside_fold. intros n out' Hn.
  rewrite <- explored_nodes_eq in Hn.
  destruct (explored_nodes_wf oc it q qn n Hok Hcq Hn)
    as ((X & Y & Zc & Hwf) & _).
  rewrite (tree_fold _ _ _ F _ Hnull Hnode n _ _ _ _ Hwf).
  apply fold_left_filter.
Qed.

(** The visited neighbours of a query are the stored samples that pass
    the test, each one once. *)
Lemma visited_neighbors_exact oc it q qn :
  octree_ok oc ->
  (0 < TOctreeIterator.m_radius it)%Q ->
  (TOctreeIterator.m_sqradius it
   == TOctreeIterator.m_radius it * TOctreeIterator.m_radius it)%Q ->
  in_cube oc q ->
  cell_of_query oc q qn ->
  (TOctreeIterator.m_radius it
   < cell_size (TOctree.m_depth oc) (TOctree.m_size oc) (getDepth qn))%Q ->
  List.NoDup (map fst (visited_neighbors it oc q qn))
  /\ forall c, In c (visited_neighbors it oc q qn)
       <-> In c (all_samples (TOctree.m_root oc)) /\ near it q c = true.
Proof.
  intros Hok Hr Hsq Hq Hcq Hsz.
  destruct (getNeighbors_node_exact oc it q qn Hok Hr Hsq Hq Hcq Hsz)
    as (Hnd & Hin).
  rewrite (getNeighbors_node_visited oc it q qn Hok Hcq) in Hnd, Hin.
  split; [exact Hnd|].
  intros c. split; [apply visited_neighbors_stored|].
  intros (Hc & Hnear). destruct c as (a, s).
  assert (Ha : In a (map fst (visited_neighbors it oc q qn))).
  { apply Hin. exists s. split; assumption. }
  apply in_map_iff in Ha. destruct Ha as ((a', s') & Ea & Hc').
  simpl in Ea. subst a'.
  destruct (visited_neighbors_stored _ _ _ _ _ Hc') as (Hs' & _).
  now rewrite (stored_functional oc a s s' Hok Hc Hs').
Qed.

(** What a query needs of an octree built by [addPoints] and of an
    iterator set by [setR]. *)
Lemma query_ready D origin size pts r q :
  build_ok D origin size pts ->
  (0 < r)%Q -> (r < size)%Q ->
  floor_log2 (size / (2 * r)) <= D ->
  inside origin size q ->
  let oc := built D origin size pts in
  let it := snd (TOctreeIterator.setR (TOctreeIterator.new oc) oc r) in
  let qn := TOctreeIterator.locatePointNode it oc q in
  octree_ok oc
  /\ TOctreeIterator.m_sqradius it = (r * r)%Q
  /\ (0 < TOctreeIterator.m_radius it)%Q
  /\ (TOctreeIterator.m_sqradius it
      == TOctreeIterator.m_radius it * TOctreeIterator.m_radius it)%Q
  /\ in_cube oc q
  /\ cell_of_query oc q qn
  /\ (TOctreeIterator.m_radius it
      < cell_size (TOctree.m_depth oc) (TOctree.m_size oc) (getDepth qn))%Q.
Proof.
  intros Hb Hr0 Hr1 He Hq oc it qn.
  destruct (built_ok _ _ _ _ Hb) as (Hok & _). fold oc in Hok.
  destruct (built_params D origin size pts) as (ED & EO & ES).
  fold oc in ED, EO, ES.
  pose proof (ok_depth _ Hok) as HD.
  assert (Hr1' : (r < TOctree.m_size oc)%Q) by (rewrite ES; exact Hr1).
  assert (He' : floor_log2 (TOctree.m_size oc / (2 * r)) <= TOctree.m_depth oc)
    by (rewrite ES, ED; exact He).
  destruct (setR_true (TOctreeIterator.new oc) oc r HD Hr0 Hr1' He')
    as (_ & Erad & Esq & _ & Hd).
  fold it in Erad, Esq, Hd.
  assert (Hq' : in_cube oc q) by now apply built_in_cube.
  destruct (locatePointNode_spec oc it q Hok Hq' ltac:(lia))
    as (Hcell & Hdepth & _).
  fold qn in Hcell, Hdepth.
  split; [exact Hok|]. split; [exact Esq|].
  split; [rewrite Erad; exact Hr0|].
  split; [rewrite Erad, Esq; reflexivity|].
  split; [exact Hq'|]. split; [exact Hcell|].
  rewrite Erad.
  apply (setR_cell_size (TOctreeIterator.new oc) oc r HD Hr0 Hr1' He').
  exact Hdepth.
Qed.

Lemma filter_length_perm {A : Type} (f : A -> bool) (l l' : list A) :
  Permutation l l' ->
  length (List.filter f l) = length (List.filter f l').
Proof.
  induction 1 as [|x l l' _ IH|x y l|l l' l'' _ IH1 _ IH2]; simpl.
  - reflexivity.
  - destruct (f x); simpl; congruence.
  - destruct (f x), (f y); reflexivity.
  - congruence.
Qed.

Lemma filter_cells_length (P : Sample -> bool) (pts : list Sample) :
  forall n,
    length (List.filter (fun c : addr * Sample => P (snd c))
              (cells_from n pts))
    = length (List.filter P pts).
Proof.
  unfold cells_from.
  induction pts as [|p pts IH]; intros n; [reflexivity|].
  cbn [length seq combine List.filter snd].
  destruct (P p); cbn [length]; now rewrite IH.
Qed.

(** The visited neighbours of a query in a built octree, and the samples
    of the batch that pass the test. *)
Lemma visited_neighbors_built D origin size pts r q :
  build_ok D origin size pts ->
  (0 < r)%Q -> (r < size)%Q ->
  floor_log2 (size / (2 * r)) <= D ->
  inside origin size q ->
  let oc := built D origin size pts in
  let it := snd (TOctreeIterator.setR (TOctreeIterator.new oc) oc r) in
  let qn := TOctreeIterator.locatePointNode it oc q in
  let L := visited_neighbors it oc q qn in
  List.NoDup (map fst L)
  /\ (forall a s, In (a, s) L
        <-> nth_error pts a = Some s /\ within q (r * r) s = true)
  /\ length L = length (List.filter (within q (r * r)) pts).
Proof.
  intros Hb Hr0 Hr1 He Hq oc it qn L.
  destruct (query_ready _ _ _ _ _ _ Hb Hr0 Hr1 He Hq)
    as (Hok & Esq & Hr & Hsq & Hq' & Hcq & Hsz).
  fold oc in Hok, Esq, Hr, Hsq, Hq', Hcq, Hsz.
  fold it in Esq, Hr, Hsq, Hcq, Hsz. fold qn in Hcq, Hsz.
  destruct (visited_neighbors_exact oc it q qn Hok Hr Hsq Hq' Hcq Hsz)
    as (Hnd & Hin).
  fold L in Hnd, Hin.
  assert (Hnear : forall c, near it q c = within q (r * r) (snd c)).
  { intros c. unfold near, within. now rewrite Esq. }
  split; [exact Hnd|]. split.
  - intros a s. rewrite Hin, Hnear. simpl.
    unfold oc. rewrite (built_stored _ _ _ _ a s Hb). reflexivity.
  - destruct (built_ok _ _ _ _ Hb) as (_ & Hperm). fold oc in Hperm.
    rewrite <- (filter_cells_length (within q (r * r)) pts 0).
    rewrite <- (filter_length_perm _ _ _ Hperm).
    apply Permutation_length. apply Permutation.NoDup_Permutation.
    + exact (List.NoDup_map_inv _ _ Hnd).
    + apply List.NoDup_filter.
      exact (List.NoDup_map_inv _ _ (stored_nodup oc Hok)).
    + intros c. rewrite Hin, filter_In, Hnear. reflexivity.
Qed.

(** ** [getNeighbors]: every neighbour once *)

(** X1.  In an octree built by [addPoints] from samples of the bounding
    cube, after a [setR(r)] that succeeds, [getNeighbors(q, neighbors)]
    for a query point [q] of the cube reports no sample twice: the list
    it fills has no repeated address, and its length is the number of
    samples of the batch whose squared distance to [q] is strictly below
    r * r, samples of equal coordinates counted one by one. *)
Theorem getNeighbors_each_once (D : Z) (origin : Point) (size : Q)
    (pts : list Sample) (r : Q) (q : Point) :
  build_ok D origin size pts ->
  (0 < r)%Q -> (r < size)%Q ->
  floor_log2 (size / (2 * r)) <= D ->
  inside origin size q ->
  let oc := built D origin size pts in
  let it := snd (TOctreeIterator.setR (TOctreeIterator.new oc) oc r) in
  let found := TOctreeIterator.getNeighbors it oc q [] in
  List.NoDup found
  /\ length found = length (List.filter (within q (r * r)) pts).
Proof.
  intros Hb Hr0 Hr1 He Hq oc it found.
  destruct (query_ready _ _ _ _ _ _ Hb Hr0 Hr1 He Hq)
    as (Hok & _ & _ & _ & _ & Hcq & _).
  fold oc in Hok, Hcq. fold it in Hcq.
  destruct (visited_neighbors_built _ _ _ _ _ _ Hb Hr0 Hr1 He Hq)
    as (Hnd & _ & Hlen).
  fold oc it in Hnd, Hlen.
  assert (Ef : found = map fst (visited_neighbors it oc q
                 (TOctreeIterator.locatePointNode it oc q))).
  { apply getNeighbors_node_visited; assumption. }
  split.
  - rewrite Ef. exact Hnd.
  - rewrite Ef, length_map. exact Hlen.
Qed.

Lemma getNeighbors_each_once_witness :
  let pts := [Sample_xyz (1 # 8) (1 # 8) (1 # 8);
              Sample_xyz (3 # 8) (1 # 8) (1 # 8);
              Sample_xyz (3 # 8) (1 # 8) (1 # 8);
              Sample_xyz (7 # 8) (7 # 8) (7 # 8)] in
  let q := mkPoint (1 # 4) (1 # 8) (1 # 8) in
  let oc := built 2 (mkPoint 0 0 0) 1 pts in
  let it := snd (TOctreeIterator.setR (TOctreeIterator.new oc) oc (3 # 10)) in
  let found := TOctreeIterator.getNeighbors it oc q [] in
  List.NoDup found
  /\ length found = length (List.filter (within q ((3 # 10) * (3 # 10))) pts).
Proof.
  apply (getNeighbors_each_once 2 (mkPoint 0 0 0) 1
           [Sample_xyz (1 # 8) (1 # 8) (1 # 8);
            Sample_xyz (3 # 8) (1 # 8) (1 # 8);
            Sample_xyz (3 # 8) (1 # 8) (1 # 8);
            Sample_xyz (7 # 8) (7 # 8) (7 # 8)]
           (3 # 10) (mkPoint (1 # 4) (1 # 8) (1 # 8))).
  - build_dec.
  - q_dec.
  - q_dec.
  - vm_compute. discriminate.
  - inside_dec.
Defined.

(** ** [getNeighbors] with distances *)

Lemma fold_left_pair {A B C : Type} (g : A -> B) (h : A -> C) (l : list A) :
  forall acc,
    fold_left (fun (acc : list B * list C) c =>
                 (fst acc ++ [g c], snd acc ++ [h c])) l acc
    = (fst acc ++ map g l, snd acc ++ map h l).
Proof.
  induction l as [|x l IH]; intros acc; simpl.
  - rewrite !app_nil_r. now destruct acc.
  - rewrite IH. simpl. now rewrite <- !app_assoc.
Qed.

(** X2.  In a built octree, for a query point of the cube,
    [getNeighbors(q, neighbors, distances)] fills the same list of
    neighbours as [getNeighbors(q, neighbors)], and a list of distances
    aligned with it: the k-th distance is the squared distance from [q] to
    the sample of the k-th address, not the distance itself. *)
Theorem getNeighbors_distances_aligned (D : Z) (origin : Point) (size : Q)
    (pts : list Sample) (it : TOctreeIterator.t) (q : Point) :
  build_ok D origin size pts ->
  0 <= TOctreeIterator.m_activeDepth it ->
  inside origin size q ->
  let oc := built D origin size pts in
  let res := TOctreeIterator.getNeighbors_dist it oc q ([], []) in
  fst res = TOctreeIterator.getNeighbors it oc q []
  /\ Forall2 (fun a d => exists u, nth_error pts a = Some u
                                   /\ d = dist2 q (pos u))
       (fst res) (snd res).
Proof.
  intros Hb Hd Hq oc res.
  destruct (built_ok _ _ _ _ Hb) as (Hok & _). fold oc in Hok.
  assert (Hq' : in_cube oc q) by now apply built_in_cube.
  destruct (locatePointNode_spec oc it q Hok Hq' Hd) as (Hcq & _).
  split.
  - apply (getNeighbors_node_dist_fst it oc q _ ([], [])).
  - set (qn := TOctreeIterator.locatePointNode it oc q) in *.
    assert (E : res
                = (map fst (visited_neighbors it oc q qn),
                   map (fun c => dist2 q (pos (snd c)))
                     (visited_neighbors it oc q qn))).
    { unfold res, TOctreeIterator.getNeighbors_dist.
      fold qn. unfold TOctreeIterator.getNeighbors_node_dist.
      assert (Eq : TOctreeIterator.look_inside oc
                (TOctreeIterator.xloc_list it oc q qn)
                (TOctreeIterator.yloc_list it oc q qn)
                (TOctreeIterator.zloc_list it oc q qn) (getDepth qn)
                (fun node => TOctreeIterator.explore_dist it node q) ([], [])
              = (map fst (visited_neighbors it oc q qn),
                 map (fun c => dist2 q (pos (snd c)))
                   (visited_neighbors it oc q qn))).
      { rewrite (query_fold oc it q qn
                   (fun node => TOctreeIterator.explore_dist it node q)
                   (fun acc c => (fst acc ++ [fst c],
                                  snd acc ++ [dist2 q (pos (snd c))]))
                   Hok Hcq).
        - now rewrite fold_left_pair.
        - reflexivity.
        - intros fd ch out. reflexivity. }
      destruct (Z.eqb_spec (getDepth qn) (TOctreeIterator.m_activeDepth it))
        as [E|E]; [rewrite <- E|]; exact Eq. }
    rewrite E. cbn [fst snd].
    assert (Hst : forall c, In c (visited_neighbors it oc q qn) ->
                    nth_error pts (fst c) = Some (snd c)).
    { intros (a, s) Hc. apply visited_neighbors_stored in Hc.
      destruct Hc as (Hc & _). unfold oc in Hc.
      now apply (built_stored _ _ _ _ a s Hb) in Hc. }
    revert Hst. generalize (visited_neighbors it oc q qn).
    intros L. induction L as [|c L IH]; intros Hst; simpl; constructor.
    + exists (snd c). split; [|reflexivity]. apply Hst. now left.
    + apply IH. intros c' Hc'. apply Hst. now right.
Qed.

Lemma getNeighbors_distances_aligned_witness :
  let pts := [Sample_xyz (1 # 8) (1 # 8) (1 # 8);
              Sample_xyz (3 # 8) (1 # 8) (1 # 8)] in
  let q := mkPoint (1 # 4) (1 # 8) (1 # 8) in
  let oc := built 2 (mkPoint 0 0 0) 1 pts in
  let it := snd (TOctreeIterator.setR (TOctreeIterator.new oc) oc (3 # 10)) in
  let res := TOctreeIterator.getNeighbors_dist it oc q ([], []) in
  fst res = TOctreeIterator.getNeighbors it oc q []
  /\ Forall2 (fun a d => exists u, nth_error pts a = Some u
                                   /\ d = dist2 q (pos u))
       (fst res) (snd res).
Proof.
  apply (getNeighbors_distances_aligned 2 (mkPoint 0 0 0) 1
           [Sample_xyz (1 # 8) (1 # 8) (1 # 8);
            Sample_xyz (3 # 8) (1 # 8) (1 # 8)]
           (snd (TOctreeIterator.setR
                   (TOctreeIterator.new
                      (built 2 (mkPoint 0 0 0) 1
                         [Sample_xyz (1 # 8) (1 # 8) (1 # 8);
                          Sample_xyz (3 # 8) (1 # 8) (1 # 8)]))
                   (built 2 (mkPoint 0 0 0) 1
                      [Sample_xyz (1 # 8) (1 # 8) (1 # 8);
                       Sample_xyz (3 # 8) (1 # 8) (1 # 8)])
                   (3 # 10)))
           (mkPoint (1 # 4) (1 # 8) (1 # 8))).
  - build_dec.
  - vm_compute. discriminate.
  - inside_dec.
Defined.

(** ** [getSortedNeighbors]: a map keyed by the squared distance *)

Lemma map_insert_In (k : Q) (s : addr) (m : list (Q * addr)) (e : Q * addr) :
  In e (TOctreeIterator.map_insert k s m) -> e = (k, s) \/ In e m.
Proof.
  induction m as [|(d, a) m IH]; simpl.
  - intros [<-|[]]. now left.
  - destruct (Qltb k d); [|destruct (Qltb d k)]; simpl.
    + intros [<-|H]; [now left|now right].
    + intros [<-|H]; [right; now left|].
      destruct (IH H) as [->|H']; [now left|right; now right].
    + intros H. now right.
Qed.

Lemma map_insert_keeps (k : Q) (s : addr) (m : list (Q * addr))
    (e : Q * addr) :
  In e m -> In e (TOctreeIterator.map_insert k s m).
Proof.
  induction m as [|(d, a) m IH]; simpl; [tauto|].
  destruct (Qltb k d); [|destruct (Qltb d k)]; simpl; tauto.
Qed.

Lemma map_insert_key (k : Q) (s : addr) (m : list (Q * addr)) :
  exists e, In e (TOctreeIterator.map_insert k s m) /\ (fst e == k)%Q.
Proof.
  induction m as [|(d, a) m IH]; simpl.
  - exists (k, s). split; [now left|reflexivity].
  - destruct (Qltb k d) eqn:E1; [|destruct (Qltb d k) eqn:E2].
    + exists (k, s). split; [now left|reflexivity].
    + destruct IH as (e & He & Hk). exists e. split; [now right|exact Hk].
    + exists (d, a). split; [now left|].
      apply Qltb_ge in E1, E2. simpl. now apply Qle_antisym.
Qed.

Lemma map_insert_sorted (k : Q) (s : addr) (m : list (Q * addr)) :
  keys_increasing m -> keys_increasing (TOctreeIterator.map_insert k s m).
Proof.
  unfold keys_increasing.
  induction m as [|(d, a) m IH]; intros Hs; simpl.
  - repeat constructor.
  - apply StronglySorted_inv in Hs. destruct Hs as (Hs & Hall).
    destruct (Qltb k d) eqn:E1; [|destruct (Qltb d k) eqn:E2].
    + apply Qltb_lt in E1. constructor.
      * constructor; assumption.
      * constructor; [exact E1|].
        eapply List.Forall_impl; [|exact Hall].
        intros e He. simpl in *. now apply Qlt_trans with d.
    + apply Qltb_lt in E2. constructor; [now apply IH|].
      apply List.Forall_forall. intros e He.
      apply map_insert_In in He. destruct He as [->|He]; [exact E2|].
      rewrite List.Forall_forall in Hall. now apply Hall.
    + constructor; assumption.
Qed.

(** The map once the samples of [L] have been inserted, each with the key
    [key]: its keys increase, its entries come from [L] or from the map at
    the start, and every sample of [L] finds an entry under its key. *)
Lemma map_insert_fold (key : addr * Sample -> Q) (L : list (addr * Sample)) :
  forall m0,
    keys_increasing m0 ->
    let m := fold_left (fun acc c => TOctreeIterator.map_insert (key c) (fst c) acc)
               L m0 in
    keys_increasing m
    /\ (forall e, In e m ->
          In e m0 \/ exists c, In c L /\ e = (key c, fst c))
    /\ (forall e, In e m0 -> In e m)
    /\ (forall c, In c L -> exists e, In e m /\ (fst e == key c)%Q).
Proof.
  induction L as [|c L IH]; intros m0 Hs; cbn [fold_left].
  - repeat split; auto. intros c [].
  - specialize (IH _ (map_insert_sorted (key c) (fst c) m0 Hs)).
    cbv zeta in IH. destruct IH as (I1 & I2 & I3 & I4).
    split; [exact I1|]. split; [|split].
    + intros e He. destruct (I2 e He) as [H|(c' & Hc' & ->)].
      * apply map_insert_In in H. destruct H as [->|H]; [|now left].
        right. exists c. split; [now left|reflexivity].
      * right. exists c'. split; [now right|reflexivity].
    + intros e He. apply I3. now apply map_insert_keeps.
    + intros c' [<-|Hc'].
      * destruct (map_insert_key (key c) (fst c) m0) as (e & He & Hk).
        exists e. split; [now apply I3|exact Hk].
      * now apply I4.
Qed.

(** X3.  In an octree built by [addPoints] from samples of the bounding
    cube, after a [setR(r)] that succeeds, [getSortedNeighbors(q, map)]
    on an empty map, for a query point [q] of the cube, leaves a map
    whose keys increase strictly, whose every entry is the squared
    distance and the address of a sample whose squared distance to [q] is
    below r * r, and which has an entry under the squared distance of
    every such sample.  Of several samples at the same squared distance
    one only is kept, so the map can hold fewer samples than
    [getNeighbors] reports. *)
Theorem getSortedNeighbors_spec (D : Z) (origin : Point) (size : Q)
    (pts : list Sample) (r : Q) (q : Point) :
  build_ok D origin size pts ->
  (0 < r)%Q -> (r < size)%Q ->
  floor_log2 (size / (2 * r)) <= D ->
  inside origin size q ->
  let oc := built D origin size pts in
  let it := snd (TOctreeIterator.setR (TOctreeIterator.new oc) oc r) in
  let m := TOctreeIterator.getSortedNeighbors it oc q [] in
  keys_increasing m
  /\ (forall d a, In (d, a) m ->
        exists u, nth_error pts a = Some u /\ d = dist2 q (pos u)
                  /\ (d < r * r)%Q)
  /\ (forall a u, nth_error pts a = Some u ->
        (dist2 q (pos u) < r * r)%Q ->
        exists d b, In (d, b) m /\ (d == dist2 q (pos u))%Q).
Proof.
  intros Hb Hr0 Hr1 He Hq oc it m.
  destruct (query_ready _ _ _ _ _ _ Hb Hr0 Hr1 He Hq)
    as (Hok & _ & _ & _ & _ & Hcq & _).
  fold oc in Hok, Hcq. fold it in Hcq.
  destruct (visited_neighbors_built _ _ _ _ _ _ Hb Hr0 Hr1 He Hq)
    as (_ & Hin & _).
  fold oc it in Hin.
  set (qn := TOctreeIterator.locatePointNode it oc q) in *.
  set (key := fun c : addr * Sample => dist2 q (pos (snd c))).
  assert (E : m = fold_left
                    (fun acc c => TOctreeIterator.map_insert (key c) (fst c) acc)
                    (visited_neighbors it oc q qn) []).
  { unfold m, TOctreeIterator.getSortedNeighbors. fold qn.
    unfold TOctreeIterator.getSortedNeighbors_node.
    assert (Eq : TOctreeIterator.look_inside oc
                (TOctreeIterator.xloc_list it oc q qn)
                (TOctreeIterator.yloc_list it oc q qn)
                (TOctreeIterator.zloc_list it oc q qn) (getDepth qn)
                (fun node => TOctreeIterator.exploreSort it node q) []
              = fold_left
                  (fun acc c =>
                     TOctreeIterator.map_insert (key c) (fst c) acc)
                  (visited_neighbors it oc q qn) []).
    { apply (query_fold oc it q qn
               (fun node => TOctreeIterator.exploreSort it node q)
               (fun acc c => TOctreeIterator.map_insert (key c) (fst c) acc)
               Hok Hcq).
      - reflexivity.
      - intros fd ch out. reflexivity. }
    destruct (Z.eqb_spec (getDepth qn) (TOctreeIterator.m_activeDepth it))
      as [E|E]; [rewrite <- E|]; exact Eq. }
  destruct (map_insert_fold key (visited_neighbors it oc q qn) []
              ltac:(constructor)) as (I1 & I2 & _ & I4).
  rewrite <- E in I1, I2, I4.
  split; [exact I1|]. split.
  - intros d a Hda. destruct (I2 _ Hda) as [[]|((a', s) & Hc & Ee)].
    injection Ee as -> ->. apply Hin in Hc. destruct Hc as (Hs & Hw).
    exists s. split; [exact Hs|]. split; [reflexivity|].
    now apply Qltb_lt in Hw.
  - intros a u Hu Hd.
    destruct (I4 (a, u)) as ((d, b) & He' & Hk).
    { apply Hin. split; [exact Hu|]. now apply Qltb_lt. }
    exists d, b. split; [exact He'|exact Hk].
Qed.

Lemma getSortedNeighbors_spec_witness :
  let pts := [Sample_xyz (1 # 8) (1 # 8) (1 # 8);
              Sample_xyz (3 # 8) (1 # 8) (1 # 8);
              Sample_xyz (1 # 4) (1 # 4) (1 # 8)] in
  let q := mkPoint (1 # 4) (1 # 8) (1 # 8) in
  let oc := built 2 (mkPoint 0 0 0) 1 pts in
  let it := snd (TOctreeIterator.setR (TOctreeIterator.new oc) oc (3 # 10)) in
  let m := TOctreeIterator.getSortedNeighbors it oc q [] in
  length m = 1%nat
  /\ length (TOctreeIterator.getNeighbors it oc q []) = 3%nat
  /\ keys_increasing m
  /\ (forall d a, In (d, a) m ->
        exists u, nth_error pts a = Some u /\ d = dist2 q (pos u)
                  /\ (d < (3 # 10) * (3 # 10))%Q)
  /\ (forall a u, nth_error pts a = Some u ->
        (dist2 q (pos u) < (3 # 10) * (3 # 10))%Q ->
        exists d b, In (d, b) m /\ (d == dist2 q (pos u))%Q).
Proof.
  split; [vm_compute; reflexivity|]. split; [vm_compute; reflexivity|].
  apply (getSortedNeighbors_spec 2 (mkPoint 0 0 0) 1
           [Sample_xyz (1 # 8) (1 # 8) (1 # 8);
            Sample_xyz (3 # 8) (1 # 8) (1 # 8);
            Sample_xyz (1 # 4) (1 # 4) (1 # 8)]
           (3 # 10) (mkPoint (1 # 4) (1 # 8) (1 # 8))).
  - build_dec.
  - q_dec.
  - q_dec.
  - vm_compute. discriminate.
  - inside_dec.
Defined.

(** ** [containsOnly]: a ball that holds exceptions only *)

Lemma explore_check_false it n q exceptions :
  TOctreeIterator.explore_check it n q exceptions false = false.
Proof. destruct n; reflexivity. Qed.

Lemma explore_check_leaf_fold it q exceptions pts :
  forall check,
    TOctreeIterator.explore_check_leaf it q exceptions pts check
    = fold_left
        (fun (acc : bool) c =>
           if near it q c && negb (TOctreeIterator.set_mem (fst c) exceptions)
           then false else acc)
        pts check.
Proof.
  induction pts as [|c pts IH]; intros check; [reflexivity|].
  cbn [TOctreeIterator.explore_check_leaf fold_left].
  change (Qltb (dist2 q (pos (snd c))) (TOctreeIterator.m_sqradius it))
    with (near it q c).
  destruct (near it q c && _); [|apply IH].
  clear. induction pts as [|c' pts IH]; [reflexivity|].
  cbn [fold_left]. now destruct (near it q c' && _).
Qed.

Lemma fold_left_check {A : Type} (bad : A -> bool) (l : list A) :
  forall check,
    fold_left (fun (acc : bool) c => if bad c then false else acc) l check
    = check && forallb (fun c => negb (bad c)) l.
Proof.
  induction l as [|c l IH]; intros check; cbn [fold_left forallb].
  - now rewrite andb_true_r.
  - rewrite IH. destruct (bad c), check; reflexivity.
Qed.

(** On a subtree [explore] with exceptions leaves [check] true when every
    sample below the node that passes the test is an exception. *)
Lemma explore_check_eq D origin size it q exceptions n k X Y Zc :
  wf D origin size k X Y Zc n ->
  TOctreeIterator.explore_check it n q exceptions true
  = forallb
      (fun c => negb (near it q c
                      && negb (TOctreeIterator.set_mem (fst c) exceptions)))
      (all_samples n).
Proof.
  intros Hwf.
  rewrite (tree_fold D origin size
             (fun node check =>
                TOctreeIterator.explore_check it node q exceptions check)
             (fun (acc : bool) c =>
                if near it q c
                   && negb (TOctreeIterator.set_mem (fst c) exceptions)
                then false else acc)) with (3 := Hwf).
  - now rewrite fold_left_check.
  - intros [|]; reflexivity.
  - intros f ch [|].
    + cbn [TOctreeIterator.explore_check negb].
      destruct (negb (m_depth f =? 0)).
      * apply fold_left_ext_in. intros [|] i _; [reflexivity|].
        destruct (ch (i mod 8)); [reflexivity|].
        now rewrite explore_check_false.
      * destruct (negb (m_npts f =? 0)); [|reflexivity].
        apply explore_check_leaf_fold.
    + cbn [TOctreeIterator.explore_check negb].
      destruct (negb (m_depth f =? 0)).
      * symmetry. clear. induction eight as [|i l IH]; [reflexivity|].
        cbn [fold_left].
        destruct (ch (i mod 8)); [exact IH|].
        rewrite explore_check_false. exact IH.
      * destruct (negb (m_npts f =? 0)); [|reflexivity].
        rewrite fold_left_check. reflexivity.
Qed.

Lemma forallb_ext_in {A : Type} (f g : A -> bool) (l : list A) :
  (forall x, In x l -> f x = g x) -> forallb f l = forallb g l.
Proof.
  induction l as [|x l IH]; intros H; [reflexivity|].
  cbn [forallb]. rewrite (H x (or_introl eq_refl)), IH; [reflexivity|].
  intros y Hy. apply H. now right.
Qed.

Lemma forallb_flat_map {A B : Type} (f : B -> bool) (g : A -> list B)
    (l : list A) :
  forallb f (flat_map g l) = forallb (fun x => forallb f (g x)) l.
Proof.
  induction l as [|x l IH]; [reflexivity|].
  cbn [flat_map forallb]. now rewrite forallb_app, IH.
Qed.

(** The three nested loops of [containsOnly] test every candidate node. *)
Lemma check_inside_eq oc xloc yloc zloc k visit :
  TOctreeIterator.check_inside oc xloc yloc zloc k visit
  = forallb (fun n => visit n true) (candidates oc xloc yloc zloc k).
Proof.
  unfold TOctreeIterator.check_inside, candidates.
  rewrite forallb_flat_map. apply forallb_ext_in. intros xi _.
  rewrite forallb_flat_map. apply forallb_ext_in. intros yi _.
  rewrite forallb_flat_map. apply forallb_ext_in. intros zi _.
  cbv zeta. destruct (negb _ && _); cbn [forallb]; [|reflexivity].
  now rewrite andb_true_r.
Qed.

Lemma containsOnly_node_eq oc it q qn exceptions :
  octree_ok oc -> cell_of_query oc q qn ->
  TOctreeIterator.containsOnly_node it oc q qn exceptions
  = forallb (fun c => TOctreeIterator.set_mem (fst c) exceptions)
      (visited_neighbors it oc q qn).
Proof.
  intros Hok Hcq.
  assert (E : TOctreeIterator.containsOnly_node it oc q qn exceptions
              = forallb
                  (fun n => TOctreeIterator.explore_check it n q exceptions
                              true)
                  (TOctreeIterator.explored_nodes it oc q qn)).
  { rewrite explored_nodes_eq. unfold TOctreeIterator.containsOnly_node.
    destruct (Z.eqb_spec (getDepth qn) (TOctreeIterator.m_activeDepth it))
      as [E|E]; [rewrite <- E|]; apply check_inside_eq. }
  rewrite E. unfold visited_neighbors. rewrite forallb_flat_map.
  apply forallb_ext_in. intros n Hn.
  destruct (explored_nodes_wf oc it q qn n Hok Hcq Hn)
    as ((X & Y & Zc & Hwf) & _).
  rewrite (explore_check_eq _ _ _ it q exceptions n _ _ _ _ Hwf).
  generalize (all_samples n). intros l.
  induction l as [|c l IH]; [reflexivity|].
  cbn [forallb List.filter]. rewrite IH.
  destruct (near it q c); cbn [forallb andb negb]; [|reflexivity].
  now rewrite negb_involutive.
Qed.

(** X4.  In an octree built by [addPoints] from samples of the bounding
    cube, after a [setR(r)] that succeeds, [containsOnly(q, exceptions)]
    for a query point [q] of the cube returns true exactly when every
    sample of the batch whose squared distance to [q] is strictly below
    r * r is one of the exceptions; samples at distance r or beyond are
    never looked at. *)
Theorem containsOnly_spec (D : Z) (origin : Point) (size : Q)
    (pts : list Sample) (r : Q) (q : Point) (exceptions : list addr) :
  build_ok D origin size pts ->
  (0 < r)%Q -> (r < size)%Q ->
  floor_log2 (size / (2 * r)) <= D ->
  inside origin size q ->
  let oc := built D origin size pts in
  let it := snd (TOctreeIterator.setR (TOctreeIterator.new oc) oc r) in
  TOctreeIterator.containsOnly it oc q exceptions = true
  <-> (forall a u, nth_error pts a = Some u ->
         (dist2 q (pos u) < r * r)%Q -> In a exceptions).
Proof.
  intros Hb Hr0 Hr1 He Hq oc it.
  destruct (query_ready _ _ _ _ _ _ Hb Hr0 Hr1 He Hq)
    as (Hok & _ & _ & _ & _ & Hcq & _).
  fold oc in Hok, Hcq. fold it in Hcq.
  destruct (visited_neighbors_built _ _ _ _ _ _ Hb Hr0 Hr1 He Hq)
    as (_ & Hin & _).
  fold oc it in Hin.
  unfold TOctreeIterator.containsOnly.
  rewrite (containsOnly_node_eq oc it q _ exceptions Hok Hcq).
  rewrite forallb_forall.
  assert (Hmem : forall a, TOctreeIterator.set_mem a exceptions = true
                           <-> In a exceptions).
  { intros a. unfold TOctreeIterator.set_mem. rewrite existsb_exists.
    split.
    - intros (x & Hx & E). apply Nat.eqb_eq in E. now subst.
    - intros H. exists a. split; [exact H|apply Nat.eqb_refl]. }
  split.
  - intros H a u Hu Hd. apply Hmem.
    apply (H (a, u)). apply Hin. split; [exact Hu|]. now apply Qltb_lt.
  - intros H (a, u) Hc. apply Hin in Hc. destruct Hc as (Hu & Hw).
    apply Hmem. apply (H a u Hu). now apply Qltb_lt in Hw.
Qed.

Lemma containsOnly_spec_witness :
  let pts := [Sample_xyz (1 # 8) (1 # 8) (1 # 8);
              Sample_xyz (3 # 8) (1 # 8) (1 # 8);
              Sample_xyz (7 # 8) (7 # 8) (7 # 8)] in
  let q := mkPoint (1 # 4) (1 # 8) (1 # 8) in
  let oc := built 2 (mkPoint 0 0 0) 1 pts in
  let it := snd (TOctreeIterator.setR (TOctreeIterator.new oc) oc (3 # 10)) in
  TOctreeIterator.containsOnly it oc q [0%nat; 1%nat] = true
  /\ TOctreeIterator.containsOnly it oc q [0%nat] = false
  /\ (TOctreeIterator.containsOnly it oc q [0%nat; 1%nat] = true
      <-> (forall a u, nth_error pts a = Some u ->
             (dist2 q (pos u) < (3 # 10) * (3 # 10))%Q ->
             In a [0%nat; 1%nat])).
Proof.
  split; [vm_compute; reflexivity|]. split; [vm_compute; reflexivity|].
  apply (containsOnly_spec 2 (mkPoint 0 0 0) 1
           [Sample_xyz (1 # 8) (1 # 8) (1 # 8);
            Sample_xyz (3 # 8) (1 # 8) (1 # 8);
            Sample_xyz (7 # 8) (7 # 8) (7 # 8)]
           (3 # 10) (mkPoint (1 # 4) (1 # 8) (1 # 8)) [0%nat; 1%nat]).
  - build_dec.
  - q_dec.
  - q_dec.
  - vm_compute. discriminate.
  - inside_dec.
Defined.
